(** * MRT-MQTT control plane: admission, routing and flow registration

    A shallow embedding of the controller core of the repository:
    - [schedulability/analysis.py]  (interference, Holistic and Trajectory
      WCRT, admission control),
    - [sdn_controller/routing.py]   (graph construction, unicast path,
      multicast tree, rendezvous-point election),
    - [sdn_controller/ryu_mrt_app.py] (flow registration, subscriber join,
      installation of the multicast tree),
    - [sdn_controller/msdp.py]      (Source Active messages),
    - [simulation/monitor.py]       (link measurements).

    Conventions of the model.
    - Times, delays and bandwidths are Python floats in the source; they are
      exact rationals ([Q]) here, so rounding, infinities and NaN are not
      represented.  Equality of computed values is [Qeq] ([==]).
    - Node labels, topics and addresses are strings.
    - Python dictionaries whose iteration order the code depends on are
      association lists in insertion order.
    - The graph algorithms of the networkx library are in module [nx].  The
      weighted search is modelled by its contract: it returns a cheapest
      path, the earliest found among equally cheap ones, or nothing where
      the library raises NodeNotFound or NetworkXNoPath; the ValueError the
      library raises on contradictory paths under negative weights is not
      modelled.  The search without weights follows the library's
      bidirectional breadth-first search step by step, since the path it
      picks among equally short ones decides which links a bound counts.
    - An exception that a handler lets escape is a result of its own
      ([Raised]); a ZeroDivisionError inside the analysis is [None]. *)

From Stdlib Require Import List String ZArith QArith Qminmax Qround Qabs Bool Lia Lqa.
From Stdlib Require DecimalString.
Import ListNotations.

Local Open Scope string_scope.
Local Open Scope Z_scope.
Local Open Scope Q_scope.
Local Open Scope list_scope.

(** ** Numeric helpers *)

(** Python's [x > y] on numbers. *)
Definition Qgt_bool (x y : Q) : bool := negb (Qle_bool x y).

(** Python's [x < y] on numbers. *)
Definition Qlt_bool (x y : Q) : bool := negb (Qle_bool y x).

(** Python's [x / y]: raises ZeroDivisionError when [y] is zero. *)
Definition py_div (x y : Q) : option Q :=
  if Qeq_bool y 0 then None else Some (x / y).

(** Python's [math.ceil]. *)
Definition py_ceil (x : Q) : Q := inject_Z (Qceiling x).

(** Python's [sum] of a list of numbers. *)
Definition py_sum (xs : list Q) : Q := fold_left Qplus xs 0.

(** [s.replace(old, "")] for a non-empty [old]: the occurrences of [old]
    are found from left to right without overlap and left out.  [skip] counts
    the characters of an occurrence that are still to be passed. *)
Fixpoint py_remove_from (old : string) (skip : nat) (s : string) : string :=
  match s with
  | EmptyString => EmptyString
  | String c rest =>
      match skip with
      | S k => py_remove_from old k rest
      | O =>
          if String.prefix old s
          then py_remove_from old (String.length old - 1) rest
          else String c (py_remove_from old O rest)
      end
  end.

Definition py_remove (old s : string) : string := py_remove_from old 0 s.

(** Membership of a string in a list ([x in xs]). *)
Definition mem (x : string) (xs : list string) : bool :=
  existsb (String.eqb x) xs.

(** ** Data model *)

(** Modelled from the spec: the dataclasses of [common/rt_attributes.py] are
    not among the sources.  A link has the attributes of section 3 (delays in
    ms, bandwidths in Mbps); these are the fields the sources read. *)
Record Link := mkLink {
  src : string;
  dst : string;
  port_out : Z;
  prop_delay : Q;
  switch_delay : Q;
  proc_delay : Q;
  queuing_delay : Q;
  jitter : Q;
  bw_capacity : Q;
  bw_used : Q
}.

(** The value of [bwi] as the program holds it.  Section 3 has a number of
    Mbps, and the experiment scripts pass one; [ort_nm.py] passes the text of
    the [BWi] user property on unparsed (for instance ["10Mbps"]), and
    [_install_multicast_tree] reads the field through [str].  Values of
    other types are not represented. *)
Inductive bandwidth :=
| bw_number (mbps : Q)
| bw_text (raw : string).

(** Modelled from the spec: a flow has the fields of section 3, and
    [num_hops], which [register_rt_flow] assigns. *)
Record RTAttributes := mkRT {
  ft_i : string;
  qi : Z;
  ci : Q;
  pi : Z;
  ti : Q;
  di : Q;
  bwi : bandwidth;
  src_ip : string;
  dst_ips : list string;
  broker_ips : list string;
  route_links : list Link;
  multicast_group_id : Z;
  processing_delay : Q;
  measured_jitter : Q;
  num_hops : Z
}.

(** Value equality of links (the dataclass [__eq__]). *)
Definition Link_eqb (a b : Link) : bool :=
  (src a =? src b)%string && (dst a =? dst b)%string &&
  (port_out a =? port_out b)%Z &&
  Qeq_bool (prop_delay a) (prop_delay b) &&
  Qeq_bool (switch_delay a) (switch_delay b) &&
  Qeq_bool (proc_delay a) (proc_delay b) &&
  Qeq_bool (queuing_delay a) (queuing_delay b) &&
  Qeq_bool (jitter a) (jitter b) &&
  Qeq_bool (bw_capacity a) (bw_capacity b) &&
  Qeq_bool (bw_used a) (bw_used b).

(** ** The networkx graphs the controller builds *)

Module nx.

(** An edge with the two attributes the sources attach to it. *)
Record edge := mkEdge {
  e_u : string;
  e_v : string;
  weight : Q;
  link_obj : Link
}.

(** Nodes in insertion order, edges in insertion order. *)
Record graph := mkGraph {
  directed : bool;
  nodes : list string;
  edges : list edge
}.

Definition Graph : graph := mkGraph false [] [].
Definition DiGraph : graph := mkGraph true [] [].

(** Does edge [e] join [u] to [v]?  Orientation matters only in a DiGraph. *)
Definition joins (d : bool) (e : edge) (u v : string) : bool :=
  ((e_u e =? u)%string && (e_v e =? v)%string)
  || (negb d && (e_u e =? v)%string && (e_v e =? u)%string).

Definition has_node (G : graph) (n : string) : bool := mem n (nodes G).

Definition add_node (ns : list string) (n : string) : list string :=
  if mem n ns then ns else ns ++ [n].

(** [add_edge] on an existing edge replaces its attributes in place. *)
Fixpoint set_edge (d : bool) (u v : string) (w : Q) (l : Link)
    (es : list edge) : list edge :=
  match es with
  | [] => [mkEdge u v w l]
  | e :: es' =>
      if joins d e u v then mkEdge (e_u e) (e_v e) w l :: es'
      else e :: set_edge d u v w l es'
  end.

Definition add_edge (G : graph) (u v : string) (w : Q) (l : Link) : graph :=
  mkGraph (directed G)
          (add_node (add_node (nodes G) u) v)
          (set_edge (directed G) u v w l (edges G)).

(** [G[u][v]]. *)
Definition get_edge (G : graph) (u v : string) : option edge :=
  find (fun e => joins (directed G) e u v) (edges G).

Definition has_edge (G : graph) (u v : string) : bool :=
  match get_edge G u v with Some _ => true | None => false end.

(** Neighbours of [v] with the weight of the joining edge. *)
Definition adj (G : graph) (v : string) : list (string * Q) :=
  flat_map (fun e =>
    if (e_u e =? v)%string then [(e_v e, weight e)]
    else if negb (directed G) && (e_v e =? v)%string then [(e_u e, weight e)]
    else []) (edges G).

(** [G.succ[v]] and [G.pred[v]] as the search below iterates them: the
    other ends of the edges out of [v], and into [v], in the order in which
    the edges were inserted.  In an undirected graph both are [G.adj[v]]. *)
Definition successors (G : graph) (v : string) : list string :=
  flat_map (fun e =>
    if (e_u e =? v)%string then [e_v e]
    else if negb (directed G) && (e_v e =? v)%string then [e_u e]
    else []) (edges G).

Definition predecessors (G : graph) (v : string) : list string :=
  flat_map (fun e =>
    if (e_v e =? v)%string then [e_u e]
    else if negb (directed G) && (e_u e =? v)%string then [e_v e]
    else []) (edges G).

(** *** Cheapest-path search *)

Record entry := mkEntry {
  en_dist : Q;
  en_node : string;
  en_path : list string
}.

(** The fringe entry of least distance, the earliest pushed among equals. *)
Fixpoint pop_min (fr : list entry) : option (entry * list entry) :=
  match fr with
  | [] => None
  | e :: rest =>
      match pop_min rest with
      | None => Some (e, [])
      | Some (m, rest') =>
          if Qle_bool (en_dist e) (en_dist m) then Some (e, rest)
          else Some (m, e :: rest')
      end
  end.

Fixpoint lookup (n : string) (seen : list (string * Q)) : option Q :=
  match seen with
  | [] => None
  | (k, d) :: rest => if (k =? n)%string then Some d else lookup n rest
  end.

(** Relax the edge from the popped entry [e] to neighbour [u]. *)
Definition relax (e : entry) (done : list string)
    (st : list (string * Q) * list entry) (nb : string * Q)
    : list (string * Q) * list entry :=
  let '(seen, fr) := st in
  let '(u, cost) := nb in
  let vu_dist := en_dist e + cost in
  if mem u done then st
  else
    match lookup u seen with
    | Some u_dist =>
        if Qlt_bool vu_dist u_dist
        then ((u, vu_dist) :: seen, fr ++ [mkEntry vu_dist u (en_path e ++ [u])])
        else st
    | None => ((u, vu_dist) :: seen, fr ++ [mkEntry vu_dist u (en_path e ++ [u])])
    end.

Fixpoint search (fuel : nat) (G : graph) (target : string)
    (done : list string) (seen : list (string * Q)) (fringe : list entry)
    : option (Q * list string) :=
  match fuel with
  | O => None
  | S k =>
      match pop_min fringe with
      | None => None
      | Some (e, rest) =>
          if mem (en_node e) done then search k G target done seen rest
          else if (en_node e =? target)%string then Some (en_dist e, en_path e)
          else
            let '(seen', fringe') :=
              fold_left (relax e done) (adj G (en_node e)) (seen, rest) in
            search k G target (en_node e :: done) seen' fringe'
      end
  end.

(** Every push comes from one end of one edge, after the initial one. *)
Definition search_fuel (G : graph) : nat := S (S (2 * List.length (edges G))).

(** [single_source_dijkstra(G, source, target)]: [None] when the source is
    not a node or the target is not reached. *)
Definition dijkstra (G : graph) (source target : string)
    : option (Q * list string) :=
  if negb (has_node G source) then None
  else if (source =? target)%string then Some (0, [source])
  else search (search_fuel G) G target [] [(source, 0)]
              [mkEntry 0 source [source]].

Definition dijkstra_path (G : graph) (s t : string) : option (list string) :=
  option_map snd (dijkstra G s t).

Definition dijkstra_path_length (G : graph) (s t : string) : option Q :=
  option_map fst (dijkstra G s t).

(** *** Fewest-hops search

    Without a weight [shortest_path(G, s, t)] is the library's
    [bidirectional_shortest_path]: a breadth-first search from the source
    along the successors and one from the target along the predecessors,
    advanced in turn level by level, the smaller fringe first and the forward
    one on a tie, until a node scanned by one search is known to the other.
    [pred] and [succ] are dicts from a node to the node it was reached from
    ([None] for the source and the target themselves). *)

Definition parents : Type := list (string * option string).

(** [w in known] and [known[w]]. *)
Definition known_node (known : parents) (w : string) : bool :=
  existsb (fun kv => (fst kv =? w)%string) known.

Fixpoint parent (known : parents) (w : string) : option (option string) :=
  match known with
  | [] => None
  | (k, v) :: rest => if (k =? w)%string then Some v else parent rest w
  end.

(** What scanning ends with: the searches have met at [w], or the next
    fringe. *)
Inductive scan :=
| Met (known : parents) (w : string)
| Fringe (known : parents) (fringe : list string).

(** [for w in neighbours[v]]: a node not known yet joins the fringe with [v]
    as the node it was reached from; a node the other search knows ends the
    search. *)
Fixpoint scan_node (other : parents) (v : string) (ws : list string)
    (known : parents) (fringe : list string) : scan :=
  match ws with
  | [] => Fringe known fringe
  | w :: rest =>
      let '(known', fringe') :=
        if known_node known w then (known, fringe)
        else (known ++ [(w, Some v)], fringe ++ [w]) in
      if known_node other w then Met known' w
      else scan_node other v rest known' fringe'
  end.

(** [for v in this_level] *)
Fixpoint scan_level (neighbours : string -> list string) (other : parents)
    (this_level : list string) (known : parents) (fringe : list string) : scan :=
  match this_level with
  | [] => Fringe known fringe
  | v :: rest =>
      match scan_node other v (neighbours v) known fringe with
      | Met known' w => Met known' w
      | Fringe known' fringe' => scan_level neighbours other rest known' fringe'
      end
  end.

(** [while forward_fringe and reverse_fringe], one level per unit of fuel;
    [None] is NetworkXNoPath. *)
Fixpoint meet (fuel : nat) (G : graph) (pred succ : parents)
    (forward_fringe reverse_fringe : list string)
    : option (parents * parents * string) :=
  match fuel with
  | O => None
  | S k =>
      match forward_fringe, reverse_fringe with
      | [], _ => None
      | _, [] => None
      | _, _ =>
          if (List.length forward_fringe <=? List.length reverse_fringe)%nat then
            match scan_level (successors G) succ forward_fringe pred [] with
            | Met pred' w => Some (pred', succ, w)
            | Fringe pred' fringe' => meet k G pred' succ fringe' reverse_fringe
            end
          else
            match scan_level (predecessors G) pred reverse_fringe succ [] with
            | Met succ' w => Some (pred, succ', w)
            | Fringe succ' fringe' => meet k G pred succ' forward_fringe fringe'
            end
      end
  end.

(** [while w is not None: path.append(w); w = known[w]] *)
Fixpoint follow (fuel : nat) (known : parents) (w : string) : list string :=
  match fuel with
  | O => []
  | S k =>
      w :: match parent known w with
           | Some (Some v) => follow k known v
           | _ => []
           end
  end.

(** A level that does not end the search makes a search know a node more,
    or empties its fringe. *)
Definition meet_fuel (G : graph) : nat := S (S (2 * List.length (nodes G))).

(** [shortest_path(G, s, t)] without a weight: [None] when an endpoint is
    not a node (NodeNotFound) or no path exists (NetworkXNoPath). *)
Definition shortest_path (G : graph) (s t : string) : option (list string) :=
  if has_node G s && has_node G t then
    if (s =? t)%string then Some [s]
    else
      match meet (meet_fuel G) G [(s, None)] [(t, None)] [s] [t] with
      | Some (pred, succ, w) =>
          Some (rev (follow (List.length pred) pred w)
                ++ tl (follow (List.length succ) succ w))
      | None => None
      end
  else None.

(** The link objects along a node path, hop by hop. *)
Fixpoint links_of_path (G : graph) (path_nodes : list string) : list Link :=
  match path_nodes with
  | [] => []
  | u :: rest =>
      match rest with
      | [] => []
      | v :: _ =>
          match get_edge G u v with
          | Some e => link_obj e :: links_of_path G rest
          | None => links_of_path G rest
          end
      end
  end.

(** A walk: consecutive nodes are joined by an edge. *)
Fixpoint walk (G : graph) (p : list string) : Prop :=
  match p with
  | [] => True
  | u :: rest =>
      match rest with
      | [] => True
      | v :: _ => has_edge G u v = true /\ walk G rest
      end
  end.

(** [t] can be reached from [s] along edges of [G]. *)
Definition connected (G : graph) (s t : string) : Prop :=
  exists p, walk G (s :: p) /\ last (s :: p) s = t.

End nx.

(** ** schedulability/analysis.py *)

Module SchedulabilityUtils.

(** [any(l.src == link.src and l.dst == link.dst for l in flow.route_links)] *)
Definition shares_link (link : Link) (flow : RTAttributes) : bool :=
  existsb (fun l => (src l =? src link)%string && (dst l =? dst link)%string)
          (route_links flow).

(** Flows other than the subject that traverse [link] with a priority at
    least the subject's, in the order of [all_flows]. *)
Definition get_interfering_flows_on_link (link : Link)
    (subject_flow : RTAttributes) (all_flows : list RTAttributes)
    : list RTAttributes :=
  filter (fun flow =>
            negb (ft_i flow =? ft_i subject_flow)%string
            && (shares_link link flow && (pi subject_flow <=? pi flow)%Z))
         all_flows.

End SchedulabilityUtils.

Module TrajectoryApproach.
Import SchedulabilityUtils.

(** Interference of one link: [link_int += ceil(di / ti_j) * ci_j] over the
    interferers; [None] is the ZeroDivisionError of a zero period. *)
Fixpoint link_interference (flow : RTAttributes) (int_flows : list RTAttributes)
    (link_int : Q) : option Q :=
  match int_flows with
  | [] => Some link_int
  | f_j :: rest =>
      match py_div (di flow) (ti f_j) with
      | None => None
      | Some q => link_interference flow rest (link_int + py_ceil q * ci f_j)
      end
  end.

(** The loop over the links of a segment, accumulating [wcrt_segment]. *)
Fixpoint pipeline (flow : RTAttributes) (all_flows : list RTAttributes)
    (links : list Link) (wcrt_segment : Q) : option Q :=
  match links with
  | [] => Some wcrt_segment
  | link :: rest =>
      let int_flows := get_interfering_flows_on_link link flow all_flows in
      match link_interference flow int_flows 0 with
      | None => None
      | Some link_int => pipeline flow all_flows rest (wcrt_segment + link_int)
      end
  end.

Definition _compute_path_wcrt (flow : RTAttributes)
    (all_flows : list RTAttributes) (links : list Link) : option Q :=
  match links with
  | [] => Some 0
  | _ =>
      let hw_delay :=
        py_sum (map (fun l => prop_delay l + switch_delay l + proc_delay l) links) in
      pipeline flow all_flows links (hw_delay + ci flow)
  end.

(** The DiGraph of the committed links (edges carry no weight). *)
Definition route_graph (available_links : list Link) : nx.graph :=
  fold_left (fun G l => nx.add_edge G (src l) (dst l) 1 l)
            available_links nx.DiGraph.

(** One round of the loop over the targets; any exception skips the target. *)
Definition branch_step (flow : RTAttributes) (all_flows : list RTAttributes)
    (G : nx.graph) (source : string) (max_val : Q) (target : string) : Q :=
  match nx.shortest_path G source target with
  | None => max_val
  | Some path_nodes =>
      match _compute_path_wcrt flow all_flows (nx.links_of_path G path_nodes) with
      | None => max_val
      | Some val => if Qgt_bool val max_val then val else max_val
      end
  end.

Definition _get_max_branch_wcrt (flow : RTAttributes)
    (all_flows : list RTAttributes) (source : string)
    (targets : list string) (available_links : list Link) : Q :=
  match targets, available_links with
  | [], _ => 0
  | _, [] => 0
  | _, _ =>
      fold_left (branch_step flow all_flows (route_graph available_links) source)
                targets 0
  end.

Definition calculate_wcrt (flow : RTAttributes)
    (all_flows : list RTAttributes) : Q :=
  let wcrt_multicast :=
    _get_max_branch_wcrt flow all_flows (src_ip flow) (dst_ips flow)
                         (route_links flow) in
  if (0 <? qi flow)%Z then wcrt_multicast + processing_delay flow
  else wcrt_multicast.

End TrajectoryApproach.

Module AdmissionControl.

(** The loop over the existing flows: the first violated deadline rejects. *)
Fixpoint check_existing (candidate_set : list RTAttributes)
    (flows : list RTAttributes) : bool :=
  match flows with
  | [] => true
  | flow :: rest =>
      if Qgt_bool (TrajectoryApproach.calculate_wcrt flow candidate_set) (di flow)
      then false
      else check_existing candidate_set rest
  end.

Definition check_admissibility (new_flow : RTAttributes)
    (existing_flows : list RTAttributes) : bool :=
  let candidate_set := existing_flows ++ [new_flow] in
  let wcrt_new := TrajectoryApproach.calculate_wcrt new_flow candidate_set in
  if Qgt_bool wcrt_new (di new_flow) then false
  else check_existing candidate_set existing_flows.

End AdmissionControl.

Module HolisticApproach.
Import SchedulabilityUtils.

(** What a call produces: a bound, the ZeroDivisionError of a zero period,
    or no answer within the given number of rounds. *)
Inductive outcome :=
| Returned (w : Q)
| ZeroDivision
| OutOfFuel.

Section Analysis.
(** [Link.get_transmission_delay] and the equality that makes flows
    members of a Python set belong to [common/rt_attributes.py]. *)
Variable get_transmission_delay : Link -> Q -> Q.
Variable same_flow : RTAttributes -> RTAttributes -> bool.

Definition static_delay (flow : RTAttributes) : Q :=
  fold_left (fun acc link =>
               acc + get_transmission_delay link (ci flow * 1000)
               + (prop_delay link + switch_delay link + proc_delay link
                  + queuing_delay link))
            (route_links flow) 0
  + processing_delay flow.

Definition path_jitter_sum (flow : RTAttributes) : Q :=
  fold_left (fun acc link => acc + jitter link) (route_links flow) 0.

(** [set.update]. *)
Definition set_update (s xs : list RTAttributes) : list RTAttributes :=
  fold_left (fun acc x => if existsb (same_flow x) acc then acc else acc ++ [x])
            xs s.

Definition interfering_set (flow : RTAttributes)
    (all_flows : list RTAttributes) : list RTAttributes :=
  fold_left (fun s link =>
               set_update s (get_interfering_flows_on_link link flow all_flows))
            (route_links flow) [].

(** [interference += ceil((prev_w + J_j) / T_j) * C_j] over the set. *)
Fixpoint interference (prev_w : Q) (fs : list RTAttributes) (acc : Q)
    : option Q :=
  match fs with
  | [] => Some acc
  | f_j :: rest =>
      match py_div (prev_w + measured_jitter f_j) (ti f_j) with
      | None => None
      | Some q => interference prev_w rest (acc + py_ceil q * ci f_j)
      end
  end.

(** The while loop, one round per unit of fuel. *)
Fixpoint iterate (fuel : nat) (flow : RTAttributes)
    (iset : list RTAttributes) (w prev_w : Q) : outcome :=
  match fuel with
  | O => OutOfFuel
  | S k =>
      if Qgt_bool (Qabs (w - prev_w)) (1 # 1000) then
        if Qgt_bool w (di flow) then Returned w
        else
          match interference w iset 0 with
          | None => ZeroDivision
          | Some i =>
              iterate k flow iset
                      (static_delay flow + ci flow + i + path_jitter_sum flow) w
          end
      else Returned w
  end.

Definition calculate_wcrt (fuel : nat) (flow : RTAttributes)
    (all_flows : list RTAttributes) : outcome :=
  iterate fuel flow (interfering_set flow all_flows)
          (static_delay flow + ci flow) 0.

End Analysis.

End HolisticApproach.

(** ** sdn_controller/routing.py *)

Module RoutingEngine.

Definition link_cost (link : Link) : Q :=
  prop_delay link + switch_delay link + proc_delay link.

Definition utilization (link : Link) : Q :=
  let u := if Qgt_bool (bw_capacity link) 0
           then bw_used link / bw_capacity link else 99 # 100 in
  if Qle_bool 1 u then 99 # 100 else u.

Definition final_cost (link : Link) : Q :=
  link_cost link / (1 - utilization link).

(** The body of the loop of [_build_graph]. *)
Definition build_step (G : nx.graph) (link : Link) : nx.graph :=
  nx.add_edge G (src link) (dst link) (final_cost link) link.

(** [links] is the sequence of values of [of_db.links]. *)
Definition _build_graph (links : list Link) : nx.graph :=
  fold_left build_step links nx.Graph.

Definition _nodes_to_links (G : nx.graph) (path_nodes : list string) : list Link :=
  nx.links_of_path G path_nodes.

(** [if l not in path_links: path_links.append(l)] *)
Definition append_new (path_links : list Link) (l : Link) : list Link :=
  if existsb (Link_eqb l) path_links then path_links else path_links ++ [l].

Section Multicast.
(** networkx's Steiner-tree approximation: the edges of the tree, or
    [None] when it raises. *)
Variable steiner_tree : nx.graph -> list string -> option (list (string * string)).

Definition tree_links (G : nx.graph) (tree_edges : list (string * string))
    : list Link :=
  flat_map (fun uv => match nx.get_edge G (fst uv) (snd uv) with
                      | Some e => [nx.link_obj e]
                      | None => []
                      end) tree_edges.

Definition union_of_paths (G : nx.graph) (source : string)
    (valid_dsts : list string) : list Link :=
  fold_left (fun path_links d =>
               match nx.dijkstra_path G source d with
               | Some p_nodes => fold_left append_new (_nodes_to_links G p_nodes) path_links
               | None => path_links
               end) valid_dsts [].

Definition calculate_path (links : list Link) (source : string)
    (dsts : list string) : list Link :=
  let G := _build_graph links in
  if negb (nx.has_node G source) then []
  else
    let valid_dsts := filter (nx.has_node G) dsts in
    match valid_dsts with
    | [] => []
    | [d] =>
        match nx.dijkstra_path G source d with
        | Some path_nodes => _nodes_to_links G path_nodes
        | None => []
        end
    | _ =>
        let terminals := source :: valid_dsts in
        match steiner_tree G terminals with
        | Some tree_edges => tree_links G tree_edges
        | None => union_of_paths G source valid_dsts
        end
    end.
End Multicast.

(** The inner loop of [select_optimal_rp]: the largest distance from [node]
    to a subscriber, [None] when one of them cannot be reached. *)
Fixpoint max_dist_from (G : nx.graph) (node : string) (subs : list string)
    (max_dist : Q) : option Q :=
  match subs with
  | [] => Some max_dist
  | sub :: rest =>
      match nx.dijkstra_path_length G node sub with
      | None => None
      | Some dist =>
          max_dist_from G node rest (if Qgt_bool dist max_dist then dist else max_dist)
      end
  end.

(** [max_dist < min_max_dist], where [None] is [float('inf')]. *)
Definition below (max_dist : Q) (min_max_dist : option Q) : bool :=
  match min_max_dist with
  | None => true
  | Some m => Qlt_bool max_dist m
  end.

(** One round of the loop over the nodes; the state is
    [(min_max_dist, best_rp)]. *)
Definition rp_step (G : nx.graph) (valid_subs : list string)
    (st : option Q * option string) (node : string) : option Q * option string :=
  match max_dist_from G node valid_subs 0 with
  | None => st
  | Some max_dist =>
      if below max_dist (fst st) then (Some max_dist, Some node) else st
  end.

Definition select_optimal_rp (links : list Link) (subscribers : list string)
    : option string :=
  let G := _build_graph links in
  match nx.nodes G with
  | [] => None
  | _ =>
      let valid_subs := filter (nx.has_node G) subscribers in
      match valid_subs with
      | [] => None
      | _ => snd (fold_left (rp_step G valid_subs) (nx.nodes G) (None, None))
      end
  end.

End RoutingEngine.

(** ** common/of_db.py: the registry *)

Module of_db.

Definition link_key : Type := (string * string * Z)%type.

Definition link_key_eqb (a b : link_key) : bool :=
  let '(s1, d1, p1) := a in
  let '(s2, d2, p2) := b in
  (s1 =? s2)%string && (d1 =? d2)%string && (p1 =? p2)%Z.

(** A Python dict: keys in insertion order; assigning to a key that is
    present replaces its value in place. *)
Fixpoint dict_set {K V : Type} (eqb : K -> K -> bool) (k : K) (v : V)
    (m : list (K * V)) : list (K * V) :=
  match m with
  | [] => [(k, v)]
  | (k', v') :: rest =>
      if eqb k' k then (k, v) :: rest else (k', v') :: dict_set eqb k v rest
  end.

Fixpoint dict_get {K V : Type} (eqb : K -> K -> bool) (k : K)
    (m : list (K * V)) : option V :=
  match m with
  | [] => None
  | (k', v') :: rest => if eqb k' k then Some v' else dict_get eqb k rest
  end.

(** Modelled from the spec: the registry module [common/of_db.py] is not
    among the sources.  Section 4.1 gives it four mappings: switches by
    dpid, links by (src, dst, port), flows by topic and subscribers by
    topic. *)
Record t := mk {
  switches : list (Z * string);
  links : list (link_key * Link);
  flows : list (string * RTAttributes);
  subscribers : list (string * list string)
}.

Definition empty : t := mk [] [] [] [].

(** Modelled from the spec: "add link"; a duplicate replaces the previous
    entry. *)
Definition add_link (s d : string) (p : Z) (l : Link) (db : t) : t :=
  mk (switches db) (dict_set link_key_eqb (s, d, p) l (links db))
     (flows db) (subscribers db).

(** Modelled from the spec: "add flow" stores the flow under its topic. *)
Definition add_flow (topic : string) (attrs : RTAttributes) (db : t) : t :=
  mk (switches db) (links db)
     (dict_set String.eqb topic attrs (flows db)) (subscribers db).

(** Modelled from the spec: "get flow"; a missing key gives the absent
    marker. *)
Definition get_flow (topic : string) (db : t) : option RTAttributes :=
  dict_get String.eqb topic (flows db).

(** Modelled from the spec: "list flows". *)
Definition get_all_flows (db : t) : list (string * RTAttributes) := flows db.

Definition add_once (x : string) (xs : list string) : list string :=
  if mem x xs then xs else xs ++ [x].

(** Modelled from the spec: "add subscriber" adds the address to the set
    kept under the topic in the subscribers mapping, the one mapping section
    4.1 gives this operation; the flows are not touched. *)
Definition add_subscriber (topic sub_ip : string) (db : t) : t :=
  let subs := match dict_get String.eqb topic (subscribers db) with
              | Some l => l
              | None => []
              end in
  mk (switches db) (links db) (flows db)
     (dict_set String.eqb topic (add_once sub_ip subs) (subscribers db)).

(** [of_db.links.values()] in iteration order. *)
Definition link_values (db : t) : list Link := map snd (links db).

End of_db.

(** ** sdn_controller/ryu_mrt_app.py *)

Module RyuMRTApp.

(** The calls made on the data plane, one constructor per primitive. *)
Inductive dp_call :=
| install_meter (dpid meter_id : Z) (bandwidth_mbps : Q)
| install_multicast_group (dpid group_id : Z) (ports : list Z)
| add_flow (dpid priority : Z) (ipv4_dst : string) (group_id meter_id : Z).

(** The application object: the registry it shares with the routing engine,
    the connected datapaths, and the calls sent so far. *)
Record app := mkApp {
  db : of_db.t;
  datapaths : list Z;
  sent : list dp_call
}.

Definition with_db (a : app) (d : of_db.t) : app :=
  mkApp d (datapaths a) (sent a).

Definition with_route (f : RTAttributes) (ls : list Link) : RTAttributes :=
  mkRT (ft_i f) (qi f) (ci f) (pi f) (ti f) (di f) (bwi f) (src_ip f)
       (dst_ips f) (broker_ips f) ls (multicast_group_id f)
       (processing_delay f) (measured_jitter f) (Z.of_nat (List.length ls)).

Definition with_route_links (f : RTAttributes) (ls : list Link) : RTAttributes :=
  mkRT (ft_i f) (qi f) (ci f) (pi f) (ti f) (di f) (bwi f) (src_ip f)
       (dst_ips f) (broker_ips f) ls (multicast_group_id f)
       (processing_delay f) (measured_jitter f) (num_hops f).

Definition with_src_ip (f : RTAttributes) (s : string) : RTAttributes :=
  mkRT (ft_i f) (qi f) (ci f) (pi f) (ti f) (di f) (bwi f) s
       (dst_ips f) (broker_ips f) (route_links f) (multicast_group_id f)
       (processing_delay f) (measured_jitter f) (num_hops f).

Definition with_broker_ips (f : RTAttributes) (bs : list string) : RTAttributes :=
  mkRT (ft_i f) (qi f) (ci f) (pi f) (ti f) (di f) (bwi f) (src_ip f)
       (dst_ips f) bs (route_links f) (multicast_group_id f)
       (processing_delay f) (measured_jitter f) (num_hops f).

Definition with_group_id (f : RTAttributes) (g : Z) : RTAttributes :=
  mkRT (ft_i f) (qi f) (ci f) (pi f) (ti f) (di f) (bwi f) (src_ip f)
       (dst_ips f) (broker_ips f) (route_links f) g
       (processing_delay f) (measured_jitter f) (num_hops f).

(** What a handler produces: a value, or an exception that escapes it. *)
Inductive result (A : Type) :=
| Done (a : A)
| Raised.
Arguments Done {A} a.
Arguments Raised {A}.

(** [fwd_map[dpid].add(port)] on a dict of sets kept in insertion order. *)
Fixpoint fwd_add (dpid port : Z) (m : list (Z * list Z)) : list (Z * list Z) :=
  match m with
  | [] => [(dpid, [port])]
  | (k, ports) :: rest =>
      if (k =? dpid)%Z
      then (k, if existsb (Z.eqb port) ports then ports else ports ++ [port]) :: rest
      else (k, ports) :: fwd_add dpid port rest
  end.

Section Handlers.
(** Python's [hash], [int] and [float] on strings ([None] is the ValueError
    of a text that is not a number), and the Steiner-tree routine of
    networkx. *)
Variable py_hash : string -> Z.
Variable py_int : string -> option Z.
Variable py_float : string -> option Q.
Variable steiner_tree : nx.graph -> list string -> option (list (string * string)).

(** Step 1 of [_install_multicast_tree]; [int(link.src)] may raise. *)
Fixpoint build_fwd_map (path_links : list Link) (m : list (Z * list Z))
    : option (list (Z * list Z)) :=
  match path_links with
  | [] => Some m
  | link :: rest =>
      match py_int (src link) with
      | None => None
      | Some dpid => build_fwd_map rest (fwd_add dpid (port_out link) m)
      end
  end.

(** [float(str(flow.bwi).replace("Mbps","").replace("Kbps",""))].  The text
    of a number reads back as that number; a text is read by [float] once
    the two unit names are taken out, whichever of them it carried. *)
Definition bw_val (flow : RTAttributes) : option Q :=
  match bwi flow with
  | bw_number mbps => Some mbps
  | bw_text raw => py_float (py_remove "Kbps" (py_remove "Mbps" raw))
  end.

(** The three calls made for one connected switch. *)
Definition program_switch (flow : RTAttributes) (group_id dpid : Z)
    (ports : list Z) (bw : Q) : list dp_call :=
  [ install_meter dpid group_id bw;
    install_multicast_group dpid group_id ports;
    add_flow dpid (100 + pi flow)
             (match dst_ips flow with d :: _ => d | [] => "224.0.0.1" end)
             group_id group_id ].

(** The loop over [fwd_map.items()], from the calls sent so far: a switch
    that is not connected is skipped; for a connected one the bandwidth is
    converted, which may raise, and the three calls are made. *)
Fixpoint program (connected : list Z) (flow : RTAttributes) (group_id : Z)
    (fwd_map : list (Z * list Z)) (calls : list dp_call)
    : result unit * list dp_call :=
  match fwd_map with
  | [] => (Done tt, calls)
  | (dpid, ports) :: rest =>
      if existsb (Z.eqb dpid) connected then
        match bw_val flow with
        | None => (Raised, calls)
        | Some bw =>
            program connected flow group_id rest
                    (calls ++ program_switch flow group_id dpid ports bw)
        end
      else program connected flow group_id rest calls
  end.

(** Returns how the call ended, with the flow and the application as it
    leaves them: nothing has changed when step 1 raises; from step 2 on the
    flow has its group id, and the calls made so far have been sent. *)
Definition _install_multicast_tree (a : app) (flow : RTAttributes)
    (path_links : list Link) : result unit * (RTAttributes * app) :=
  match build_fwd_map path_links [] with
  | None => (Raised, (flow, a))
  | Some fwd_map =>
      let group_id :=
        if (multicast_group_id flow =? 0)%Z
        then (Z.abs (py_hash (ft_i flow)) mod 2000 + 1)%Z
        else multicast_group_id flow in
      let flow' := with_group_id flow group_id in
      let '(r, calls) := program (datapaths a) flow' group_id fwd_map (sent a) in
      (r, (flow', mkApp (db a) (datapaths a) calls))
  end.

(** The flow object is the one stored under [topic]: a field assignment
    is seen through the registry. *)
Definition store (topic : string) (flow : RTAttributes) (a : app) : app :=
  with_db a (of_db.add_flow topic flow (db a)).

(** A handler that ends with a call of [_install_multicast_tree]: the
    exception of the call escapes it, otherwise it returns [value]; either
    way the flow under [topic] is the flow as the call left it. *)
Definition after_install {A : Type} (topic : string) (value : A)
    (installed : result unit * (RTAttributes * app)) : result A * app :=
  let '(r, (flow, a)) := installed in
  (match r with Done _ => Done value | Raised => Raised end, store topic flow a).

(** Step 1 of [register_rt_flow]: the descriptor completed with the source
    and the broker. *)
Definition prepare (rt_attrs_dict : RTAttributes) (source : string)
    (broker_ip : option string) : RTAttributes :=
  let rt_attrs := with_src_ip rt_attrs_dict source in
  match broker_ip with
  | Some b =>
      if (b =? "")%string then rt_attrs
      else if mem b (broker_ips rt_attrs) then rt_attrs
      else with_broker_ips rt_attrs (broker_ips rt_attrs ++ [b])
  | None => rt_attrs
  end.

(** The arguments [register_rt_flow] passes to the admission check: the
    new flow and [list(all_flows.values())]. *)
Definition admission_inputs (a : app) (topic : string)
    (rt_attrs_dict : RTAttributes) (source : string)
    (broker_ip : option string) : RTAttributes * list RTAttributes :=
  let rt_attrs := prepare rt_attrs_dict source broker_ip in
  let db1 := of_db.add_flow topic rt_attrs (db a) in
  (rt_attrs, map snd (of_db.get_all_flows db1)).

Definition register_rt_flow (a : app) (topic : string)
    (rt_attrs_dict : RTAttributes) (source : string)
    (broker_ip : option string) : result bool * app :=
  let rt_attrs := prepare rt_attrs_dict source broker_ip in
  let a1 := store topic rt_attrs a in
  let all_flows := of_db.get_all_flows (db a1) in
  if negb (AdmissionControl.check_admissibility rt_attrs (map snd all_flows))
  then (Done false, a1)
  else
    let links := of_db.link_values (db a1) in
    let path_links :=
      RoutingEngine.calculate_path steiner_tree links (src_ip rt_attrs)
                                   (dst_ips rt_attrs) in
    let rt_attrs := with_route rt_attrs path_links in
    let a2 := store topic rt_attrs a1 in
    if (qi rt_attrs =? 0)%Z then
      after_install topic true (_install_multicast_tree a2 rt_attrs path_links)
    else
      let rt_attrs :=
        match broker_ips rt_attrs with
        | [] =>
            match RoutingEngine.select_optimal_rp links (dst_ips rt_attrs) with
            | Some rp =>
                if (rp =? "")%string then rt_attrs
                else with_broker_ips rt_attrs [rp]
            | None => rt_attrs
            end
        | _ => rt_attrs
        end in
      let a2 := store topic rt_attrs a2 in
      let to_broker_links :=
        RoutingEngine.calculate_path steiner_tree links (src_ip rt_attrs)
                                     (broker_ips rt_attrs) in
      after_install topic true
                    (_install_multicast_tree a2 rt_attrs to_broker_links).

Definition handle_new_subscriber (a : app) (topic sub_ip : string)
    : result unit * app :=
  let a1 := with_db a (of_db.add_subscriber topic sub_ip (db a)) in
  match of_db.get_flow topic (db a1) with
  | None => (Done tt, a1)
  | Some flow =>
      let new_links :=
        RoutingEngine.calculate_path steiner_tree (of_db.link_values (db a1))
                                     (src_ip flow) (dst_ips flow) in
      let flow := with_route_links flow new_links in
      let a2 := store topic flow a1 in
      after_install topic tt (_install_multicast_tree a2 flow new_links)
  end.

End Handlers.

End RyuMRTApp.

(** ** sdn_controller/msdp.py *)

Module MSDP_Signaling.

(** A decoded message: [msg.get(key)] is [None] for a key that is missing.
    Values are taken to be strings. *)
Record message := mkMessage {
  msg_type : option string;
  msg_topic : option string;
  msg_src_ip : option string;
  msg_origin_conn : option string
}.

Definition key_eqb (a b : option string) : bool :=
  match a, b with
  | Some x, Some y => (x =? y)%string
  | None, None => true
  | _, _ => false
  end.

(** [active_sources]: a dict from topic to source address. *)
Definition table : Type := list (option string * option string).

(** [topic in self.active_sources] *)
Definition known (topic : option string) (active_sources : table) : bool :=
  existsb (fun kv => key_eqb (fst kv) topic) active_sources.

(** [self.active_sources.get(topic)] *)
Fixpoint source_of (topic : option string) (active_sources : table)
    : option (option string) :=
  match active_sources with
  | [] => None
  | (k, v) :: rest => if key_eqb k topic then Some v else source_of topic rest
  end.

Definition process_sa_message (msg : message) (peer_ip : string)
    (active_sources : table) : table :=
  match msg_type msg with
  | Some ty =>
      if (ty =? "SA")%string then
        if known (msg_topic msg) active_sources then active_sources
        else active_sources ++ [(msg_topic msg, msg_src_ip msg)]
      else active_sources
  | None => active_sources
  end.

(** [_handle_peer] on what was received: [None] stands for no data or data
    that does not decode, which is logged and dropped. *)
Definition _handle_peer (received : option message) (peer_ip : string)
    (active_sources : table) : table :=
  match received with
  | Some msg => process_sa_message msg peer_ip active_sources
  | None => active_sources
  end.

(** The message [send_sa_message] builds, with the peers it is sent to. *)
Definition send_sa_message (my_ip : string) (peers : list string)
    (topic src_ip_ : string) : list (string * message) :=
  map (fun peer =>
         (peer, mkMessage (Some "SA") (Some topic) (Some src_ip_) (Some my_ip)))
      peers.

End MSDP_Signaling.

(** ** simulation/monitor.py *)

Module NetworkMonitor.

(** [history[key].append(d)], then [pop(0)] when more than 20 are held. *)
Definition record_sample (history : list Q) (measured_delay : Q) : list Q :=
  let h := history ++ [measured_delay] in
  if (20 <? List.length h)%nat then tl h else h.

(** The load term and the simulated latency of [_get_latency]; [noise] is
    the value drawn by [random.uniform(-0.5, 0.5)]. *)
Definition load_factor (link : Link) : Q :=
  if Qgt_bool (bw_capacity link) 0
  then (bw_used link / bw_capacity link) * 2
  else 0.

Definition simulated_latency (noise : Q) (link : Link) : Q :=
  5 + noise + load_factor link.

(** [link.prop_delay = measured_delay; link.jitter = jitter] *)
Definition update_link (link : Link) (measured_delay jitter_ : Q) : Link :=
  mkLink (src link) (dst link) (port_out link) measured_delay (switch_delay link)
         (proc_delay link) (queuing_delay link) jitter_ (bw_capacity link)
         (bw_used link).

Section Measure.
(** [statistics.stdev], and the latency obtained for a link in this round. *)
Variable stdev : list Q -> Q.
Variable latency : Link -> Q.

Definition jitter_of (history : list Q) : Q :=
  if (1 <? List.length history)%nat then stdev history else 0.

(** One round of the loop of [_measure_links]; the state is the history
    dict and the links measured so far. *)
Definition measure_step
    (st : list (of_db.link_key * list Q) * list (of_db.link_key * Link))
    (entry : of_db.link_key * Link)
    : list (of_db.link_key * list Q) * list (of_db.link_key * Link) :=
  let '(history, done) := st in
  let '(key, link) := entry in
  let measured_delay := latency link in
  let samples := match of_db.dict_get of_db.link_key_eqb key history with
                 | Some h => h
                 | None => []
                 end in
  let samples := record_sample samples measured_delay in
  (of_db.dict_set of_db.link_key_eqb key samples history,
   done ++ [(key, update_link link measured_delay (jitter_of samples))]).

(** [_measure_links]: the new history and the link table after the round. *)
Definition _measure_links (history : list (of_db.link_key * list Q))
    (links : list (of_db.link_key * Link))
    : list (of_db.link_key * list Q) * list (of_db.link_key * Link) :=
  fold_left measure_step links (history, []).

End Measure.

End NetworkMonitor.

(** ** Worked inputs

    The topologies and flows of the scenarios of the specification, used by
    the examples below.  Every link has a propagation delay of 5 ms, no
    switching or processing delay, and a capacity of 100 Mbps. *)

Definition link5 (s d : string) (p : Z) : Link :=
  mkLink s d p 5 0 0 0 0 100 0.

(** The diamond 1-2-4 / 1-3-4. *)
Definition diamond : list Link :=
  [link5 "1" "2" 1; link5 "1" "3" 2; link5 "2" "4" 1; link5 "3" "4" 1].

(** The triangle 1-2-3, and the same triangle discovered from switch 3. *)
Definition triangle : list Link :=
  [link5 "1" "2" 1; link5 "2" "3" 1; link5 "1" "3" 2].

Definition triangle_from_3 : list Link :=
  [link5 "3" "2" 1; link5 "2" "1" 1; link5 "3" "1" 2].

(** The route 1-2-4 on the diamond. *)
Definition route_124 : list Link := [link5 "1" "2" 1; link5 "2" "4" 1].

(** A flow from switch 1 to switch 4 over [route]. *)
Definition flow_1_to_4 (topic : string) (c : Q) (p : Z) (t d bw : Q)
    (route : list Link) : RTAttributes :=
  mkRT topic 0 c p t d (bw_number bw) "1" ["4"] [] route 0 0 0 0.

(** Flows B and C of scenario S2, and flow A of S1 with its deadline moved
    onto its bound. *)
Definition flow_B : RTAttributes := flow_1_to_4 "B" 5 5 50 50 10 route_124.
Definition flow_C : RTAttributes := flow_1_to_4 "C" (1 # 2) 10 20 50 1 route_124.
Definition flow_A_tight : RTAttributes :=
  flow_1_to_4 "A" (1 # 2) 10 20 (21 # 2) 1 route_124.

(** The registry holding the diamond, and the application connected to its
    four switches, before any flow and with flow B admitted. *)
Definition diamond_registry : of_db.t :=
  of_db.mk [] (map (fun l => ((src l, dst l, port_out l), l)) diamond) [] [].

Definition diamond_app : RyuMRTApp.app :=
  RyuMRTApp.mkApp diamond_registry [1; 2; 3; 4]%Z [].

Definition app_with_B : RyuMRTApp.app :=
  RyuMRTApp.mkApp (of_db.add_flow "B" flow_B diamond_registry) [1; 2; 3; 4]%Z [].

(** Descriptors as the monitor posts them: no source, no route, no group. *)
Definition descriptor (topic : string) (q : Z) (c : Q) (p : Z) (t d bw : Q)
    (dsts : list string) (pd : Q) : RTAttributes :=
  mkRT topic q c p t d (bw_number bw) "" dsts [] [] 0 pd 0 0.

Definition descriptor_C : RTAttributes :=
  descriptor "C" 0 (1 # 2) 10 20 50 1 ["4"] 0.

(** Stand-ins for the Python built-ins and the Steiner routine where an
    example needs the handlers to run: a constant hash, decimal [int], a
    [float] that reads the texts decimal [int] reads and raises on every
    other text, and a Steiner routine that always raises (so the union of
    paths is used). *)
Definition hash_zero (s : string) : Z := 0%Z.

Definition int_decimal (s : string) : option Z :=
  option_map Z.of_int (DecimalString.NilZero.int_of_string s).




(** Flow C with its bandwidth as text, as [ort_nm.py] passes it on. *)
Definition flow_C_text (raw : string) : RTAttributes :=
  mkRT "C" 0 (1 # 2) 10 20 50 (bw_text raw) "1" ["4"] [] route_124 0 0 0 0.

Definition float_decimal (s : string) : option Q :=
  option_map inject_Z (int_decimal s).

Definition steiner_raises (G : nx.graph) (terminals : list string)
    : option (list (string * string)) := None.

(** ** The Trajectory bound in closed form

    The bound as the specification writes it: per destination, the hardware
    delay of the path, the flow's own [ci], and on every link of the path the
    interference of the flows selected there; then the largest branch. *)

Module Formula.

Definition interference_on (f : RTAttributes) (F : list RTAttributes)
    (l : Link) : Q :=
  py_sum (map (fun g => py_ceil (di f / ti g) * ci g)
              (SchedulabilityUtils.get_interfering_flows_on_link l f F)).

Definition branch_bound (f : RTAttributes) (F : list RTAttributes)
    (path : list Link) : Q :=
  py_sum (map (fun l => prop_delay l + switch_delay l + proc_delay l) path)
  + ci f
  + py_sum (map (interference_on f F) path).

(** The links of the path to [d] over the committed links, when there is
    one. *)
Definition path_to (f : RTAttributes) (d : string) : list (list Link) :=
  let G := TrajectoryApproach.route_graph (route_links f) in
  match nx.shortest_path G (src_ip f) d with
  | Some p => [nx.links_of_path G p]
  | None => []
  end.

Definition branch_paths (f : RTAttributes) : list (list Link) :=
  flat_map (path_to f) (dst_ips f).

(** The largest of a list of durations, 0 for the empty list. *)
Definition max_of (xs : list Q) : Q := fold_right Qmax 0 xs.

Definition broker_term (f : RTAttributes) : Q :=
  if (0 <? qi f)%Z then processing_delay f else 0.

(** The bound with every destination, the source itself included, counted
    by [branch_bound]. *)
Definition claimed_wcrt (f : RTAttributes) (F : list RTAttributes) : Q :=
  max_of (map (branch_bound f F) (branch_paths f)) + broker_term f.

(** The same, except that a path without a link counts 0. *)
Definition guarded_bound (f : RTAttributes) (F : list RTAttributes)
    (path : list Link) : Q :=
  match path with
  | [] => 0
  | _ => branch_bound f F path
  end.

Definition guarded_wcrt (f : RTAttributes) (F : list RTAttributes) : Q :=
  max_of (map (guarded_bound f F) (branch_paths f)) + broker_term f.

End Formula.

(** A flow whose only destination is its own source, on the route 1-2-4. *)
Definition flow_to_itself : RTAttributes :=
  mkRT "loop" 0 5 10 20 50 (bw_number 1) "1" ["1"] [] route_124 0 0 0 0.

(** ** Rendezvous-point election as the specification words it *)

(** The largest distance from [node] to a subscriber that is in the graph. *)
Definition eccentricity (links : list Link) (subscribers : list string)
    (node : string) : option Q :=
  let G := RoutingEngine._build_graph links in
  RoutingEngine.max_dist_from G node (filter (nx.has_node G) subscribers) 0.

(** "Ties broken by lowest node id": no node of the same eccentricity as [n]
    has a lower id than [n]. *)
Definition lowest_id_of_its_eccentricity (links : list Link)
    (subscribers : list string) (n : string) : Prop :=
  forall m e e', In m (nx.nodes (RoutingEngine._build_graph links)) ->
    eccentricity links subscribers n = Some e ->
    eccentricity links subscribers m = Some e' ->
    e' == e -> String.leb n m = true.

(** ** The edge weight as the specification words it *)

(** [u = min(bw_used / bw_capacity, 0.99)], and 0.99 for a link without
    capacity. *)
Definition claimed_utilization (link : Link) : Q :=
  if Qgt_bool (bw_capacity link) 0
  then Qmin (bw_used link / bw_capacity link) (99 # 100)
  else 99 # 100.

Definition claimed_weight (link : Link) : Q :=
  RoutingEngine.link_cost link / (1 - claimed_utilization link).

(** Two links between the same two switches, in either direction. *)
Definition same_ends (a b : Link) : Prop :=
  (src a = src b /\ dst a = dst b) \/ (src a = dst b /\ dst a = src b).

(** A link from 1 to 2 used at 199 of its 200 Mbps. *)
Definition busy_link : Link := mkLink "1" "2" 1 5 0 0 0 0 200 199.

(** ** The rounds of the Holistic iteration *)

(** The interference term of one round, as a sum. *)
Definition total_interference (prev_w : Q) (fs : list RTAttributes) : Q :=
  py_sum (map (fun f_j => py_ceil ((prev_w + measured_jitter f_j) / ti f_j) * ci f_j) fs).

(** [rounds (w, prev_w) (w', prev_w')]: the while loop, entered with the
    first pair, comes back to its test with the second. *)
Inductive rounds (get_transmission_delay : Link -> Q -> Q) (flow : RTAttributes)
    (iset : list RTAttributes) : Q * Q -> Q * Q -> Prop :=
| rounds_none (s : Q * Q) : rounds get_transmission_delay flow iset s s
| rounds_more (w prev_w i : Q) (s : Q * Q) :
    1 # 1000 < Qabs (w - prev_w) ->
    w <= di flow ->
    HolisticApproach.interference w iset 0 = Some i ->
    rounds get_transmission_delay flow iset
      (HolisticApproach.static_delay get_transmission_delay flow + ci flow + i
       + HolisticApproach.path_jitter_sum flow, w) s ->
    rounds get_transmission_delay flow iset (w, prev_w) s.

(** Flows are told apart by their topic. *)
Definition same_topic (a b : RTAttributes) : bool := (ft_i a =? ft_i b)%string.

(** No transmission delay. *)
Definition no_transmission_delay (l : Link) (bits : Q) : Q := 0.

(** One link without any delay; a flow on it, and a second flow of higher
    priority whose period equals half its transmission time and whose
    measured jitter is negative. *)
Definition bare_link : Link := mkLink "1" "2" 1 0 0 0 0 0 100 0.

Definition slow_flow : RTAttributes :=
  mkRT "f" 0 1 1 10 100 (bw_number 1) "1" ["2"] [] [bare_link] 0 0 0 0.

Definition greedy_flow : RTAttributes :=
  mkRT "g" 0 2 5 1 100 (bw_number 1) "1" ["2"] [] [bare_link] 0 0 (-10) 0.

(** ** Bandwidth accounting as the specification words it *)

(** The committed links of [f] contain [l]. *)
Definition on_route (l : Link) (f : RTAttributes) : bool :=
  existsb (Link_eqb l) (route_links f).

(** The bandwidth of a flow in Mbps, as section 3 has it: the number [bwi]
    holds.  A [bwi] held as text is outside the accounting of the
    specification and counts for nothing here. *)
Definition bwi_mbps (f : RTAttributes) : Q :=
  match bwi f with
  | bw_number mbps => mbps
  | bw_text _ => 0
  end.

(** For every link of the registry, [bw_used] is the sum of [bwi] over the
    registered flows routed over it. *)
Definition bw_accounted (db : of_db.t) : Prop :=
  forall k l, In (k, l) (of_db.links db) ->
    bw_used l
    == py_sum (map bwi_mbps (filter (on_route l) (map snd (of_db.flows db)))).

(** A broker-mediated descriptor whose broker residency alone exceeds its
    deadline. *)
Definition descriptor_late : RTAttributes :=
  descriptor "late" 1 (1 # 2) 10 20 1 1 ["4"] 5.

(** ** Reading the data-plane calls and the forwarding map *)

(** The switch a call is sent to. *)
Definition call_dpid (c : RyuMRTApp.dp_call) : Z :=
  match c with
  | RyuMRTApp.install_meter d _ _ => d
  | RyuMRTApp.install_multicast_group d _ _ => d
  | RyuMRTApp.add_flow d _ _ _ _ => d
  end.

(** [port in fwd_map[dpid]]. *)
Definition fwd_has (m : list (Z * list Z)) (dpid port : Z) : Prop :=
  exists ports, In (dpid, ports) m /\ In port ports.

(** The calls for the switches of [fwd_map] that are connected, in the order
    of the map, with meters at the rate [bw]. *)
Definition calls_for (connected : list Z) (flow : RTAttributes) (group_id : Z)
    (bw : Q) (fwd_map : list (Z * list Z)) : list RyuMRTApp.dp_call :=
  flat_map (fun e =>
              if existsb (Z.eqb (fst e)) connected
              then RyuMRTApp.program_switch flow group_id (fst e) (snd e) bw
              else []) fwd_map.

(** Some switch of [fwd_map] is connected. *)
Definition reaches (connected : list Z) (fwd_map : list (Z * list Z)) : bool :=
  existsb (fun e => existsb (Z.eqb (fst e)) connected) fwd_map.

(** ** Reading a route off the snapshot *)







(** ** Reading a sequence of MSDP messages *)

(** The message is a Source Active message. *)
Definition is_sa (m : MSDP_Signaling.message) : bool :=
  match MSDP_Signaling.msg_type m with
  | Some ty => (ty =? "SA")%string
  | None => false
  end.

(** The table after the messages [msgs], each with the peer it came from,
    have been processed in order. *)
Definition process_all (msgs : list (MSDP_Signaling.message * string))
    (active_sources : MSDP_Signaling.table) : MSDP_Signaling.table :=
  fold_left (fun t mp => MSDP_Signaling.process_sa_message (fst mp) (snd mp) t)
            msgs active_sources.

(** The first Source Active message for [topic] among [msgs]. *)
Definition first_sa (topic : option string)
    (msgs : list (MSDP_Signaling.message * string))
    : option (MSDP_Signaling.message * string) :=
  find (fun mp => is_sa (fst mp)
                  && MSDP_Signaling.key_eqb (MSDP_Signaling.msg_topic (fst mp)) topic)
       msgs.

(** What the monitor leaves of a link: everything but the propagation delay
    and the jitter. *)
Definition same_but_delay (old new : of_db.link_key * Link) : Prop :=
  fst new = fst old
  /\ src (snd new) = src (snd old) /\ dst (snd new) = dst (snd old)
  /\ port_out (snd new) = port_out (snd old)
  /\ switch_delay (snd new) = switch_delay (snd old)
  /\ proc_delay (snd new) = proc_delay (snd old)
  /\ queuing_delay (snd new) = queuing_delay (snd old)
  /\ bw_capacity (snd new) = bw_capacity (snd old)
  /\ bw_used (snd new) = bw_used (snd old).

(** ** Invariants of the loops *)

(** The path of a fringe entry starts at the source, ends at the entry's
    node, and follows edges. *)
Definition path_ok (G : nx.graph) (source : string) (e : nx.entry) : Prop :=
  exists p, nx.en_path e = source :: p
            /\ nx.walk G (source :: p)
            /\ last (source :: p) source = nx.en_node e.

(** What holds of the graph built from the links [processed]. *)
Definition graph_of (processed : list Link) (G : nx.graph) : Prop :=
  nx.directed G = false
  /\ (forall e, In e (nx.edges G) ->
        nx.weight e = RoutingEngine.final_cost (nx.link_obj e)
        /\ In (nx.link_obj e) processed
        /\ ((nx.e_u e = src (nx.link_obj e) /\ nx.e_v e = dst (nx.link_obj e))
            \/ (nx.e_u e = dst (nx.link_obj e) /\ nx.e_v e = src (nx.link_obj e))))
  /\ (forall l, In l processed ->
        exists e, In e (nx.edges G) /\ nx.joins false e (src l) (dst l) = true).

(** What the loop of [select_optimal_rp] has established after the nodes
    [seen]: nothing when none of them reaches every subscriber, otherwise the
    first of the nodes of least largest distance. *)
Definition elected (G : nx.graph) (S : list string) (seen : list string)
    (st : option Q * option string) : Prop :=
  (st = (None, None)
   /\ forall m, In m seen -> RoutingEngine.max_dist_from G m S 0 = None)
  \/ exists n e p1 p2,
       st = (Some e, Some n) /\ seen = p1 ++ n :: p2
       /\ RoutingEngine.max_dist_from G n S 0 = Some e
       /\ (forall m e', In m seen ->
             RoutingEngine.max_dist_from G m S 0 = Some e' -> e <= e')
       /\ (forall m e', In m p1 ->
             RoutingEngine.max_dist_from G m S 0 = Some e' -> e < e').

(** The value the next round of the Holistic iteration computes from [w]. *)
Definition next_value (get_transmission_delay : Link -> Q -> Q)
    (flow : RTAttributes) (iset : list RTAttributes) (w : Q) : Q :=
  HolisticApproach.static_delay get_transmission_delay flow + ci flow
  + total_interference w iset + HolisticApproach.path_jitter_sum flow.

(** Closed comparisons of rationals. *)
Ltac q_decide :=
  vm_compute; first [reflexivity | discriminate | (intro; discriminate)].

(** ** Comparisons *)

Lemma Qgt_bool_false (x y : Q) : Qgt_bool x y = false <-> x <= y.
Proof.
  unfold Qgt_bool. rewrite negb_false_iff. apply Qle_bool_iff.
Qed.

Lemma Qgt_bool_true (x y : Q) : Qgt_bool x y = true <-> y < x.
Proof.
  unfold Qgt_bool. rewrite negb_true_iff. split; intro H.
  - apply Qnot_le_lt. intro Hle. apply Qle_bool_iff in Hle. congruence.
  - destruct (Qle_bool x y) eqn:E; trivial.
    apply Qle_bool_iff in E. exfalso. apply (Qlt_not_le _ _ H E).
Qed.

Lemma Qlt_bool_true (x y : Q) : Qlt_bool x y = true <-> x < y.
Proof. apply (Qgt_bool_true y x). Qed.

Lemma Qlt_bool_false (x y : Q) : Qlt_bool x y = false <-> y <= x.
Proof. apply (Qgt_bool_false y x). Qed.

(** ** Admission control *)

Lemma check_existing_Forall (candidate_set flows : list RTAttributes) :
  AdmissionControl.check_existing candidate_set flows = true <->
  Forall (fun g => TrajectoryApproach.calculate_wcrt g candidate_set <= di g) flows.
Proof.
  induction flows as [|g rest IH]; simpl.
  - split; auto.
  - destruct (Qgt_bool _ _) eqn:E.
    + split; [discriminate|]. intro H. inversion H; subst.
      apply Qgt_bool_false in H2. congruence.
    + apply Qgt_bool_false in E. rewrite IH. split; intro H.
      * constructor; assumption.
      * inversion H; assumption.
Qed.

(** C1. [check_admissibility] admits the candidate exactly when its own
    Trajectory bound, computed against the admitted flows together with the
    candidate, is at most its deadline and the bound of every admitted flow
    against the same set is at most that flow's deadline.  The comparison is
    not strict: a candidate whose bound equals its deadline is admitted when
    no admitted flow is broken. *)
Theorem admission_iff_all_bounds_within_deadlines
    (new_flow : RTAttributes) (existing_flows : list RTAttributes) :
  let candidate_set := existing_flows ++ [new_flow] in
  (AdmissionControl.check_admissibility new_flow existing_flows = true <->
   TrajectoryApproach.calculate_wcrt new_flow candidate_set <= di new_flow /\
   (forall g, In g existing_flows ->
              TrajectoryApproach.calculate_wcrt g candidate_set <= di g))
  /\
  (TrajectoryApproach.calculate_wcrt new_flow candidate_set == di new_flow ->
   (forall g, In g existing_flows ->
              TrajectoryApproach.calculate_wcrt g candidate_set <= di g) ->
   AdmissionControl.check_admissibility new_flow existing_flows = true).
Proof.
  intro candidate_set.
  assert (Hiff :
    AdmissionControl.check_admissibility new_flow existing_flows = true <->
    TrajectoryApproach.calculate_wcrt new_flow candidate_set <= di new_flow /\
    (forall g, In g existing_flows ->
               TrajectoryApproach.calculate_wcrt g candidate_set <= di g)).
  { unfold AdmissionControl.check_admissibility. fold candidate_set.
    rewrite <- Forall_forall.
    destruct (Qgt_bool _ (di new_flow)) eqn:E.
    - apply Qgt_bool_true in E. split; [discriminate|].
      intros [Hle _]. exfalso. apply (Qlt_not_le _ _ E Hle).
    - apply Qgt_bool_false in E. rewrite check_existing_Forall.
      split; [intro H; split; assumption | intros [_ H]; exact H]. }
  split; [exact Hiff|].
  intros Heq Hall. apply Hiff. split; [|exact Hall].
  rewrite Heq. apply Qle_refl.
Qed.

(** Flow A on the route 1-2-4 has the bound 10.5 ms; with a deadline of
    exactly 10.5 ms it is admitted. *)
Example admits_flow_with_bound_on_deadline :
  TrajectoryApproach.calculate_wcrt flow_A_tight [flow_A_tight] == di flow_A_tight
  /\ AdmissionControl.check_admissibility flow_A_tight [] = true.
Proof. split; reflexivity. Qed.

(** Scenario S2: with C present, B's bound is 18 ms and C's is 10.5 ms, and
    C is admitted next to B. *)
Example scenario_S2 :
  TrajectoryApproach.calculate_wcrt flow_B [flow_B; flow_C] == 18
  /\ TrajectoryApproach.calculate_wcrt flow_C [flow_B; flow_C] == 21 # 2
  /\ AdmissionControl.check_admissibility flow_C [flow_B] = true.
Proof. repeat split; reflexivity. Qed.

(** ** Flows without a route and the Trajectory bound *)

Lemma shares_link_routeless (link : Link) (f : RTAttributes) :
  route_links f = [] -> SchedulabilityUtils.shares_link link f = false.
Proof.
  unfold SchedulabilityUtils.shares_link. intros ->. reflexivity.
Qed.

Lemma interferers_have_route (link : Link) (subject f : RTAttributes)
    (all_flows : list RTAttributes) :
  In f (SchedulabilityUtils.get_interfering_flows_on_link link subject all_flows) ->
  route_links f <> [].
Proof.
  unfold SchedulabilityUtils.get_interfering_flows_on_link.
  rewrite filter_In. intros [_ H] Hnil.
  rewrite (shares_link_routeless link f Hnil) in H.
  rewrite andb_false_r in H. discriminate.
Qed.

Lemma interferers_drop_routeless (link : Link) (subject c : RTAttributes)
    (pre post : list RTAttributes) :
  route_links c = [] ->
  SchedulabilityUtils.get_interfering_flows_on_link link subject (pre ++ c :: post)
  = SchedulabilityUtils.get_interfering_flows_on_link link subject (pre ++ post).
Proof.
  intro Hnil. unfold SchedulabilityUtils.get_interfering_flows_on_link.
  rewrite !filter_app. simpl.
  rewrite (shares_link_routeless link c Hnil), andb_false_r. reflexivity.
Qed.

Section SameInterferers.
Variables (flow : RTAttributes) (F1 F2 : list RTAttributes).
Hypothesis same : forall link,
  SchedulabilityUtils.get_interfering_flows_on_link link flow F1
  = SchedulabilityUtils.get_interfering_flows_on_link link flow F2.

Lemma pipeline_ext (links : list Link) (acc : Q) :
  TrajectoryApproach.pipeline flow F1 links acc
  = TrajectoryApproach.pipeline flow F2 links acc.
Proof.
  revert acc. induction links as [|l rest IH]; intro acc; simpl; trivial.
  rewrite same. destruct (TrajectoryApproach.link_interference _ _ _); trivial.
Qed.

Lemma compute_path_wcrt_ext (links : list Link) :
  TrajectoryApproach._compute_path_wcrt flow F1 links
  = TrajectoryApproach._compute_path_wcrt flow F2 links.
Proof.
  unfold TrajectoryApproach._compute_path_wcrt.
  destruct links; trivial. apply pipeline_ext.
Qed.

Lemma calculate_wcrt_ext :
  TrajectoryApproach.calculate_wcrt flow F1
  = TrajectoryApproach.calculate_wcrt flow F2.
Proof.
  unfold TrajectoryApproach.calculate_wcrt.
  assert (E : forall s ts ls,
    TrajectoryApproach._get_max_branch_wcrt flow F1 s ts ls
    = TrajectoryApproach._get_max_branch_wcrt flow F2 s ts ls).
  { intros s ts ls. unfold TrajectoryApproach._get_max_branch_wcrt.
    destruct ts as [|t ts]; trivial. destruct ls as [|l ls]; trivial.
    generalize (TrajectoryApproach.route_graph (l :: ls)) as G.
    generalize (t :: ts) as targets. generalize 0 as acc.
    intros acc targets. revert acc.
    induction targets as [|x xs IH]; intros acc G; simpl; trivial.
    unfold TrajectoryApproach.branch_step at 2 4.
    destruct (nx.shortest_path G s x); [|apply IH].
    rewrite compute_path_wcrt_ext. apply IH. }
  rewrite E. reflexivity.
Qed.
End SameInterferers.

Lemma calculate_wcrt_routeless (c : RTAttributes) (F : list RTAttributes) :
  route_links c = [] ->
  TrajectoryApproach.calculate_wcrt c F
  == (if (0 <? qi c)%Z then processing_delay c else 0).
Proof.
  intro Hnil. unfold TrajectoryApproach.calculate_wcrt,
    TrajectoryApproach._get_max_branch_wcrt.
  rewrite Hnil. destruct (dst_ips c); destruct (0 <? qi c)%Z; lra.
Qed.

Lemma dict_set_values {K : Type} (eqb : K -> K -> bool) (k : K)
    (v : RTAttributes) (m : list (K * RTAttributes)) :
  exists pre post,
    map snd (of_db.dict_set eqb k v m) = pre ++ v :: post
    /\ forall f, In f (pre ++ post) -> In f (map snd m).
Proof.
  induction m as [|[k' v'] rest IH]; simpl.
  - exists [], []. split; trivial.
  - destruct (eqb k' k).
    + exists [], (map snd rest). split; trivial. simpl. auto.
    + destruct IH as (pre & post & E & Hin).
      exists (v' :: pre), post. simpl. rewrite E. split; trivial.
      intros f [->|H]; auto.
Qed.

Lemma prepare_route (d : RTAttributes) (source : string) (b : option string) :
  route_links (RyuMRTApp.prepare d source b) = route_links d.
Proof.
  unfold RyuMRTApp.prepare. destruct b as [b|]; trivial.
  destruct (b =? "")%string; trivial.
  destruct (mem b _); trivial.
Qed.

Lemma admitted_iff (new_flow : RTAttributes) (existing_flows : list RTAttributes) :
  AdmissionControl.check_admissibility new_flow existing_flows = true <->
  TrajectoryApproach.calculate_wcrt new_flow (existing_flows ++ [new_flow])
  <= di new_flow
  /\ Forall (fun g => TrajectoryApproach.calculate_wcrt g
                        (existing_flows ++ [new_flow]) <= di g) existing_flows.
Proof.
  unfold AdmissionControl.check_admissibility.
  destruct (Qgt_bool _ (di new_flow)) eqn:E.
  - apply Qgt_bool_true in E. split; [discriminate|].
    intros [Hle _]. exfalso. apply (Qlt_not_le _ _ E Hle).
  - apply Qgt_bool_false in E. rewrite check_existing_Forall.
    split; [intro H; split; assumption | intros [_ H]; exact H].
Qed.

Lemma after_install_outcome {A : Type} (topic : string) (value : A)
    (installed : RyuMRTApp.result unit * (RTAttributes * RyuMRTApp.app)) :
  fst (RyuMRTApp.after_install topic value installed) = RyuMRTApp.Done value
  \/ fst (RyuMRTApp.after_install topic value installed) = RyuMRTApp.Raised.
Proof.
  destruct installed as [[u|] [f a]]; simpl; auto.
Qed.

(** C5. [register_rt_flow] answers False exactly when the admission check
    rejects the candidate as it stands before any route is computed: the
    descriptor with its source and broker, against the flows of the registry
    with the candidate stored under its topic.  For a descriptor that carries
    no route that candidate has no route: its own Trajectory bound is
    [processing_delay] when [qi > 0] and 0 otherwise, whatever the set;
    [get_interfering_flows_on_link] never selects a flow without a route; the
    bound of every flow against the set used by the check is the bound
    against the other registered flows alone; and so the registration is
    refused exactly when the broker term of the candidate exceeds its
    deadline or one of the other registered flows misses its deadline among
    themselves. *)
Theorem admission_runs_before_routing
    (py_hash : string -> Z) (py_int : string -> option Z)
    (py_float : string -> option Q)
    (steiner_tree : nx.graph -> list string -> option (list (string * string)))
    (a : RyuMRTApp.app) (topic : string) (rt_attrs_dict : RTAttributes)
    (source : string) (broker_ip : option string) :
  route_links rt_attrs_dict = [] ->
  let candidate := RyuMRTApp.prepare rt_attrs_dict source broker_ip in
  let existing :=
    map snd (of_db.flows (of_db.add_flow topic candidate (RyuMRTApp.db a))) in
  let r := RyuMRTApp.register_rt_flow py_hash py_int py_float steiner_tree a topic
             rt_attrs_dict source broker_ip in
  route_links candidate = []
  /\ (fst r = RyuMRTApp.Done false
      <-> AdmissionControl.check_admissibility candidate existing = false)
  /\ (forall F, TrajectoryApproach.calculate_wcrt candidate F
                == (if (0 <? qi candidate)%Z then processing_delay candidate else 0))
  /\ (forall link subject F f,
        In f (SchedulabilityUtils.get_interfering_flows_on_link link subject F) ->
        route_links f <> [])
  /\ (exists pre post,
        existing = pre ++ candidate :: post
        /\ (forall f, In f (pre ++ post) ->
                      In f (map snd (of_db.flows (RyuMRTApp.db a))))
        /\ (forall g, TrajectoryApproach.calculate_wcrt g (existing ++ [candidate])
                      = TrajectoryApproach.calculate_wcrt g (pre ++ post))
        /\ (fst r = RyuMRTApp.Done false <->
            ~ ((if (0 <? qi candidate)%Z then processing_delay candidate else 0)
               <= di candidate
               /\ forall g, In g (pre ++ post) ->
                            TrajectoryApproach.calculate_wcrt g (pre ++ post)
                            <= di g))).
Proof.
  intros Hnil candidate existing r.
  assert (Hc : route_links candidate = []).
  { unfold candidate. rewrite prepare_route. exact Hnil. }
  assert (Hr : fst r = RyuMRTApp.Done false
               <-> AdmissionControl.check_admissibility candidate existing = false).
  { unfold r, RyuMRTApp.register_rt_flow.
    change (AdmissionControl.check_admissibility
              (RyuMRTApp.prepare rt_attrs_dict source broker_ip)
              (map snd (of_db.get_all_flows
                 (RyuMRTApp.db (RyuMRTApp.store topic
                    (RyuMRTApp.prepare rt_attrs_dict source broker_ip) a)))))
      with (AdmissionControl.check_admissibility candidate existing).
    destruct (AdmissionControl.check_admissibility candidate existing);
      cbn [negb]; [|split; reflexivity].
    split; [|discriminate]. intro H.
    destruct (qi _ =? 0)%Z;
      match type of H with
      | fst (RyuMRTApp.after_install ?t ?v ?i) = _ =>
          destruct (after_install_outcome t v i) as [E|E];
          rewrite E in H; discriminate
      end. }
  split; [exact Hc|]. split; [exact Hr|].
  split; [intro F; apply calculate_wcrt_routeless; exact Hc|].
  split; [intros link subject F f; apply interferers_have_route|].
  destruct (dict_set_values String.eqb topic candidate
              (of_db.flows (RyuMRTApp.db a))) as (pre & post & E & Hin).
  change (map snd (of_db.dict_set String.eqb topic candidate
                     (of_db.flows (RyuMRTApp.db a)))) with existing in E.
  assert (Hsame : forall g,
    TrajectoryApproach.calculate_wcrt g (existing ++ [candidate])
    = TrajectoryApproach.calculate_wcrt g (pre ++ post)).
  { intro g. apply calculate_wcrt_ext. intro link. rewrite E.
    unfold SchedulabilityUtils.get_interfering_flows_on_link.
    rewrite !filter_app. simpl.
    rewrite (shares_link_routeless link candidate Hc), andb_false_r.
    rewrite app_nil_r. reflexivity. }
  exists pre, post. split; [exact E|]. split; [exact Hin|]. split; [exact Hsame|].
  rewrite Hr.
  assert (Hadm : AdmissionControl.check_admissibility candidate existing = true
    <-> (if (0 <? qi candidate)%Z then processing_delay candidate else 0)
        <= di candidate
        /\ forall g, In g (pre ++ post) ->
                     TrajectoryApproach.calculate_wcrt g (pre ++ post) <= di g).
  { rewrite admitted_iff, Forall_forall.
    rewrite (calculate_wcrt_routeless candidate _ Hc).
    split.
    - intros [H1 H2]. split; [exact H1|]. intros g Hg.
      rewrite <- Hsame. apply H2. rewrite E.
      apply in_app_or in Hg. apply in_or_app.
      destruct Hg as [Hg|Hg]; [left; exact Hg | right; right; exact Hg].
    - intros [H1 H2]. split; [exact H1|]. intros g Hg. rewrite E in Hg.
      apply in_app_or in Hg. destruct Hg as [Hg|[<-|Hg]].
      + rewrite Hsame. apply H2, in_or_app. left. exact Hg.
      + rewrite (calculate_wcrt_routeless candidate _ Hc). exact H1.
      + rewrite Hsame. apply H2, in_or_app. right. exact Hg. }
  rewrite <- Hadm.
  destruct (AdmissionControl.check_admissibility candidate existing);
    split; try discriminate; intro H; try reflexivity.
  exfalso. apply H. reflexivity.
Qed.

(** Registering C next to B: the registration goes through, so the check on
    the candidate without a route has admitted it. *)
Lemma admission_runs_before_routing_for_C :
  route_links descriptor_C = []
  /\ fst (RyuMRTApp.register_rt_flow hash_zero int_decimal float_decimal
            steiner_raises app_with_B "C" descriptor_C "1" None)
     = RyuMRTApp.Done true
  /\ AdmissionControl.check_admissibility
       (RyuMRTApp.prepare descriptor_C "1" None)
       (map snd (of_db.flows
                   (of_db.add_flow "C" (RyuMRTApp.prepare descriptor_C "1" None)
                      (RyuMRTApp.db app_with_B)))) = true.
Proof.
  split; [reflexivity|]. split; [reflexivity|].
  destruct (admission_runs_before_routing hash_zero int_decimal float_decimal
              steiner_raises app_with_B "C" descriptor_C "1" None eq_refl)
    as (_ & A & _).
  destruct (AdmissionControl.check_admissibility _ _); [reflexivity|].
  pose proof (proj2 A eq_refl) as H. vm_compute in H. discriminate.
Defined.

(** ** The search returns walks of the graph *)

Lemma pop_min_In (fr rest : list nx.entry) (e : nx.entry) :
  nx.pop_min fr = Some (e, rest) -> In e fr /\ incl rest fr.
Proof.
  revert e rest. induction fr as [|x xs IH]; intros e rest; simpl; [discriminate|].
  destruct (nx.pop_min xs) as [[m rest']|].
  - destruct (IH m rest' eq_refl) as [Hm Hrest].
    destruct (Qle_bool _ _); intro H; inversion H; subst; clear H.
    + split; [left; reflexivity | apply incl_tl, incl_refl].
    + split; [right; exact Hm|].
      intros y [->|Hy]; [left; reflexivity | right; apply Hrest, Hy].
  - intro H; inversion H; subst. split; [left; reflexivity | apply incl_nil_l].
Qed.

Lemma adj_has_edge (G : nx.graph) (v u : string) (c : Q) :
  In (u, c) (nx.adj G v) -> nx.has_edge G v u = true.
Proof.
  unfold nx.adj, nx.has_edge, nx.get_edge. rewrite in_flat_map.
  intros (e & He & Hin).
  assert (J : nx.joins (nx.directed G) e v u = true).
  { unfold nx.joins. destruct (nx.e_u e =? v)%string eqn:E1.
    - destruct Hin as [Hin|[]]. inversion Hin; subst.
      rewrite String.eqb_refl. reflexivity.
    - destruct (nx.directed G); simpl in *; [destruct Hin|].
      destruct (nx.e_v e =? v)%string eqn:E2; [|destruct Hin].
      destruct Hin as [Hin|[]]. inversion Hin; subst.
      rewrite String.eqb_refl. reflexivity. }
  destruct (find _ (nx.edges G)) eqn:F; trivial.
  rewrite (find_none _ _ F e He) in J. discriminate.
Qed.

Lemma last_nonempty_default (x : string) (xs : list string) (a b : string) :
  last (x :: xs) a = last (x :: xs) b.
Proof.
  revert x. induction xs as [|y ys IH]; intro x; [reflexivity|].
  change (last (y :: ys) a = last (y :: ys) b). apply IH.
Qed.

Lemma walk_snoc (G : nx.graph) (s u : string) (p : list string) :
  nx.walk G (s :: p) -> nx.has_edge G (last (s :: p) s) u = true ->
  nx.walk G ((s :: p) ++ [u]).
Proof.
  revert s. induction p as [|x xs IH]; intros s Hw He.
  - simpl in *. split; trivial.
  - destruct Hw as [Hsx Hw]. split; [exact Hsx|].
    apply (IH x Hw).
    rewrite (last_nonempty_default x xs x s). exact He.
Qed.

Section SearchInvariant.
Variables (G : nx.graph) (source : string).

Lemma relax_ok (e : nx.entry) (done : list string)
    (st : list (string * Q) * list nx.entry) (nb : string * Q) :
  path_ok G source e -> In nb (nx.adj G (nx.en_node e)) ->
  Forall (path_ok G source) (snd st) -> Forall (path_ok G source) (snd (nx.relax e done st nb)).
Proof.
  intros (p & Ep & Hw & Hl) Hin Hst.
  destruct st as [seen fr], nb as [u cost]. simpl in Hst.
  assert (Hnew : path_ok G source (nx.mkEntry (nx.en_dist e + cost) u (nx.en_path e ++ [u]))).
  { exists (p ++ [u]). simpl. rewrite Ep. split; [reflexivity|]. split.
    - apply (walk_snoc G source u p Hw). rewrite Hl.
      apply (adj_has_edge G _ u cost Hin).
    - change (last ((source :: p) ++ [u]) source = u). apply last_last. }
  unfold nx.relax. destruct (mem u done); [exact Hst|].
  destruct (nx.lookup u seen).
  - destruct (Qlt_bool _ _); [|exact Hst].
    simpl. apply Forall_app. split; [exact Hst | constructor; [exact Hnew|constructor]].
  - simpl. apply Forall_app. split; [exact Hst | constructor; [exact Hnew|constructor]].
Qed.

Lemma relax_all_ok (e : nx.entry) (done : list string) (nbs : list (string * Q))
    (st : list (string * Q) * list nx.entry) :
  path_ok G source e -> incl nbs (nx.adj G (nx.en_node e)) ->
  Forall (path_ok G source) (snd st) ->
  Forall (path_ok G source) (snd (fold_left (nx.relax e done) nbs st)).
Proof.
  intros He. revert st. induction nbs as [|nb rest IH]; intros st Hincl Hst.
  - exact Hst.
  - simpl. apply IH.
    + intros x Hx. apply Hincl. right. exact Hx.
    + apply relax_ok; trivial. apply Hincl. left. reflexivity.
Qed.

Lemma search_sound (fuel : nat) (target : string) (done : list string)
    (seen : list (string * Q)) (fringe : list nx.entry) (d : Q)
    (path : list string) :
  Forall (path_ok G source) fringe ->
  nx.search fuel G target done seen fringe = Some (d, path) ->
  exists p, path = source :: p /\ nx.walk G (source :: p)
            /\ last (source :: p) source = target.
Proof.
  revert done seen fringe.
  induction fuel as [|k IH]; intros done seen fringe Hfr; simpl; [discriminate|].
  destruct (nx.pop_min fringe) as [[e rest]|] eqn:Epop; [|discriminate].
  destruct (pop_min_In _ _ _ Epop) as [He Hrest].
  assert (Hrest_ok : Forall (path_ok G source) rest).
  { rewrite Forall_forall in *. intros x Hx. apply Hfr, Hrest, Hx. }
  assert (He_ok : path_ok G source e) by (rewrite Forall_forall in Hfr; apply Hfr, He).
  destruct (mem (nx.en_node e) done); [apply IH; exact Hrest_ok|].
  destruct (nx.en_node e =? target)%string eqn:Et.
  - apply String.eqb_eq in Et. intro H; inversion H; subst.
    destruct He_ok as (p & Ep & Hw & Hl). exists p. auto.
  - pose proof (relax_all_ok e done (nx.adj G (nx.en_node e)) (seen, rest)
                  He_ok (incl_refl _) Hrest_ok) as Hnext.
    destruct (fold_left _ _ _) as [seen' fringe']. apply IH. exact Hnext.
Qed.
End SearchInvariant.

Lemma dijkstra_sound (G : nx.graph) (s t : string) (d : Q) (path : list string) :
  nx.dijkstra G s t = Some (d, path) ->
  exists p, path = s :: p /\ nx.walk G (s :: p) /\ last (s :: p) s = t.
Proof.
  unfold nx.dijkstra. destruct (negb (nx.has_node G s)); [discriminate|].
  destruct (s =? t)%string eqn:E.
  - apply String.eqb_eq in E. intro H; inversion H; subst.
    exists []. simpl. auto.
  - apply search_sound. constructor; [|constructor].
    exists []. simpl. auto.
Qed.

Lemma dijkstra_path_none (G : nx.graph) (s t : string) :
  ~ nx.connected G s t -> nx.dijkstra_path G s t = None.
Proof.
  intro Hno. unfold nx.dijkstra_path.
  destruct (nx.dijkstra G s t) as [[d path]|] eqn:E; trivial.
  exfalso. apply Hno. destruct (dijkstra_sound _ _ _ _ _ E) as (p & _ & Hw & Hl).
  exists p. auto.
Qed.

Lemma dijkstra_path_self (G : nx.graph) (s : string) :
  nx.has_node G s = true -> nx.dijkstra_path G s s = Some [s].
Proof.
  intro H. unfold nx.dijkstra_path, nx.dijkstra.
  rewrite H, String.eqb_refl. reflexivity.
Qed.

(** ** Unicast queries with an empty answer *)

Lemma filter_all_false {A : Type} (f : A -> bool) (xs : list A) :
  (forall x, In x xs -> f x = false) -> filter f xs = [].
Proof.
  induction xs as [|x rest IH]; intro H; simpl; trivial.
  rewrite (H x (or_introl eq_refl)). apply IH. intros y Hy. apply H. right. exact Hy.
Qed.

(** C10. [calculate_path] answers with the empty list, and raises nothing,
    when the source is not a node of the graph, when no destination is a node
    of the graph, and, for a query with one destination in the graph, when
    that destination cannot be reached from the source or is the source
    itself. *)
Theorem calculate_path_empty_answers
    (steiner_tree : nx.graph -> list string -> option (list (string * string)))
    (links : list Link) (source : string) (dsts : list string) :
  let G := RoutingEngine._build_graph links in
  nx.has_node G source = false
  \/ (forall d, In d dsts -> nx.has_node G d = false)
  \/ (exists d, filter (nx.has_node G) dsts = [d]
                /\ (~ nx.connected G source d \/ d = source)) ->
  RoutingEngine.calculate_path steiner_tree links source dsts = [].
Proof.
  intros G H. unfold RoutingEngine.calculate_path. fold G.
  destruct (nx.has_node G source) eqn:Hs; simpl; trivial.
  destruct H as [H|[H|(d & Hf & H)]].
  - discriminate.
  - rewrite (filter_all_false _ _ H). reflexivity.
  - rewrite Hf. destruct H as [Hno| ->].
    + rewrite (dijkstra_path_none _ _ _ Hno). reflexivity.
    + rewrite (dijkstra_path_self _ _ Hs). reflexivity.
Qed.

(** The source as its own single destination on the diamond. *)
Lemma calculate_path_to_the_source_itself :
  RoutingEngine.calculate_path steiner_raises diamond "1" ["1"] = [].
Proof.
  apply (calculate_path_empty_answers steiner_raises diamond "1" ["1"]).
  right. right. exists "1". split; [reflexivity | right; reflexivity].
Defined.

(** On the diamond: an unknown source, unknown destinations, and the source
    as its own destination all give the empty list; so does a destination in
    another component. *)
Example calculate_path_empty_on_diamond :
  RoutingEngine.calculate_path steiner_raises diamond "9" ["4"] = []
  /\ RoutingEngine.calculate_path steiner_raises diamond "1" ["8"; "9"] = []
  /\ RoutingEngine.calculate_path steiner_raises diamond "1" ["1"] = []
  /\ RoutingEngine.calculate_path steiner_raises
       (link5 "7" "8" 1 :: diamond) "1" ["8"] = [].
Proof. repeat split; reflexivity. Qed.

(** ** The Trajectory bound against its closed form *)

Lemma py_sum_from (xs : list Q) (a : Q) : fold_left Qplus xs a == a + py_sum xs.
Proof.
  unfold py_sum. revert a. induction xs as [|x rest IH]; intro a; simpl.
  - lra.
  - rewrite (IH (a + x)), (IH (0 + x)). lra.
Qed.

Lemma py_sum_cons (x : Q) (xs : list Q) : py_sum (x :: xs) == x + py_sum xs.
Proof.
  unfold py_sum at 1. simpl. rewrite py_sum_from. lra.
Qed.

Lemma py_div_nonzero (x y : Q) : ~ y == 0 -> py_div x y = Some (x / y).
Proof.
  intro H. unfold py_div. destruct (Qeq_bool y 0) eqn:E; trivial.
  apply Qeq_bool_iff in E. contradiction.
Qed.

Lemma max_of_nonneg (xs : list Q) : 0 <= Formula.max_of xs.
Proof.
  induction xs as [|x rest IH]; simpl.
  - apply Qle_refl.
  - eapply Qle_trans; [exact IH | apply Q.le_max_r].
Qed.

Lemma max_of_app (xs ys : list Q) :
  Formula.max_of (xs ++ ys) == Qmax (Formula.max_of xs) (Formula.max_of ys).
Proof.
  induction xs as [|x rest IH]; simpl.
  - symmetry. apply Q.max_r. apply max_of_nonneg.
  - rewrite IH. apply Q.max_assoc.
Qed.

Lemma keep_larger (val acc : Q) :
  (if Qgt_bool val acc then val else acc) == Qmax acc val.
Proof.
  destruct (Qgt_bool val acc) eqn:E.
  - apply Qgt_bool_true in E. symmetry. apply Q.max_r. apply Qlt_le_weak, E.
  - apply Qgt_bool_false in E. symmetry. apply Q.max_l. exact E.
Qed.

Section ClosedForm.
Variables (f : RTAttributes) (F : list RTAttributes).
Hypothesis periods : forall g, In g F -> ~ ti g == 0.

Lemma link_interference_sum (ints : list RTAttributes) (acc : Q) :
  incl ints F ->
  exists v, TrajectoryApproach.link_interference f ints acc = Some v
            /\ v == acc + py_sum (map (fun g => py_ceil (di f / ti g) * ci g) ints).
Proof.
  revert acc. induction ints as [|g rest IH]; intros acc Hincl; simpl.
  - exists acc. split; trivial. unfold py_sum. simpl. lra.
  - rewrite (py_div_nonzero _ _ (periods g (Hincl g (or_introl eq_refl)))).
    destruct (IH (acc + py_ceil (di f / ti g) * ci g)) as (v & E & Hv).
    { intros x Hx. apply Hincl. right. exact Hx. }
    exists v. split; [exact E|]. rewrite Hv, py_sum_cons. lra.
Qed.

Lemma pipeline_sum (links : list Link) (acc : Q) :
  exists v, TrajectoryApproach.pipeline f F links acc = Some v
            /\ v == acc + py_sum (map (Formula.interference_on f F) links).
Proof.
  revert acc. induction links as [|l rest IH]; intro acc; simpl.
  - exists acc. split; trivial. unfold py_sum. simpl. lra.
  - destruct (link_interference_sum
                (SchedulabilityUtils.get_interfering_flows_on_link l f F) 0)
      as (li & E & Hli).
    { intros x Hx. unfold SchedulabilityUtils.get_interfering_flows_on_link in Hx.
      apply filter_In in Hx. apply Hx. }
    rewrite E. destruct (IH (acc + li)) as (v & Ev & Hv).
    exists v. split; [exact Ev|].
    rewrite Hv, py_sum_cons, Hli. unfold Formula.interference_on. lra.
Qed.

Lemma compute_path_wcrt_guarded (links : list Link) :
  exists v, TrajectoryApproach._compute_path_wcrt f F links = Some v
            /\ v == Formula.guarded_bound f F links.
Proof.
  unfold TrajectoryApproach._compute_path_wcrt, Formula.guarded_bound.
  destruct links as [|l rest].
  - exists 0. split; [reflexivity | apply Qeq_refl].
  - destruct (pipeline_sum (l :: rest)
      (py_sum (map (fun l0 => prop_delay l0 + switch_delay l0 + proc_delay l0)
                   (l :: rest)) + ci f)) as (v & E & Hv).
    exists v. split; [exact E|]. rewrite Hv. unfold Formula.branch_bound. lra.
Qed.

Lemma branch_step_max (s : string) (acc : Q) (t : string) :
  src_ip f = s -> 0 <= acc ->
  TrajectoryApproach.branch_step f F
    (TrajectoryApproach.route_graph (route_links f)) s acc t
  == Qmax acc (Formula.max_of (map (Formula.guarded_bound f F) (Formula.path_to f t))).
Proof.
  intros Hs Hacc. unfold TrajectoryApproach.branch_step, Formula.path_to.
  rewrite Hs.
  destruct (nx.shortest_path _ s t) as [p|]; simpl.
  - destruct (compute_path_wcrt_guarded
                (nx.links_of_path (TrajectoryApproach.route_graph (route_links f)) p))
      as (v & E & Hv).
    rewrite E, keep_larger, Hv, Q.max_assoc.
    symmetry. apply Q.max_l.
    eapply Qle_trans; [exact Hacc | apply Q.le_max_l].
  - symmetry. apply Q.max_l. exact Hacc.
Qed.

Lemma branches_max (s : string) (targets : list string) (acc : Q) :
  src_ip f = s -> 0 <= acc ->
  fold_left (TrajectoryApproach.branch_step f F
               (TrajectoryApproach.route_graph (route_links f)) s) targets acc
  == Qmax acc (Formula.max_of (map (Formula.guarded_bound f F)
                                   (flat_map (Formula.path_to f) targets))).
Proof.
  intro Hs. revert acc. induction targets as [|t rest IH]; intros acc Hacc; simpl.
  - symmetry. apply Q.max_l. exact Hacc.
  - pose proof (branch_step_max s acc t Hs Hacc) as Hstep.
    rewrite IH.
    + rewrite Hstep, map_app, max_of_app. symmetry. apply Q.max_assoc.
    + rewrite Hstep. eapply Qle_trans; [exact Hacc | apply Q.le_max_l].
Qed.

Lemma calculate_wcrt_guarded :
  TrajectoryApproach.calculate_wcrt f F == Formula.guarded_wcrt f F.
Proof.
  unfold TrajectoryApproach.calculate_wcrt, Formula.guarded_wcrt.
  assert (E : TrajectoryApproach._get_max_branch_wcrt f F (src_ip f) (dst_ips f)
                (route_links f)
              == Formula.max_of (map (Formula.guarded_bound f F)
                                     (Formula.branch_paths f))).
  { unfold TrajectoryApproach._get_max_branch_wcrt, Formula.branch_paths.
    destruct (dst_ips f) as [|t ts] eqn:Et; [reflexivity|].
    destruct (route_links f) as [|l ls] eqn:El.
    - assert (N : forall ds, flat_map (Formula.path_to f) ds = []).
      { intro ds. induction ds as [|d ds IH]; simpl; trivial.
        rewrite IH. unfold Formula.path_to. rewrite El. reflexivity. }
      rewrite N. reflexivity.
    - rewrite <- El. rewrite (branches_max (src_ip f) (t :: ts) 0 eq_refl (Qle_refl 0)).
      apply Q.max_r. apply max_of_nonneg. }
  unfold Formula.broker_term. destruct (0 <? qi f)%Z; rewrite E; lra.
Qed.
End ClosedForm.

(** *** The fewest-hops search returns a path with a link *)

Lemma has_edge_intro (G : nx.graph) (e : nx.edge) (u v : string) :
  In e (nx.edges G) -> nx.joins (nx.directed G) e u v = true ->
  nx.has_edge G u v = true.
Proof.
  intros He J. unfold nx.has_edge, nx.get_edge.
  destruct (find _ (nx.edges G)) eqn:F; trivial.
  rewrite (find_none _ _ F e He) in J. discriminate.
Qed.

Lemma successors_edge (G : nx.graph) (v w : string) :
  In w (nx.successors G v) -> nx.has_edge G v w = true.
Proof.
  unfold nx.successors. rewrite in_flat_map. intros (e & He & Hw).
  apply (has_edge_intro G e v w He). unfold nx.joins.
  destruct (nx.e_u e =? v)%string eqn:E1.
  - destruct Hw as [<-|[]]. rewrite String.eqb_refl. reflexivity.
  - destruct (negb (nx.directed G)) eqn:D; [|destruct Hw].
    destruct (nx.e_v e =? v)%string eqn:E2; [|destruct Hw].
    destruct Hw as [<-|[]].
    rewrite ?E1, ?E2, ?String.eqb_refl. cbn [andb]. apply orb_true_r.
Qed.

Lemma predecessors_edge (G : nx.graph) (v w : string) :
  In w (nx.predecessors G v) -> nx.has_edge G w v = true.
Proof.
  unfold nx.predecessors. rewrite in_flat_map. intros (e & He & Hw).
  apply (has_edge_intro G e w v He). unfold nx.joins.
  destruct (nx.e_v e =? v)%string eqn:E1.
  - destruct Hw as [<-|[]]. rewrite String.eqb_refl. reflexivity.
  - destruct (negb (nx.directed G)) eqn:D; [|destruct Hw].
    destruct (nx.e_u e =? v)%string eqn:E2; [|destruct Hw].
    destruct Hw as [<-|[]].
    rewrite ?E1, ?E2, ?String.eqb_refl. cbn [andb]. apply orb_true_r.
Qed.

Lemma known_node_app (known : nx.parents) (kv : string * option string)
    (w : string) :
  nx.known_node known w = true -> nx.known_node (known ++ [kv]) w = true.
Proof.
  unfold nx.known_node. rewrite existsb_app. intros ->. reflexivity.
Qed.

Lemma known_node_last (known : nx.parents) (w : string) (x : option string) :
  nx.known_node (known ++ [(w, x)]) w = true.
Proof.
  unfold nx.known_node. rewrite existsb_app. simpl.
  rewrite String.eqb_refl. apply orb_true_r.
Qed.

Lemma parent_known (known : nx.parents) (w : string) :
  nx.known_node known w = true ->
  exists x, nx.parent known w = Some x /\ In (w, x) known.
Proof.
  induction known as [|[k v] rest IH]; simpl; [discriminate|].
  destruct (k =? w)%string eqn:E.
  - apply String.eqb_eq in E. subst k. intros _. exists v. auto.
  - simpl. intro H. destruct (IH H) as (x & Hp & Hin). exists x. auto.
Qed.

Section Searches.
Variable G : nx.graph.
(** [reached v w]: the search went from [v] to [w]. *)
Variable reached : string -> string -> Prop.
Variable root : string.

(** The dict holds the root, mapped to nothing; every other node of it was
    reached from the node it is mapped to. *)
Definition tree_of (known : nx.parents) : Prop :=
  In (root, None) known
  /\ forall w x, In (w, x) known ->
       match x with
       | Some v => reached v w
       | None => w = root
       end.

Lemma scan_node_tree (other : nx.parents) (v : string) (ws : list string) :
  (forall w, In w ws -> reached v w) ->
  forall known fringe,
    tree_of known ->
    match nx.scan_node other v ws known fringe with
    | nx.Met known' w =>
        tree_of known' /\ nx.known_node known' w = true
        /\ nx.known_node other w = true
    | nx.Fringe known' _ => tree_of known'
    end.
Proof.
  induction ws as [|w rest IH]; intros Hws known fringe Hk; [exact Hk|].
  cbn [nx.scan_node].
  assert (Hrest : forall w', In w' rest -> reached v w')
    by (intros w' H; apply Hws; right; exact H).
  destruct (nx.known_node known w) eqn:K.
  - destruct (nx.known_node other w) eqn:O; [auto|].
    apply IH; assumption.
  - assert (Hk' : tree_of (known ++ [(w, Some v)])).
    { destruct Hk as [Hroot Hk]. split; [apply in_or_app; left; exact Hroot|].
      intros w' x Hin. apply in_app_or in Hin. destruct Hin as [Hin|[E|[]]].
      - apply (Hk w' x Hin).
      - inversion E; subst. apply Hws. left. reflexivity. }
    destruct (nx.known_node other w) eqn:O.
    + split; [exact Hk'|]. split; [apply known_node_last | exact O].
    + apply IH; assumption.
Qed.

Lemma scan_level_tree (neighbours : string -> list string) (other : nx.parents)
    (this_level : list string) :
  (forall v w, In w (neighbours v) -> reached v w) ->
  forall known fringe,
    tree_of known ->
    match nx.scan_level neighbours other this_level known fringe with
    | nx.Met known' w =>
        tree_of known' /\ nx.known_node known' w = true
        /\ nx.known_node other w = true
    | nx.Fringe known' _ => tree_of known'
    end.
Proof.
  intro Hn. induction this_level as [|v rest IH]; intros known fringe Hk;
    [exact Hk|].
  cbn [nx.scan_level].
  pose proof (scan_node_tree other v (neighbours v) (Hn v) known fringe Hk) as H.
  destruct (nx.scan_node other v (neighbours v) known fringe) as [k w|k f];
    [exact H | apply IH, H].
Qed.

(** Following the dict from a node that was reached from another gives both,
    and from the root the root alone. *)
Lemma follow_two (known : nx.parents) (w v : string) :
  tree_of known -> In (w, Some v) known -> nx.parent known w = Some (Some v) ->
  exists rest, nx.follow (List.length known) known w = w :: v :: rest.
Proof.
  intros [Hroot _] Hin Hp.
  assert (L : (2 <= List.length known)%nat).
  { destruct known as [|x [|y rest]]; simpl; try lia.
    - destruct Hin.
    - destruct Hin as [E1|[]]. destruct Hroot as [E2|[]]. congruence. }
  destruct (List.length known) as [|[|n]]; try lia.
  cbn [nx.follow]. rewrite Hp. eexists. reflexivity.
Qed.

Lemma follow_root (known : nx.parents) (w : string) :
  In (w, None) known -> nx.parent known w = Some None ->
  nx.follow (List.length known) known w = [w].
Proof.
  intros Hin Hp. destruct known as [|x rest]; [destruct Hin|].
  cbn [List.length nx.follow]. rewrite Hp. reflexivity.
Qed.
End Searches.

Lemma meet_trees (G : nx.graph) (s t : string) (fuel : nat) :
  forall pred succ ff rf pred' succ' w,
    tree_of (fun v w => nx.has_edge G v w = true) s pred ->
    tree_of (fun v w => nx.has_edge G w v = true) t succ ->
    nx.meet fuel G pred succ ff rf = Some (pred', succ', w) ->
    tree_of (fun v w => nx.has_edge G v w = true) s pred'
    /\ tree_of (fun v w => nx.has_edge G w v = true) t succ'
    /\ nx.known_node pred' w = true /\ nx.known_node succ' w = true.
Proof.
  induction fuel as [|k IH]; intros pred succ ff rf pred' succ' w Hp Hs;
    [discriminate|].
  cbn [nx.meet].
  destruct ff as [|f0 ff']; [discriminate|].
  destruct rf as [|r0 rf']; [discriminate|].
  destruct (_ <=? _)%nat.
  - pose proof (scan_level_tree (fun v w => nx.has_edge G v w = true) s
                  (nx.successors G) succ (f0 :: ff') (successors_edge G)
                  pred [] Hp) as H.
    destruct (nx.scan_level _ succ (f0 :: ff') pred []) as [k1 w1|k1 f1].
    + intro E. inversion E; subst. destruct H as (A & B & C). auto.
    + intro E. apply (IH _ _ _ _ _ _ _ H Hs E).
  - pose proof (scan_level_tree (fun v w => nx.has_edge G w v = true) t
                  (nx.predecessors G) pred (r0 :: rf')
                  (fun v w => predecessors_edge G v w) succ [] Hs) as H.
    destruct (nx.scan_level _ pred (r0 :: rf') succ []) as [k1 w1|k1 f1].
    + intro E. inversion E; subst. destruct H as (A & B & C). auto.
    + intro E. apply (IH _ _ _ _ _ _ _ Hp H E).
Qed.

Lemma links_of_path_crossing (G : nx.graph) (p1 p2 : list string) (u v : string) :
  nx.has_edge G u v = true -> nx.links_of_path G (p1 ++ u :: v :: p2) <> [].
Proof.
  intro He. induction p1 as [|x rest IH].
  - cbn [app nx.links_of_path]. unfold nx.has_edge in He.
    destruct (nx.get_edge G u v); discriminate.
  - destruct rest as [|y rest'].
    + cbn [app] in *. cbn [nx.links_of_path].
      destruct (nx.get_edge G x u); [discriminate | exact IH].
    + change ((x :: y :: rest') ++ u :: v :: p2)
        with (x :: y :: (rest' ++ u :: v :: p2)).
      cbn [nx.links_of_path].
      destruct (nx.get_edge G x y); [discriminate | exact IH].
Qed.

(** A path to a node other than the source crosses at least one link. *)
Lemma shortest_path_has_a_link (G : nx.graph) (s d : string) (p : list string) :
  nx.shortest_path G s d = Some p -> d <> s -> nx.links_of_path G p <> [].
Proof.
  unfold nx.shortest_path. intros H Hne.
  destruct (nx.has_node G s && nx.has_node G d); [|discriminate].
  destruct (s =? d)%string eqn:E;
    [apply String.eqb_eq in E; congruence|].
  destruct (nx.meet _ G _ _ _ _) as [[[pred succ] w]|] eqn:M; [|discriminate].
  inversion H; subst p; clear H.
  assert (Hp0 : tree_of (fun v w => nx.has_edge G v w = true) s [(s, None)]).
  { split; [left; reflexivity|].
    intros w' x [E'|[]]; inversion E'; reflexivity. }
  assert (Hs0 : tree_of (fun v w => nx.has_edge G w v = true) d [(d, None)]).
  { split; [left; reflexivity|].
    intros w' x [E'|[]]; inversion E'; reflexivity. }
  destruct (meet_trees G s d _ _ _ _ _ _ _ _ Hp0 Hs0 M) as (Hp & Hs & Kp & Ks).
  destruct (parent_known pred w Kp) as (x & Px & Inx).
  destruct (parent_known succ w Ks) as (y & Py & Iny).
  destruct x as [v|].
  - (* the forward search reached [w] from [v] *)
    pose proof (proj2 Hp w (Some v) Inx) as He. cbn in He.
    destruct (follow_two _ _ pred w v Hp Inx Px) as (rest & ->).
    cbn [rev]. rewrite <- !app_assoc. cbn [app].
    apply links_of_path_crossing, He.
  - (* the searches met at the source *)
    pose proof (proj2 Hp w None Inx) as Hw. cbn in Hw. subst w.
    rewrite (follow_root pred s Inx Px). cbn [rev app].
    destruct y as [v|].
    + pose proof (proj2 Hs s (Some v) Iny) as He. cbn in He.
      destruct (follow_two _ _ succ s v Hs Iny Py) as (rest & ->).
      cbn [tl]. apply (links_of_path_crossing G [] rest s v He).
    + pose proof (proj2 Hs s None Iny) as Hw. cbn in Hw. congruence.
Qed.

Lemma in_branch_paths (f : RTAttributes) (path : list Link) :
  In path (Formula.branch_paths f) ->
  exists d p, In d (dst_ips f)
    /\ nx.shortest_path (TrajectoryApproach.route_graph (route_links f)) (src_ip f) d
       = Some p
    /\ path = nx.links_of_path (TrajectoryApproach.route_graph (route_links f)) p.
Proof.
  unfold Formula.branch_paths. rewrite in_flat_map. intros (d & Hd & Hin).
  unfold Formula.path_to in Hin.
  destruct (nx.shortest_path _ _ d) as [p|] eqn:E; [|destruct Hin].
  destruct Hin as [<-|[]]. exists d, p. auto.
Qed.

Lemma interferer_spec (l : Link) (f g : RTAttributes) (F : list RTAttributes) :
  In g (SchedulabilityUtils.get_interfering_flows_on_link l f F) <->
  In g F /\ ft_i g <> ft_i f
  /\ (exists l', In l' (route_links g) /\ src l' = src l /\ dst l' = dst l)
  /\ (pi f <= pi g)%Z.
Proof.
  unfold SchedulabilityUtils.get_interfering_flows_on_link,
    SchedulabilityUtils.shares_link.
  rewrite filter_In, !andb_true_iff, negb_true_iff, String.eqb_neq,
    existsb_exists, Z.leb_le.
  split.
  - intros (HF & Hne & (l' & Hl' & Hs) & Hp).
    apply andb_true_iff in Hs. destruct Hs as [Hs Hd].
    apply String.eqb_eq in Hs, Hd. repeat split; trivial. exists l'. auto.
  - intros (HF & Hne & (l' & Hl' & Hs & Hd) & Hp).
    repeat split; trivial. exists l'. split; trivial.
    rewrite Hs, Hd, !String.eqb_refl. reflexivity.
Qed.

(** C8 (as amended). For a flow [f] and a set [F] whose periods are not
    zero, the Trajectory bound is the largest, over the destinations of [f]
    that the committed links reach from the source, of the hardware delay of
    the path plus [ci f] plus, on every link of the path, the sum over the
    interferers [g] of [ceil(di f / ti g) * ci g]; a path without a link (a
    destination that is the source) counts 0, the largest of no branch is 0,
    and [processing_delay f] is added exactly when [qi f > 0].  There is no
    iteration.  When no destination is the source this is the bound as the
    specification writes it.  The interferers on a link are the flows of [F]
    with another topic, a route link between the same two switches, and a
    priority not below that of [f]. *)
Theorem trajectory_wcrt_closed_form (f : RTAttributes) (F : list RTAttributes) :
  (forall g, In g F -> ~ ti g == 0) ->
  TrajectoryApproach.calculate_wcrt f F == Formula.guarded_wcrt f F
  /\ ((forall d, In d (dst_ips f) -> d <> src_ip f) ->
      TrajectoryApproach.calculate_wcrt f F == Formula.claimed_wcrt f F)
  /\ (forall l g,
        In g (SchedulabilityUtils.get_interfering_flows_on_link l f F) <->
        In g F /\ ft_i g <> ft_i f
        /\ (exists l', In l' (route_links g) /\ src l' = src l /\ dst l' = dst l)
        /\ (pi f <= pi g)%Z).
Proof.
  intro periods. split; [apply calculate_wcrt_guarded; exact periods|].
  split; [|intros l g; apply interferer_spec].
  intro Hne. rewrite (calculate_wcrt_guarded f F periods).
  unfold Formula.guarded_wcrt, Formula.claimed_wcrt.
  assert (E : map (Formula.guarded_bound f F) (Formula.branch_paths f)
              = map (Formula.branch_bound f F) (Formula.branch_paths f)).
  { apply map_ext_in. intros path Hin.
    destruct (in_branch_paths f path Hin) as (d & p & Hd & Hp & ->).
    pose proof (shortest_path_has_a_link _ _ _ _ Hp (Hne d Hd)) as Hlinks.
    unfold Formula.guarded_bound.
    destruct (nx.links_of_path _ p); [contradiction | reflexivity]. }
  rewrite E. reflexivity.
Qed.

(** On flow B of scenario S2 with C present: both closed forms give 18 ms. *)
Lemma trajectory_wcrt_closed_form_on_S2 :
  (forall g, In g [flow_B; flow_C] -> ~ ti g == 0)
  /\ TrajectoryApproach.calculate_wcrt flow_B [flow_B; flow_C]
     == Formula.guarded_wcrt flow_B [flow_B; flow_C].
Proof.
  assert (H : forall g, In g [flow_B; flow_C] -> ~ ti g == 0).
  { intros g [<-|[<-|[]]]; intro E; vm_compute in E; discriminate. }
  split; [exact H|].
  exact (proj1 (trajectory_wcrt_closed_form flow_B [flow_B; flow_C] H)).
Defined.

(** A flow addressed to its own source over a non-empty route: the code gives
    0, the bound as the specification writes it gives [ci]. *)
Lemma trajectory_wcrt_of_flow_to_itself :
  TrajectoryApproach.calculate_wcrt flow_to_itself [flow_to_itself] == 0
  /\ Formula.claimed_wcrt flow_to_itself [flow_to_itself] == 5
  /\ ~ TrajectoryApproach.calculate_wcrt flow_to_itself [flow_to_itself]
       == Formula.claimed_wcrt flow_to_itself [flow_to_itself].
Proof.
  repeat split; try reflexivity.
  intro E. vm_compute in E. discriminate.
Qed.

(** ** Rendezvous-point election *)

Lemma max_dist_from_is_max (G : nx.graph) (node : string) (subs : list string)
    (acc e : Q) :
  0 <= acc ->
  RoutingEngine.max_dist_from G node subs acc = Some e ->
  exists ds, Forall2 (fun s d => nx.dijkstra_path_length G node s = Some d) subs ds
             /\ e == Qmax acc (Formula.max_of ds).
Proof.
  revert acc. induction subs as [|s rest IH]; intros acc Hacc; simpl.
  - intro H; inversion H; subst. exists []. split; [constructor|].
    simpl. symmetry. apply Q.max_l. exact Hacc.
  - destruct (nx.dijkstra_path_length G node s) as [d|] eqn:E; [|discriminate].
    intro H. apply IH in H.
    + destruct H as (ds & Hds & He). exists (d :: ds).
      split; [constructor; assumption|].
      rewrite He, keep_larger. simpl. symmetry. apply Q.max_assoc.
    + rewrite keep_larger. eapply Qle_trans; [exact Hacc | apply Q.le_max_l].
Qed.

Section Election.
Variables (G : nx.graph) (S : list string).

Lemma rp_step_elected (seen : list string) (st : option Q * option string)
    (x : string) :
  elected G S seen st -> elected G S (seen ++ [x]) (RoutingEngine.rp_step G S st x).
Proof.
  unfold RoutingEngine.rp_step.
  intros [[-> Hnone]|(n & e & p1 & p2 & -> & -> & Hn & Hmin & Hfirst)].
  - destruct (RoutingEngine.max_dist_from G x S 0) as [ex|] eqn:Ex; simpl.
    + right. exists x, ex, seen, []. repeat split; trivial.
      * intros m e' Hm He'. apply in_app_or in Hm. destruct Hm as [Hm|[<-|[]]].
        -- rewrite (Hnone m Hm) in He'. discriminate.
        -- rewrite Ex in He'. inversion He'. apply Qle_refl.
      * intros m e' Hm He'. rewrite (Hnone m Hm) in He'. discriminate.
    + left. split; trivial. intros m Hm. apply in_app_or in Hm.
      destruct Hm as [Hm|[<-|[]]]; auto.
  - destruct (RoutingEngine.max_dist_from G x S 0) as [ex|] eqn:Ex; simpl.
    + destruct (Qlt_bool ex e) eqn:L.
      * apply Qlt_bool_true in L. right.
        exists x, ex, (p1 ++ n :: p2), []. repeat split; trivial.
        -- intros m e' Hm He'. apply in_app_or in Hm. destruct Hm as [Hm|[<-|[]]].
           ++ apply Qlt_le_weak. eapply Qlt_le_trans; [exact L|]. eapply Hmin; eauto.
           ++ rewrite Ex in He'. inversion He'. apply Qle_refl.
        -- intros m e' Hm He'. eapply Qlt_le_trans; [exact L|]. eapply Hmin; eauto.
      * apply Qlt_bool_false in L. right.
        exists n, e, p1, (p2 ++ [x]). repeat split; trivial.
        -- rewrite <- app_assoc. reflexivity.
        -- intros m e' Hm He'. apply in_app_or in Hm. destruct Hm as [Hm|[<-|[]]].
           ++ eapply Hmin; eauto.
           ++ rewrite Ex in He'. inversion He'; subst. exact L.
    + right. exists n, e, p1, (p2 ++ [x]). repeat split; trivial.
      * rewrite <- app_assoc. reflexivity.
      * intros m e' Hm He'. apply in_app_or in Hm. destruct Hm as [Hm|[<-|[]]].
        -- eapply Hmin; eauto.
        -- rewrite Ex in He'. discriminate.
Qed.

Lemma rp_loop_elected (todo seen : list string) (st : option Q * option string) :
  elected G S seen st ->
  elected G S (seen ++ todo) (fold_left (RoutingEngine.rp_step G S) todo st).
Proof.
  revert seen st. induction todo as [|x rest IH]; intros seen st H; simpl.
  - rewrite app_nil_r. exact H.
  - replace (seen ++ x :: rest) with ((seen ++ [x]) ++ rest)
      by (rewrite <- app_assoc; reflexivity).
    apply IH, rp_step_elected, H.
Qed.
End Election.

(** C7 (as amended). For subscribers of which at least one is a node of the
    graph, and a graph with a node from which all of those are reached,
    [select_optimal_rp] returns a node [n] whose largest Dijkstra distance to
    a subscriber is the least over all nodes; among the nodes attaining that
    least value it returns the one that comes first in the node order of the
    graph (the order in which the link snapshot first mentions them), every
    earlier node being strictly worse. *)
Theorem select_optimal_rp_first_minimiser (links : list Link)
    (subscribers : list string) :
  let G := RoutingEngine._build_graph links in
  let S := filter (nx.has_node G) subscribers in
  S <> [] ->
  (exists m, In m (nx.nodes G) /\ RoutingEngine.max_dist_from G m S 0 <> None) ->
  exists n e pre post ds,
    RoutingEngine.select_optimal_rp links subscribers = Some n
    /\ nx.nodes G = pre ++ n :: post
    /\ RoutingEngine.max_dist_from G n S 0 = Some e
    /\ Forall2 (fun s d => nx.dijkstra_path_length G n s = Some d) S ds
    /\ e == Formula.max_of ds
    /\ (forall m e', In m (nx.nodes G) ->
          RoutingEngine.max_dist_from G m S 0 = Some e' -> e <= e')
    /\ (forall m e', In m pre ->
          RoutingEngine.max_dist_from G m S 0 = Some e' -> e < e').
Proof.
  intros G S HS (m0 & Hm0 & Hecc0).
  pose proof (rp_loop_elected G S (nx.nodes G) [] (None, None)) as H.
  simpl in H.
  destruct H as [[_ Hnone]|(n & e & p1 & p2 & Est & Enodes & Hn & Hmin & Hfirst)].
  - left. split; trivial. intros m [].
  - exfalso. apply Hecc0, Hnone, Hm0.
  - destruct (max_dist_from_is_max G n S 0 e (Qle_refl 0) Hn) as (ds & Hds & He).
    exists n, e, p1, p2, ds.
    split.
    { unfold RoutingEngine.select_optimal_rp. fold G. fold S.
      destruct (nx.nodes G) as [|x xs] eqn:En; [destruct Hm0|].
      destruct S as [|s ss] eqn:ES; [contradiction|].
      rewrite Est. reflexivity. }
    split; [exact Enodes|]. split; [exact Hn|]. split; [exact Hds|].
    split; [|split; assumption].
    rewrite He. apply Q.max_r. apply max_of_nonneg.
Qed.

(** Scenario S3: on the triangle 1-2-3 with subscribers 2 and 3 every node
    has eccentricity 5 and node 1, the first node of the graph, is elected. *)
Lemma select_optimal_rp_on_triangle :
  exists n, RoutingEngine.select_optimal_rp triangle ["2"; "3"] = Some n.
Proof.
  assert (HS : filter (nx.has_node (RoutingEngine._build_graph triangle)) ["2"; "3"]
               <> []) by (vm_compute; discriminate).
  assert (Hm : exists m, In m (nx.nodes (RoutingEngine._build_graph triangle))
                 /\ RoutingEngine.max_dist_from (RoutingEngine._build_graph triangle) m
                      (filter (nx.has_node (RoutingEngine._build_graph triangle))
                              ["2"; "3"]) 0 <> None).
  { exists "1". split; [left; reflexivity | vm_compute; discriminate]. }
  destruct (select_optimal_rp_first_minimiser triangle ["2"; "3"] HS Hm)
    as (n & _ & _ & _ & _ & H & _).
  exists n. exact H.
Defined.

Example scenario_S3 :
  RoutingEngine.select_optimal_rp triangle ["2"; "3"] = Some "1"
  /\ option_map Qred (eccentricity triangle ["2"; "3"] "1") = Some 5
  /\ option_map Qred (eccentricity triangle ["2"; "3"] "2") = Some 5
  /\ option_map Qred (eccentricity triangle ["2"; "3"] "3") = Some 5.
Proof. repeat split; reflexivity. Qed.

(** The same triangle discovered from switch 3, subscribers 2 and 1: every
    node has eccentricity 5; node 3 is elected although node 1 has the same
    eccentricity and a lower id. *)
Lemma select_optimal_rp_not_lowest_id :
  RoutingEngine.select_optimal_rp triangle_from_3 ["2"; "1"] = Some "3"
  /\ option_map Qred (eccentricity triangle_from_3 ["2"; "1"] "3") = Some 5
  /\ option_map Qred (eccentricity triangle_from_3 ["2"; "1"] "1") = Some 5
  /\ ~ lowest_id_of_its_eccentricity triangle_from_3 ["2"; "1"] "3".
Proof.
  repeat split; try reflexivity.
  intro H.
  assert (E : String.leb "3" "1" = true).
  { apply (H "1" (500 # 100) (500 # 100)); try reflexivity.
    right. right. left. reflexivity. }
  vm_compute in E. discriminate.
Qed.

(** ** Edge weights of the routing graph *)

Lemma joins_ends (d : bool) (e : nx.edge) (u v : string) :
  nx.joins d e u v = true ->
  (nx.e_u e = u /\ nx.e_v e = v) \/ (nx.e_u e = v /\ nx.e_v e = u).
Proof.
  unfold nx.joins. rewrite orb_true_iff, !andb_true_iff, !String.eqb_eq.
  intros [[H1 H2]|[[_ H1] H2]]; auto.
Qed.

Lemma joins_undirected (e : nx.edge) (u v : string) :
  (nx.e_u e = u /\ nx.e_v e = v) \/ (nx.e_u e = v /\ nx.e_v e = u) ->
  nx.joins false e u v = true.
Proof.
  unfold nx.joins. intros [[<- <-]|[<- <-]]; rewrite !String.eqb_refl; simpl;
    [reflexivity | apply orb_true_r].
Qed.

Lemma set_edge_In (d : bool) (u v : string) (w : Q) (l : Link)
    (es : list nx.edge) (e' : nx.edge) :
  In e' (nx.set_edge d u v w l es) ->
  In e' es
  \/ (nx.weight e' = w /\ nx.link_obj e' = l
      /\ ((nx.e_u e' = u /\ nx.e_v e' = v) \/ (nx.e_u e' = v /\ nx.e_v e' = u))).
Proof.
  induction es as [|e rest IH]; simpl.
  - intros [<-|[]]. right. simpl. auto.
  - destruct (nx.joins d e u v) eqn:J.
    + intros [<-|H]; [|left; right; exact H].
      right. simpl. repeat split; trivial. apply (joins_ends d e u v J).
    + intros [<-|H]; [left; left; reflexivity|].
      destruct (IH H) as [H'|H']; [left; right; exact H' | right; exact H'].
Qed.

Lemma set_edge_keeps_ends (d : bool) (u v : string) (w : Q) (l : Link)
    (es : list nx.edge) (e : nx.edge) :
  In e es ->
  exists e', In e' (nx.set_edge d u v w l es)
             /\ nx.e_u e' = nx.e_u e /\ nx.e_v e' = nx.e_v e.
Proof.
  induction es as [|x rest IH]; simpl; [intros []|].
  destruct (nx.joins d x u v).
  - intros [E|H].
    + subst x. exists (nx.mkEdge (nx.e_u e) (nx.e_v e) w l).
      split; [left; reflexivity | split; reflexivity].
    + exists e. split; [right; exact H | split; reflexivity].
  - intros [E|H].
    + subst x. exists e. split; [left; reflexivity | split; reflexivity].
    + destruct (IH H) as (e' & He' & E). exists e'. split; [right; exact He' | exact E].
Qed.

Lemma find_set_edge_same (d : bool) (u v : string) (w : Q) (l : Link)
    (es : list nx.edge) :
  exists e', find (fun e => nx.joins d e u v) (nx.set_edge d u v w l es) = Some e'
             /\ nx.weight e' = w /\ nx.link_obj e' = l.
Proof.
  induction es as [|e rest IH]; simpl.
  - unfold nx.joins. simpl. rewrite !String.eqb_refl. simpl. eexists. split; [reflexivity|].
    simpl. auto.
  - destruct (nx.joins d e u v) eqn:J; simpl.
    + replace (nx.joins d (nx.mkEdge (nx.e_u e) (nx.e_v e) w l) u v) with true
        by (symmetry; exact J).
      eexists. split; [reflexivity | simpl; auto].
    + rewrite J. exact IH.
Qed.

Lemma find_set_edge_other (u v u' v' : string) (w : Q) (l : Link)
    (es : list nx.edge) :
  ~ ((u' = u /\ v' = v) \/ (u' = v /\ v' = u)) ->
  find (fun e => nx.joins false e u v) (nx.set_edge false u' v' w l es)
  = find (fun e => nx.joins false e u v) es.
Proof.
  intro Hne.
  assert (Hoff : forall e, nx.joins false e u' v' = true ->
                           nx.joins false e u v = false).
  { intros e J. destruct (nx.joins false e u v) eqn:J'; trivial.
    exfalso. apply Hne.
    destruct (joins_ends _ _ _ _ J) as [[A B]|[A B]];
      destruct (joins_ends _ _ _ _ J') as [[C D]|[C D]]; subst; auto. }
  induction es as [|e rest IH]; simpl.
  - rewrite Hoff; trivial. apply joins_undirected. simpl. auto.
  - destruct (nx.joins false e u' v') eqn:J; simpl.
    + rewrite (Hoff e J).
      replace (nx.joins false (nx.mkEdge (nx.e_u e) (nx.e_v e) w l) u v) with false;
        trivial.
      symmetry. apply (Hoff (nx.mkEdge (nx.e_u e) (nx.e_v e) w l)). exact J.
    + rewrite IH. reflexivity.
Qed.

Lemma build_step_graph_of (processed : list Link) (G : nx.graph) (link : Link) :
  graph_of processed G -> graph_of (processed ++ [link]) (RoutingEngine.build_step G link).
Proof.
  intros (Hd & Hedges & Hlinks). unfold RoutingEngine.build_step, nx.add_edge. simpl.
  split; [exact Hd|]. rewrite Hd. split.
  - intros e He. apply set_edge_In in He.
    destruct He as [He|(Hw & Hl & Hends)].
    + destruct (Hedges e He) as (A & B & C). repeat split; trivial.
      apply in_or_app. left. exact B.
    + rewrite Hl. repeat split; trivial. apply in_or_app. right. left. reflexivity.
  - intros l Hl. apply in_app_or in Hl. destruct Hl as [Hl|[<-|[]]].
    + destruct (Hlinks l Hl) as (e & He & J).
      destruct (set_edge_keeps_ends false (src link) (dst link)
                  (RoutingEngine.final_cost link) link _ e He) as (e' & He' & Eu & Ev).
      exists e'. split; [exact He'|]. apply joins_undirected.
      rewrite Eu, Ev. apply (joins_ends false e _ _ J).
    + destruct (find_set_edge_same false (src link) (dst link)
                  (RoutingEngine.final_cost link) link (nx.edges G)) as (e' & F & _).
      apply find_some in F. exists e'. exact F.
Qed.

Lemma build_graph_of (todo processed : list Link) (G : nx.graph) :
  graph_of processed G ->
  graph_of (processed ++ todo) (fold_left RoutingEngine.build_step todo G).
Proof.
  revert processed G. induction todo as [|l rest IH]; intros processed G H; simpl.
  - rewrite app_nil_r. exact H.
  - replace (processed ++ l :: rest) with ((processed ++ [l]) ++ rest)
      by (rewrite <- app_assoc; reflexivity).
    apply IH, build_step_graph_of, H.
Qed.

Lemma graph_of_nil : graph_of [] nx.Graph.
Proof.
  split; [reflexivity|]. split; [intros e []|intros l []].
Qed.

(** Later links between other pairs of switches leave an edge as it is. *)
Lemma later_links_keep_edge (post : list Link) (G : nx.graph) (link : Link) :
  nx.directed G = false ->
  (forall l', In l' post -> ~ same_ends l' link) ->
  nx.get_edge (fold_left RoutingEngine.build_step post G) (src link) (dst link)
  = nx.get_edge G (src link) (dst link).
Proof.
  revert G. induction post as [|l rest IH]; intros G Hd Hpost; simpl; trivial.
  rewrite IH.
  - unfold nx.get_edge, RoutingEngine.build_step, nx.add_edge. simpl. rewrite Hd.
    apply find_set_edge_other. apply (Hpost l). left. reflexivity.
  - exact Hd.
  - intros l' Hl'. apply Hpost. right. exact Hl'.
Qed.

Lemma get_edge_build_step (G : nx.graph) (link : Link) :
  nx.directed G = false ->
  exists e', nx.get_edge (RoutingEngine.build_step G link) (src link) (dst link) = Some e'
             /\ nx.weight e' = RoutingEngine.final_cost link
             /\ nx.link_obj e' = link.
Proof.
  intro Hd. unfold nx.get_edge, RoutingEngine.build_step, nx.add_edge. simpl. rewrite Hd.
  apply find_set_edge_same.
Qed.

Lemma build_undirected (ls : list Link) (G : nx.graph) :
  nx.directed G = false -> nx.directed (fold_left RoutingEngine.build_step ls G) = false.
Proof.
  revert G. induction ls as [|l ls IH]; intros G H; simpl; trivial.
  apply IH. exact H.
Qed.

Lemma utilization_below_one (link : Link) : RoutingEngine.utilization link < 1.
Proof.
  unfold RoutingEngine.utilization.
  destruct (Qle_bool 1 _) eqn:E; [reflexivity|].
  apply Qnot_le_lt. intro H. apply Qle_bool_iff in H. congruence.
Qed.

(** C6 (as amended). For every link of the snapshot the routing graph has an
    edge between its two switches; the edge carries the link inserted last
    between those switches (the link itself when no later link of the
    snapshot joins the same two switches) and the weight
    [(prop_delay + switch_delay + proc_delay) / (1 - u)] of that link, where
    [u] is [bw_used / bw_capacity] when the capacity is positive and the
    ratio is below 1, and 0.99 when the capacity is not positive or the ratio
    is 1 or more.  So [u < 1] and every weight is finite. *)
Theorem routing_edge_weight (links : list Link) (link : Link) :
  In link links ->
  let G := RoutingEngine._build_graph links in
  (exists e, nx.get_edge G (src link) (dst link) = Some e
             /\ In (nx.link_obj e) links
             /\ same_ends (nx.link_obj e) link
             /\ nx.weight e = RoutingEngine.final_cost (nx.link_obj e))
  /\ (forall pre post, links = pre ++ link :: post ->
        (forall l', In l' post -> ~ same_ends l' link) ->
        exists e, nx.get_edge G (src link) (dst link) = Some e
                  /\ nx.link_obj e = link
                  /\ nx.weight e = RoutingEngine.final_cost link)
  /\ RoutingEngine.final_cost link
     == (prop_delay link + switch_delay link + proc_delay link)
        / (1 - RoutingEngine.utilization link)
  /\ (0 < bw_capacity link -> bw_used link / bw_capacity link < 1 ->
      RoutingEngine.utilization link == bw_used link / bw_capacity link)
  /\ (bw_capacity link <= 0 \/ 1 <= bw_used link / bw_capacity link ->
      RoutingEngine.utilization link == 99 # 100)
  /\ 0 < 1 - RoutingEngine.utilization link.
Proof.
  intros Hin G.
  assert (HG : graph_of links G).
  { apply (build_graph_of links [] nx.Graph graph_of_nil). }
  destruct HG as (Hd & Hedges & Hlinks).
  split.
  { destruct (Hlinks link Hin) as (e0 & He0 & J0).
    unfold nx.get_edge. rewrite Hd.
    destruct (find (fun e => nx.joins false e (src link) (dst link)) (nx.edges G))
      as [e|] eqn:F.
    - apply find_some in F. destruct F as [He J].
      destruct (Hedges e He) as (A & B & C).
      exists e. repeat split; trivial.
      unfold same_ends.
      destruct (joins_ends _ _ _ _ J) as [[P Q']|[P Q']];
        destruct C as [[R T]|[R T]]; rewrite <- R, <- T, P, Q'; auto.
    - rewrite (find_none _ _ F e0 He0) in J0. discriminate. }
  split.
  { intros pre post E Hpost. unfold G, RoutingEngine._build_graph.
    rewrite E, fold_left_app. simpl.
    pose proof (build_undirected pre nx.Graph eq_refl) as Hpre.
    rewrite later_links_keep_edge;
      [| apply (build_undirected [link]); exact Hpre | exact Hpost].
    destruct (get_edge_build_step _ link Hpre) as (e' & F & W & L).
    exists e'. split; [exact F | split; [exact L | exact W]]. }
  split; [reflexivity|].
  split.
  { intros Hcap Hratio. unfold RoutingEngine.utilization.
    replace (Qgt_bool (bw_capacity link) 0) with true
      by (symmetry; apply Qgt_bool_true; exact Hcap).
    destruct (Qle_bool 1 _) eqn:E; [|reflexivity].
    apply Qle_bool_iff in E. exfalso. apply (Qlt_not_le _ _ Hratio E). }
  split.
  { intro H. unfold RoutingEngine.utilization.
    destruct (Qgt_bool (bw_capacity link) 0) eqn:C.
    - apply Qgt_bool_true in C. destruct H as [H|H].
      + exfalso. apply (Qlt_not_le _ _ C H).
      + apply Qle_bool_iff in H. rewrite H. reflexivity.
    - destruct (Qle_bool 1 (99 # 100)); reflexivity. }
  pose proof (utilization_below_one link). lra.
Qed.

(** On the diamond the edge between 1 and 2 weighs 5 ms (no load). *)
Lemma routing_edge_weight_on_diamond :
  exists e, nx.get_edge (RoutingEngine._build_graph diamond) "1" "2" = Some e
            /\ nx.weight e = RoutingEngine.final_cost (nx.link_obj e).
Proof.
  destruct (proj1 (routing_edge_weight diamond (link5 "1" "2" 1)
                     (or_introl eq_refl))) as (e & H & _ & _ & W).
  exists e. split; [exact H | exact W].
Defined.

(** A link used at 199 of 200 Mbps: the code divides by [1 - 0.995], the
    specification's cap at 0.99 would divide by [1 - 0.99]. *)
Lemma busy_link_weight_is_not_capped :
  RoutingEngine.final_cost busy_link == 1000
  /\ claimed_weight busy_link == 500
  /\ ~ RoutingEngine.final_cost busy_link == claimed_weight busy_link.
Proof.
  repeat split; try reflexivity.
  intro E. vm_compute in E. discriminate.
Qed.

(** ** Termination of the Holistic iteration *)

Lemma interference_total (w : Q) (fs : list RTAttributes) (acc : Q) :
  (forall g, In g fs -> 0 < ti g) ->
  exists i, HolisticApproach.interference w fs acc = Some i
            /\ i == acc + total_interference w fs.
Proof.
  unfold total_interference.
  revert acc. induction fs as [|g rest IH]; intros acc Hti; simpl.
  - exists acc. split; trivial. unfold py_sum. simpl. lra.
  - assert (Hg : ~ ti g == 0).
    { pose proof (Hti g (or_introl eq_refl)). lra. }
    rewrite (py_div_nonzero _ _ Hg).
    destruct (IH (acc + py_ceil ((w + measured_jitter g) / ti g) * ci g))
      as (i & E & Hi).
    { intros x Hx. apply Hti. right. exact Hx. }
    exists i. split; [exact E|]. rewrite Hi, py_sum_cons. lra.
Qed.

Lemma py_ceil_mono (x y : Q) : x <= y -> py_ceil x <= py_ceil y.
Proof.
  intro H. unfold py_ceil. rewrite <- Zle_Qle. apply Qceiling_resp_le, H.
Qed.

Lemma py_ceil_nonneg (x : Q) : 0 <= x -> 0 <= py_ceil x.
Proof.
  intro H. eapply Qle_trans; [exact H | apply Qle_ceiling].
Qed.

Lemma div_mono (x y t : Q) : 0 < t -> x <= y -> x / t <= y / t.
Proof.
  intros Ht H. unfold Qdiv. apply Qmult_le_compat_r; [exact H|].
  apply Qlt_le_weak, Qinv_lt_0_compat, Ht.
Qed.

Lemma div_nonneg (x t : Q) : 0 < t -> 0 <= x -> 0 <= x / t.
Proof.
  intros Ht H. unfold Qdiv. apply Qmult_le_0_compat; [exact H|].
  apply Qlt_le_weak, Qinv_lt_0_compat, Ht.
Qed.

Lemma total_interference_mono (fs : list RTAttributes) (w w' : Q) :
  (forall g, In g fs -> 0 < ti g /\ 0 <= ci g) ->
  w <= w' -> total_interference w fs <= total_interference w' fs.
Proof.
  intros H Hw. unfold total_interference.
  induction fs as [|g rest IH]; simpl.
  - apply Qle_refl.
  - rewrite !py_sum_cons. destruct (H g (or_introl eq_refl)) as [Ht Hc].
    apply Qplus_le_compat.
    + apply Qmult_le_compat_r; [|exact Hc].
      apply py_ceil_mono, div_mono; [exact Ht | lra].
    + apply IH. intros x Hx. apply H. right. exact Hx.
Qed.

Lemma total_interference_nonneg (fs : list RTAttributes) (w : Q) :
  (forall g, In g fs -> 0 < ti g /\ 0 <= ci g) ->
  (forall g, In g fs -> 0 <= measured_jitter g) ->
  0 <= w -> 0 <= total_interference w fs.
Proof.
  intros H Hj Hw. unfold total_interference.
  induction fs as [|g rest IH]; simpl.
  - apply Qle_refl.
  - rewrite py_sum_cons. destruct (H g (or_introl eq_refl)) as [Ht Hc].
    pose proof (Hj g (or_introl eq_refl)) as Hg.
    assert (0 <= py_ceil ((w + measured_jitter g) / ti g) * ci g).
    { apply Qmult_le_0_compat; [|exact Hc].
      apply py_ceil_nonneg, div_nonneg; [exact Ht | lra]. }
    assert (0 <= py_sum (map (fun f_j =>
              py_ceil ((w + measured_jitter f_j) / ti f_j) * ci f_j) rest)).
    { apply IH; intros x Hx; [apply H | apply Hj]; right; exact Hx. }
    lra.
Qed.

Lemma iterate_S (gtd : Link -> Q -> Q) (n : nat) (flow : RTAttributes)
    (iset : list RTAttributes) (w prev_w : Q) :
  HolisticApproach.iterate gtd (S n) flow iset w prev_w
  = if Qgt_bool (Qabs (w - prev_w)) (1 # 1000) then
      if Qgt_bool w (di flow) then HolisticApproach.Returned w
      else match HolisticApproach.interference w iset 0 with
           | None => HolisticApproach.ZeroDivision
           | Some i =>
               HolisticApproach.iterate gtd n flow iset
                 (HolisticApproach.static_delay gtd flow + ci flow + i
                  + HolisticApproach.path_jitter_sum flow) w
           end
    else HolisticApproach.Returned w.
Proof. reflexivity. Qed.

Lemma iterate_more_fuel (gtd : Link -> Q -> Q) (flow : RTAttributes)
    (iset : list RTAttributes) (n k : nat) (w prev_w r : Q) :
  HolisticApproach.iterate gtd n flow iset w prev_w = HolisticApproach.Returned r ->
  HolisticApproach.iterate gtd (n + k) flow iset w prev_w = HolisticApproach.Returned r.
Proof.
  revert w prev_w. induction n as [|n IH]; intros w prev_w; [discriminate|].
  change (S n + k)%nat with (S (n + k)). rewrite !iterate_S.
  destruct (Qgt_bool (Qabs (w - prev_w)) (1 # 1000)); trivial.
  destruct (Qgt_bool w (di flow)); trivial.
  destruct (HolisticApproach.interference w iset 0); trivial.
  apply IH.
Qed.

Section Convergence.
Variables (gtd : Link -> Q -> Q) (flow : RTAttributes) (iset : list RTAttributes).
Hypothesis periods : forall g, In g iset -> 0 < ti g /\ 0 <= ci g.

(** Between two tests the bound grows by more than the threshold and stays
    within the deadline, so [n] rounds suffice when the previous value is
    within [n] thresholds of the deadline. *)
Lemma iterate_terminates (n : nat) (w prev_w : Q) :
  prev_w <= w -> w <= next_value gtd flow iset w ->
  (di flow - prev_w) * 1000 < inject_Z (Z.of_nat n) ->
  exists r p,
    HolisticApproach.iterate gtd (S n) flow iset w prev_w = HolisticApproach.Returned r
    /\ rounds gtd flow iset (w, prev_w) (r, p)
    /\ (Qabs (r - p) <= 1 # 1000 \/ di flow < r).
Proof.
  revert w prev_w. induction n as [|n IH]; intros w prev_w Hprev Hnext Hn;
    rewrite iterate_S.
  - destruct (Qgt_bool (Qabs (w - prev_w)) (1 # 1000)) eqn:E1.
    + destruct (Qgt_bool w (di flow)) eqn:E2.
      * apply Qgt_bool_true in E2. exists w, prev_w.
        split; [reflexivity|]. split; [constructor | right; exact E2].
      * apply Qgt_bool_false in E2. exfalso.
        change (inject_Z (Z.of_nat 0)) with 0 in Hn. lra.
    + apply Qgt_bool_false in E1. exists w, prev_w.
      split; [reflexivity|]. split; [constructor | left; exact E1].
  -     destruct (Qgt_bool (Qabs (w - prev_w)) (1 # 1000)) eqn:E1.
    + destruct (Qgt_bool w (di flow)) eqn:E2.
      * apply Qgt_bool_true in E2. exists w, prev_w.
        split; [reflexivity|]. split; [constructor | right; exact E2].
      * apply Qgt_bool_false in E2. apply Qgt_bool_true in E1.
        destruct (interference_total w iset 0) as (i & Ei & Hi).
        { intros g Hg. apply periods, Hg. }
        rewrite Ei.
        assert (Hw' : HolisticApproach.static_delay gtd flow + ci flow + i
                      + HolisticApproach.path_jitter_sum flow == next_value gtd flow iset w).
        { unfold next_value. rewrite Hi. lra. }
        assert (Hgap : 1 # 1000 < w - prev_w).
        { rewrite Qabs_pos in E1; [exact E1 | lra]. }
        destruct (IH (HolisticApproach.static_delay gtd flow + ci flow + i
                      + HolisticApproach.path_jitter_sum flow) w)
          as (r & p & Er & Hr & Hstop).
        -- lra.
        -- pose proof (total_interference_mono iset w (next_value gtd flow iset w) periods Hnext) as Hm.
           assert (Hm' : total_interference (next_value gtd flow iset w) iset
                         <= total_interference
                              (HolisticApproach.static_delay gtd flow + ci flow + i
                               + HolisticApproach.path_jitter_sum flow) iset).
           { apply total_interference_mono; [exact periods | lra]. }
           unfold next_value in *. lra.
        -- rewrite Nat2Z.inj_succ in Hn. unfold Z.succ in Hn.
           rewrite inject_Z_plus in Hn. change (inject_Z 1) with 1 in Hn. lra.
        -- exists r, p. split; [exact Er|]. split; [|exact Hstop].
           eapply rounds_more; eauto.
    + apply Qgt_bool_false in E1. exists w, prev_w.
      split; [reflexivity|]. split; [constructor | left; exact E1].
Qed.
End Convergence.

(** C9 (as amended). For a flow whose interferers have [ti > 0] and
    [ci >= 0] and a non-negative measured jitter, and whose own starting value
    [static_delay + ci] and path jitter are non-negative, the Holistic
    iteration returns after finitely many rounds, and more fuel gives the
    same value: it returns the last computed [w], either because the last two
    values differ by at most 0.001 ms or because [w] exceeds the deadline (in
    which case [w > di] and the caller has to compare). *)
Theorem holistic_iteration_terminates
    (get_transmission_delay : Link -> Q -> Q)
    (same_flow : RTAttributes -> RTAttributes -> bool)
    (flow : RTAttributes) (all_flows : list RTAttributes) :
  let iset := HolisticApproach.interfering_set same_flow flow all_flows in
  let w0 := HolisticApproach.static_delay get_transmission_delay flow + ci flow in
  (forall g, In g iset -> 0 < ti g /\ 0 <= ci g) ->
  (forall g, In g iset -> 0 <= measured_jitter g) ->
  0 <= w0 ->
  0 <= HolisticApproach.path_jitter_sum flow ->
  exists fuel r p,
    (forall k, HolisticApproach.calculate_wcrt get_transmission_delay same_flow
                 (fuel + k) flow all_flows = HolisticApproach.Returned r)
    /\ rounds get_transmission_delay flow iset (w0, 0) (r, p)
    /\ (Qabs (r - p) <= 1 # 1000 \/ di flow < r).
Proof.
  intros iset w0 periods jitters Hw0 Hj.
  set (n := S (Z.to_nat (Qceiling (di flow * 1000)))).
  destruct (iterate_terminates get_transmission_delay flow iset periods n w0 0)
    as (r & p & Er & Hr & Hstop).
  - exact Hw0.
  - pose proof (total_interference_nonneg iset w0 periods jitters Hw0).
    unfold next_value, w0 in *. lra.
  - pose proof (Qle_ceiling (di flow * 1000)) as Hc.
    assert (Hlt : (Qceiling (di flow * 1000) < Z.of_nat n)%Z) by (unfold n; lia).
    rewrite Zlt_Qlt in Hlt. lra.
  - exists (S n), r, p. split; [|split; assumption].
    intro k. unfold HolisticApproach.calculate_wcrt.
    apply iterate_more_fuel. exact Er.
Qed.

(** Flow B of scenario S2 under the interference of C. *)
Lemma holistic_iteration_terminates_on_S2 :
  exists fuel r,
    HolisticApproach.calculate_wcrt no_transmission_delay same_topic fuel
      flow_B [flow_B; flow_C] = HolisticApproach.Returned r.
Proof.
  destruct (holistic_iteration_terminates no_transmission_delay same_topic
              flow_B [flow_B; flow_C]) as (fuel & r & p & H & _).
  - intros g Hg. vm_compute in Hg. destruct Hg as [<-|[]]. split; q_decide.
  - intros g Hg. vm_compute in Hg. destruct Hg as [<-|[]]. q_decide.
  - q_decide.
  - q_decide.
  - exists (fuel + 0)%nat, r. apply H.
Defined.

(** The rounds of [slow_flow] under [greedy_flow]: from an integer value [z]
    the next value is [2 z - 19]. *)
Lemma greedy_round (n : nat) :
  forall (z p : Z) (w prev_w : Q),
    (z <= 1)%Z -> z <> p -> w == inject_Z z -> prev_w == inject_Z p ->
    HolisticApproach.iterate no_transmission_delay n slow_flow [greedy_flow] w prev_w
    = HolisticApproach.OutOfFuel.
Proof.
  induction n as [|n IH]; intros z p w prev_w Hz Hzp Hw Hp; [reflexivity|].
  rewrite iterate_S.
  assert (Hgap : inject_Z z + 1 <= inject_Z p \/ inject_Z p + 1 <= inject_Z z).
  { destruct (Z_lt_le_dec z p) as [L|L].
    - left. assert (L' : (z + 1 <= p)%Z) by lia.
      rewrite Zle_Qle, inject_Z_plus in L'. exact L'.
    - right. assert (L' : (p + 1 <= z)%Z) by lia.
      rewrite Zle_Qle, inject_Z_plus in L'. exact L'. }
  assert (Hz1 : inject_Z z <= 1) by (rewrite Zle_Qle in Hz; exact Hz).
  replace (Qgt_bool (Qabs (w - prev_w)) (1 # 1000)) with true.
  2:{ symmetry. apply Qgt_bool_true. apply Qabs_case; intros; destruct Hgap; lra. }
  replace (Qgt_bool w (di slow_flow)) with false.
  2:{ symmetry. apply Qgt_bool_false. change (di slow_flow) with 100. lra. }
  change (HolisticApproach.interference w [greedy_flow] 0)
    with (Some (0 + py_ceil ((w + - (10)) / 1) * 2)).
  assert (Hceil : py_ceil ((w + - (10)) / 1) == inject_Z z - 10).
  { unfold py_ceil.
    rewrite (Qceiling_comp ((w + - (10)) / 1) (inject_Z (z - 10))).
    - rewrite Qceiling_Z. unfold Z.sub. rewrite inject_Z_plus. reflexivity.
    - unfold Z.sub. rewrite inject_Z_plus. change (inject_Z (- (10))) with (- (10)).
      rewrite Hw. field. }
  assert (HS : HolisticApproach.static_delay no_transmission_delay slow_flow == 0)
    by reflexivity.
  assert (HJ : HolisticApproach.path_jitter_sum slow_flow == 0) by reflexivity.
  change (ci slow_flow) with 1.
  apply (IH (2 * z - 19)%Z z); trivial; try lia.
  unfold Z.sub. rewrite inject_Z_plus, inject_Z_mult.
  change (inject_Z 2) with 2. change (inject_Z (- (19))) with (- (19)).
  rewrite HS, HJ, Hceil. lra.
Qed.

(** [slow_flow] under [greedy_flow], whose period is positive and whose
    transmission time is not negative: 1, -17, -53, -125, ... never comes
    within 0.001 of its predecessor and never exceeds the deadline. *)
Lemma holistic_iteration_diverges :
  (forall g, In g (HolisticApproach.interfering_set same_topic slow_flow
                     [slow_flow; greedy_flow]) ->
             0 < ti g /\ 0 <= ci g)
  /\ (forall fuel,
        HolisticApproach.calculate_wcrt no_transmission_delay same_topic fuel
          slow_flow [slow_flow; greedy_flow] = HolisticApproach.OutOfFuel).
Proof.
  split.
  - intros g Hg. vm_compute in Hg. destruct Hg as [<-|[]]. split; q_decide.
  - intro fuel. unfold HolisticApproach.calculate_wcrt.
    change (HolisticApproach.interfering_set same_topic slow_flow
              [slow_flow; greedy_flow]) with [greedy_flow].
    apply (greedy_round fuel 1 0); try lia; reflexivity.
Qed.

(** ** Flow registration and subscriber join *)

Lemma dict_get_set {V : Type} (k : string) (v : V) (m : list (string * V)) :
  of_db.dict_get String.eqb k (of_db.dict_set String.eqb k v m) = Some v.
Proof.
  induction m as [|[k' v'] rest IH]; simpl.
  - rewrite String.eqb_refl. reflexivity.
  - destruct (k' =? k)%string eqn:E; simpl.
    + rewrite String.eqb_refl. reflexivity.
    + rewrite E. exact IH.
Qed.

Lemma get_flow_store (topic : string) (f : RTAttributes) (a : RyuMRTApp.app) :
  of_db.get_flow topic (RyuMRTApp.db (RyuMRTApp.store topic f a)) = Some f.
Proof.
  unfold RyuMRTApp.store, of_db.get_flow, of_db.add_flow. simpl.
  apply dict_get_set.
Qed.

Lemma install_keeps_registry (py_hash : string -> Z) (py_int : string -> option Z)
    (py_float : string -> option Q)
    (a : RyuMRTApp.app) (f : RTAttributes) (path_links : list Link) :
  let left := snd (RyuMRTApp._install_multicast_tree py_hash py_int py_float a f
                     path_links) in
  RyuMRTApp.db (snd left) = RyuMRTApp.db a
  /\ RyuMRTApp.datapaths (snd left) = RyuMRTApp.datapaths a
  /\ dst_ips (fst left) = dst_ips f /\ route_links (fst left) = route_links f
  /\ src_ip (fst left) = src_ip f /\ num_hops (fst left) = num_hops f.
Proof.
  unfold RyuMRTApp._install_multicast_tree.
  destruct (RyuMRTApp.build_fwd_map py_int path_links []); [|simpl; auto 6].
  destruct (RyuMRTApp.program _ _ _ _ _ _) as [r calls]. simpl. auto 6.
Qed.

Lemma after_install_state {A : Type} (topic : string) (value : A)
    (installed : RyuMRTApp.result unit * (RTAttributes * RyuMRTApp.app)) :
  snd (RyuMRTApp.after_install topic value installed)
  = RyuMRTApp.store topic (fst (snd installed)) (snd (snd installed)).
Proof.
  destruct installed as [r [f a]]. reflexivity.
Qed.

Lemma after_install_done {A : Type} (topic : string) (value : A)
    (installed : RyuMRTApp.result unit * (RTAttributes * RyuMRTApp.app)) :
  fst (RyuMRTApp.after_install topic value installed) = RyuMRTApp.Done value ->
  fst installed = RyuMRTApp.Done tt.
Proof.
  destruct installed as [[[]|] [f a]]; simpl; [reflexivity | discriminate].
Qed.

(** A rejected registration leaves the descriptor in the registry. *)
Lemma rejection_keeps_flow (py_hash : string -> Z) (py_int : string -> option Z)
    (py_float : string -> option Q)
    (steiner_tree : nx.graph -> list string -> option (list (string * string)))
    (a : RyuMRTApp.app) (topic : string) (d : RTAttributes) (source : string)
    (broker_ip : option string) :
  fst (RyuMRTApp.register_rt_flow py_hash py_int py_float steiner_tree a topic d
         source broker_ip) = RyuMRTApp.Done false ->
  of_db.get_flow topic
    (RyuMRTApp.db (snd (RyuMRTApp.register_rt_flow py_hash py_int py_float
                          steiner_tree a topic d source broker_ip)))
  = Some (RyuMRTApp.prepare d source broker_ip).
Proof.
  unfold RyuMRTApp.register_rt_flow.
  destruct (negb (AdmissionControl.check_admissibility _ _)).
  - intros _. simpl. apply get_flow_store.
  - intro H. exfalso.
    destruct (qi _ =? 0)%Z;
      match type of H with
      | fst (RyuMRTApp.after_install ?t ?v ?i) = _ =>
          destruct (after_install_outcome t v i) as [E|E];
          rewrite E in H; discriminate
      end.
Qed.

(** C2. A descriptor with [qi = 1], a broker residency of 5 ms and a
    deadline of 1 ms is rejected by admission control; the topic was unknown
    to the registry before the call and is registered after it. *)
Theorem rejected_flow_stays_registered :
  let r := RyuMRTApp.register_rt_flow hash_zero int_decimal float_decimal
             steiner_raises diamond_app "late" descriptor_late "1" None in
  fst r = RyuMRTApp.Done false
  /\ of_db.get_flow "late" (RyuMRTApp.db diamond_app) = None
  /\ of_db.get_flow "late" (RyuMRTApp.db (snd r))
     = Some (RyuMRTApp.prepare descriptor_late "1" None).
Proof.
  repeat split; reflexivity.
Qed.

Lemma get_flow_add_subscriber (topic topic' sub_ip : string) (db : of_db.t) :
  of_db.get_flow topic' (of_db.add_subscriber topic sub_ip db)
  = of_db.get_flow topic' db.
Proof. reflexivity. Qed.

Lemma add_once_In (x : string) (xs : list string) : In x (of_db.add_once x xs).
Proof.
  unfold of_db.add_once. destruct (mem x xs) eqn:E.
  - unfold mem in E. apply existsb_exists in E. destruct E as (y & Hy & E).
    apply String.eqb_eq in E. subst. exact Hy.
  - apply in_or_app. right. left. reflexivity.
Qed.

(** The registry behind the state an installation leaves is the registry it
    started from. *)
Ltac links_kept :=
  match goal with
  | |- context [RyuMRTApp._install_multicast_tree ?h ?i ?fl ?x ?f ?ls] =>
      let Hdb := fresh "Hdb" in
      destruct (install_keeps_registry h i fl x f ls) as (Hdb & _);
      set (inst := RyuMRTApp._install_multicast_tree h i fl x f ls) in *;
      unfold RyuMRTApp.store at 1;
      cbn [RyuMRTApp.db RyuMRTApp.with_db of_db.add_flow of_db.links];
      rewrite Hdb; reflexivity
  end.

(** C4 (as amended). Neither a registration nor a subscriber join changes
    the link table of the registry: every link keeps the [bw_used] it had. *)
Theorem registration_leaves_links_unchanged
    (py_hash : string -> Z) (py_int : string -> option Z)
    (py_float : string -> option Q)
    (steiner_tree : nx.graph -> list string -> option (list (string * string)))
    (a : RyuMRTApp.app) (topic : string) (d : RTAttributes) (source : string)
    (broker_ip : option string) (sub_ip : string) :
  of_db.links (RyuMRTApp.db (snd (RyuMRTApp.register_rt_flow py_hash py_int py_float
                                    steiner_tree a topic d source broker_ip)))
  = of_db.links (RyuMRTApp.db a)
  /\ of_db.links (RyuMRTApp.db (snd (RyuMRTApp.handle_new_subscriber py_hash py_int
                                       py_float steiner_tree a topic sub_ip)))
     = of_db.links (RyuMRTApp.db a).
Proof.
  split.
  - unfold RyuMRTApp.register_rt_flow.
    destruct (negb (AdmissionControl.check_admissibility _ _)); [reflexivity|].
    destruct (qi _ =? 0)%Z; rewrite after_install_state; links_kept.
  - unfold RyuMRTApp.handle_new_subscriber.
    destruct (of_db.get_flow topic _); [|reflexivity].
    rewrite after_install_state. links_kept.
Qed.

(** Registering C (1 Mbps, switch 1 to switch 4) on the unloaded diamond
    succeeds and routes it over 1-2-4; the accounting equation held before
    and fails after, the link 1-2 still showing no bandwidth in use. *)
Lemma registration_does_not_account_bandwidth :
  fst (RyuMRTApp.register_rt_flow hash_zero int_decimal float_decimal steiner_raises
         diamond_app "C" descriptor_C "1" None) = RyuMRTApp.Done true
  /\ bw_accounted (RyuMRTApp.db diamond_app)
  /\ ~ bw_accounted
         (RyuMRTApp.db (snd (RyuMRTApp.register_rt_flow hash_zero int_decimal
                               float_decimal steiner_raises diamond_app "C"
                               descriptor_C "1" None))).
Proof.
  split; [reflexivity|]. split.
  - intros k l Hin. simpl in Hin.
    destruct Hin as [E|[E|[E|[E|[]]]]]; inversion E; subst; reflexivity.
  - intro H.
    specialize (H ("1", "2", 1%Z) (link5 "1" "2" 1) (or_introl eq_refl)).
    vm_compute in H. discriminate.
Qed.

(** ** Further properties of the Trajectory bound *)

Lemma interferers_of_relevant (link : Link) (f : RTAttributes)
    (F : list RTAttributes) :
  SchedulabilityUtils.get_interfering_flows_on_link link f
    (filter (fun g => negb (ft_i g =? ft_i f)%string && (pi f <=? pi g)%Z) F)
  = SchedulabilityUtils.get_interfering_flows_on_link link f F.
Proof.
  unfold SchedulabilityUtils.get_interfering_flows_on_link.
  induction F as [|g rest IH]; simpl; trivial.
  destruct (negb (ft_i g =? ft_i f)%string) eqn:E1; simpl.
  - destruct (pi f <=? pi g)%Z eqn:E2; simpl.
    + rewrite E1, E2. simpl. rewrite IH. reflexivity.
    + rewrite andb_false_r. exact IH.
  - exact IH.
Qed.

(** X1. The Trajectory bound of [f] depends only on the flows of another
    topic whose priority is at least that of [f]: taking every other flow out
    of the set leaves the bound as it is. *)
Theorem trajectory_wcrt_ignores_lower_priority (f : RTAttributes)
    (F : list RTAttributes) :
  TrajectoryApproach.calculate_wcrt f
    (filter (fun g => negb (ft_i g =? ft_i f)%string && (pi f <=? pi g)%Z) F)
  = TrajectoryApproach.calculate_wcrt f F.
Proof.
  apply calculate_wcrt_ext. intro link. apply interferers_of_relevant.
Qed.

Lemma branch_step_ge (f : RTAttributes) (F : list RTAttributes) (G : nx.graph)
    (s : string) (acc : Q) (t : string) :
  acc <= TrajectoryApproach.branch_step f F G s acc t.
Proof.
  unfold TrajectoryApproach.branch_step.
  destruct (nx.shortest_path G s t); [|apply Qle_refl].
  destruct (TrajectoryApproach._compute_path_wcrt f F _) as [val|]; [|apply Qle_refl].
  destruct (Qgt_bool val acc) eqn:E; [|apply Qle_refl].
  apply Qgt_bool_true in E. apply Qlt_le_weak, E.
Qed.

Lemma branches_ge (f : RTAttributes) (F : list RTAttributes) (G : nx.graph)
    (s : string) (targets : list string) (acc : Q) :
  acc <= fold_left (TrajectoryApproach.branch_step f F G s) targets acc.
Proof.
  revert acc. induction targets as [|t rest IH]; intro acc; simpl.
  - apply Qle_refl.
  - eapply Qle_trans; [apply (branch_step_ge f F G s acc t) | apply IH].
Qed.

(** X2. Whatever the flow and the set, the largest branch is taken from 0
    upwards, so it is never negative, and the Trajectory bound is never below
    the broker term: at least [processing_delay] for a flow with [qi > 0] and
    at least 0 for any other flow. *)
Theorem trajectory_wcrt_at_least_broker_term (f : RTAttributes)
    (F : list RTAttributes) :
  0 <= TrajectoryApproach._get_max_branch_wcrt f F (src_ip f) (dst_ips f)
         (route_links f)
  /\ (if (0 <? qi f)%Z then processing_delay f else 0)
     <= TrajectoryApproach.calculate_wcrt f F.
Proof.
  assert (H : 0 <= TrajectoryApproach._get_max_branch_wcrt f F (src_ip f)
                     (dst_ips f) (route_links f)).
  { unfold TrajectoryApproach._get_max_branch_wcrt.
    destruct (dst_ips f); [apply Qle_refl|].
    destruct (route_links f); [apply Qle_refl|]. apply branches_ge. }
  split; [exact H|].
  unfold TrajectoryApproach.calculate_wcrt.
  destruct (0 <? qi f)%Z; lra.
Qed.

Lemma py_sum_app (xs ys : list Q) : py_sum (xs ++ ys) == py_sum xs + py_sum ys.
Proof.
  induction xs as [|x rest IH]; simpl.
  - unfold py_sum at 2. simpl. lra.
  - rewrite !py_sum_cons, IH. lra.
Qed.

Lemma py_sum_nonneg (xs : list Q) : (forall x, In x xs -> 0 <= x) -> 0 <= py_sum xs.
Proof.
  induction xs as [|x rest IH]; intro H.
  - apply Qle_refl.
  - rewrite py_sum_cons.
    pose proof (H x (or_introl eq_refl)).
    assert (0 <= py_sum rest) by (apply IH; intros y Hy; apply H; right; exact Hy).
    lra.
Qed.

Lemma py_sum_map_le {A : Type} (g1 g2 : A -> Q) (xs : list A) :
  (forall x, In x xs -> g1 x <= g2 x) -> py_sum (map g1 xs) <= py_sum (map g2 xs).
Proof.
  induction xs as [|x rest IH]; intro H; simpl.
  - apply Qle_refl.
  - rewrite !py_sum_cons.
    pose proof (H x (or_introl eq_refl)).
    assert (py_sum (map g1 rest) <= py_sum (map g2 rest))
      by (apply IH; intros y Hy; apply H; right; exact Hy).
    lra.
Qed.

Lemma max_of_map_le {A : Type} (g1 g2 : A -> Q) (xs : list A) :
  (forall x, In x xs -> g1 x <= g2 x) ->
  Formula.max_of (map g1 xs) <= Formula.max_of (map g2 xs).
Proof.
  induction xs as [|x rest IH]; intro H; simpl.
  - apply Qle_refl.
  - apply Q.max_le_compat.
    + apply H. left. reflexivity.
    + apply IH. intros y Hy. apply H. right. exact Hy.
Qed.

Lemma interference_on_grows (f : RTAttributes) (F extra : list RTAttributes)
    (l : Link) :
  (forall g, In g extra -> 0 < ti g /\ 0 <= ci g) -> 0 <= di f ->
  Formula.interference_on f F l <= Formula.interference_on f (F ++ extra) l.
Proof.
  intros Hextra Hdi. unfold Formula.interference_on,
    SchedulabilityUtils.get_interfering_flows_on_link.
  rewrite filter_app, map_app, py_sum_app.
  match goal with |- ?a <= ?a + ?b => assert (0 <= b); [|lra] end.
  apply py_sum_nonneg. intros x Hx. apply in_map_iff in Hx.
  destruct Hx as (g & <- & Hg). apply filter_In in Hg.
  destruct (Hextra g (proj1 Hg)) as [Ht Hc].
  apply Qmult_le_0_compat; [|exact Hc].
  apply py_ceil_nonneg, div_nonneg; assumption.
Qed.

(** X3. Adding flows to the set never lowers a Trajectory bound: for a flow
    with a non-negative deadline, and flows whose periods are positive and
    whose transmission times are not negative, the bound against [F] is at
    most the bound against [F] extended by [extra]. *)
Theorem trajectory_wcrt_grows_with_the_set (f : RTAttributes)
    (F extra : list RTAttributes) :
  (forall g, In g (F ++ extra) -> 0 < ti g /\ 0 <= ci g) ->
  0 <= di f ->
  TrajectoryApproach.calculate_wcrt f F
  <= TrajectoryApproach.calculate_wcrt f (F ++ extra).
Proof.
  intros Hall Hdi.
  rewrite (calculate_wcrt_guarded f F), (calculate_wcrt_guarded f (F ++ extra)).
  - unfold Formula.guarded_wcrt.
    assert (Formula.max_of (map (Formula.guarded_bound f F) (Formula.branch_paths f))
            <= Formula.max_of (map (Formula.guarded_bound f (F ++ extra))
                                   (Formula.branch_paths f))); [|lra].
    apply max_of_map_le. intros path _. unfold Formula.guarded_bound.
    destruct path as [|l rest]; [apply Qle_refl|].
    unfold Formula.branch_bound.
    assert (py_sum (map (Formula.interference_on f F) (l :: rest))
            <= py_sum (map (Formula.interference_on f (F ++ extra)) (l :: rest)));
      [|lra].
    apply py_sum_map_le. intros l' _. apply interference_on_grows; trivial.
    intros g Hg. apply Hall. apply in_or_app. right. exact Hg.
  - intros g Hg. destruct (Hall g Hg). lra.
  - intros g Hg. destruct (Hall g (in_or_app _ _ _ (or_introl Hg))). lra.
Qed.

(** Flow B of scenario S2 alone, and with C added. *)
Lemma trajectory_wcrt_grows_on_S2 :
  0 <= di flow_B
  /\ TrajectoryApproach.calculate_wcrt flow_B [flow_B]
     <= TrajectoryApproach.calculate_wcrt flow_B ([flow_B] ++ [flow_C]).
Proof.
  split; [q_decide|].
  apply (trajectory_wcrt_grows_with_the_set flow_B [flow_B] [flow_C]).
  - intros g [<-|[<-|[]]]; split; q_decide.
  - q_decide.
Defined.

(** X4. A candidate that has no route yet is admitted exactly when its broker
    term ([processing_delay] if [qi > 0], else 0) is within its deadline and
    every existing flow meets its deadline against the existing flows alone:
    its own [ci] and the links it will use play no part in the verdict. *)
Theorem admission_of_routeless_candidate (candidate : RTAttributes)
    (existing_flows : list RTAttributes) :
  route_links candidate = [] ->
  (AdmissionControl.check_admissibility candidate existing_flows = true <->
   (if (0 <? qi candidate)%Z then processing_delay candidate else 0)
   <= di candidate
   /\ forall g, In g existing_flows ->
                TrajectoryApproach.calculate_wcrt g existing_flows <= di g).
Proof.
  intro Hnil. rewrite admitted_iff, Forall_forall.
  rewrite (calculate_wcrt_routeless candidate _ Hnil).
  assert (E : forall g,
    TrajectoryApproach.calculate_wcrt g (existing_flows ++ [candidate])
    = TrajectoryApproach.calculate_wcrt g existing_flows).
  { intro g. apply calculate_wcrt_ext. intro link.
    rewrite (interferers_drop_routeless link g candidate existing_flows [] Hnil).
    rewrite app_nil_r. reflexivity. }
  split; intros [H1 H2]; (split; [exact H1|]); intros g Hg.
  - rewrite <- E. apply H2, Hg.
  - rewrite E. apply H2, Hg.
Qed.

(** Descriptor C, without a route, next to flow B. *)
Lemma admission_of_routeless_C :
  route_links descriptor_C = []
  /\ AdmissionControl.check_admissibility descriptor_C [flow_B] = true.
Proof.
  split; [reflexivity|].
  apply (proj2 (admission_of_routeless_candidate descriptor_C [flow_B] eq_refl)).
  split; [q_decide|].
  intros g [<-|[]]. q_decide.
Defined.

(** ** Further properties of the Holistic iteration *)

Lemma set_update_nil (same_flow : RTAttributes -> RTAttributes -> bool)
    (s : list RTAttributes) :
  HolisticApproach.set_update same_flow s [] = s.
Proof. reflexivity. Qed.

Lemma interfering_set_alone (same_flow : RTAttributes -> RTAttributes -> bool)
    (flow : RTAttributes) :
  HolisticApproach.interfering_set same_flow flow [flow] = [].
Proof.
  unfold HolisticApproach.interfering_set.
  enough (H : forall s,
    fold_left (fun s link =>
                 HolisticApproach.set_update same_flow s
                   (SchedulabilityUtils.get_interfering_flows_on_link link flow [flow]))
              (route_links flow) s = s) by apply H.
  assert (E : forall link,
    SchedulabilityUtils.get_interfering_flows_on_link link flow [flow] = []).
  { intro link. unfold SchedulabilityUtils.get_interfering_flows_on_link. simpl.
    rewrite String.eqb_refl. reflexivity. }
  induction (route_links flow) as [|l rest IH]; intro s; [reflexivity|].
  cbn [fold_left]. rewrite E, set_update_nil. apply IH.
Qed.

Lemma Qabs_self (w : Q) : Qgt_bool (Qabs (w - w)) (1 # 1000) = false.
Proof.
  apply Qgt_bool_false. apply Qabs_case; intros; lra.
Qed.

Lemma iterate_S_nil (gtd : Link -> Q -> Q) (n : nat) (flow : RTAttributes)
    (w prev_w : Q) :
  HolisticApproach.iterate gtd (S n) flow [] w prev_w
  = if Qgt_bool (Qabs (w - prev_w)) (1 # 1000) then
      if Qgt_bool w (di flow) then HolisticApproach.Returned w
      else HolisticApproach.iterate gtd n flow []
             (HolisticApproach.static_delay gtd flow + ci flow + 0
              + HolisticApproach.path_jitter_sum flow) w
    else HolisticApproach.Returned w.
Proof. reflexivity. Qed.

(** X5. A flow analysed alone (the set holds only the flow itself) has no
    interferer, and the Holistic iteration returns within three rounds: the
    value is [static_delay + ci], or that value plus the path jitter, and
    more rounds give the same answer. *)
Theorem holistic_wcrt_of_a_flow_alone
    (get_transmission_delay : Link -> Q -> Q)
    (same_flow : RTAttributes -> RTAttributes -> bool)
    (flow : RTAttributes) :
  let w0 := HolisticApproach.static_delay get_transmission_delay flow + ci flow in
  exists r,
    (forall k, HolisticApproach.calculate_wcrt get_transmission_delay same_flow
                 (3 + k) flow [flow] = HolisticApproach.Returned r)
    /\ (r = w0 \/ r = w0 + 0 + HolisticApproach.path_jitter_sum flow).
Proof.
  intro w0.
  assert (H : exists r,
    HolisticApproach.iterate get_transmission_delay 3 flow [] w0 0
    = HolisticApproach.Returned r
    /\ (r = w0 \/ r = w0 + 0 + HolisticApproach.path_jitter_sum flow)).
  { rewrite iterate_S_nil.
    destruct (Qgt_bool (Qabs (w0 - 0)) (1 # 1000)); [|eexists; split; eauto].
    destruct (Qgt_bool w0 (di flow)); [eexists; split; eauto|].
    fold w0. rewrite iterate_S_nil.
    destruct (Qgt_bool (Qabs (w0 + 0 + HolisticApproach.path_jitter_sum flow - w0))
                       (1 # 1000)); [|eexists; split; eauto].
    destruct (Qgt_bool (w0 + 0 + HolisticApproach.path_jitter_sum flow) (di flow));
      [eexists; split; eauto|].
    fold w0. rewrite iterate_S_nil, Qabs_self. eexists; split; eauto. }
  destruct H as (r & Hr & Hval). exists r. split; [|exact Hval].
  intro k. unfold HolisticApproach.calculate_wcrt.
  rewrite interfering_set_alone. fold w0. apply iterate_more_fuel. exact Hr.
Qed.

Lemma iterate_returns (gtd : Link -> Q -> Q) (flow : RTAttributes)
    (iset : list RTAttributes) (fuel : nat) :
  forall w prev_w r,
    HolisticApproach.iterate gtd fuel flow iset w prev_w = HolisticApproach.Returned r ->
    exists p, rounds gtd flow iset (w, prev_w) (r, p)
              /\ (Qabs (r - p) <= 1 # 1000 \/ di flow < r).
Proof.
  induction fuel as [|n IH]; intros w prev_w r; [discriminate|].
  rewrite iterate_S.
  destruct (Qgt_bool (Qabs (w - prev_w)) (1 # 1000)) eqn:E1.
  - destruct (Qgt_bool w (di flow)) eqn:E2.
    + intro H; inversion H; subst. apply Qgt_bool_true in E2.
      exists prev_w. split; [constructor | right; exact E2].
    + destruct (HolisticApproach.interference w iset 0) as [i|] eqn:Ei;
        [|discriminate].
      intro H. destruct (IH _ _ _ H) as (p & Hr & Hstop).
      exists p. split; [|exact Hstop].
      apply Qgt_bool_true in E1. apply Qgt_bool_false in E2.
      eapply rounds_more; eauto.
  - intro H; inversion H; subst. apply Qgt_bool_false in E1.
    exists prev_w. split; [constructor | left; exact E1].
Qed.

(** X6. Whatever the inputs, a value returned by the Holistic iteration is
    the last value computed by the loop, reached from [static_delay + ci]
    through rounds that each found the value more than 0.001 ms from its
    predecessor and within the deadline; and either it is within 0.001 ms of
    its predecessor or it exceeds the deadline. *)
Theorem holistic_wcrt_when_returned
    (get_transmission_delay : Link -> Q -> Q)
    (same_flow : RTAttributes -> RTAttributes -> bool)
    (fuel : nat) (flow : RTAttributes) (all_flows : list RTAttributes) (r : Q) :
  HolisticApproach.calculate_wcrt get_transmission_delay same_flow fuel flow
    all_flows = HolisticApproach.Returned r ->
  exists p,
    rounds get_transmission_delay flow
      (HolisticApproach.interfering_set same_flow flow all_flows)
      (HolisticApproach.static_delay get_transmission_delay flow + ci flow, 0) (r, p)
    /\ (Qabs (r - p) <= 1 # 1000 \/ di flow < r).
Proof.
  unfold HolisticApproach.calculate_wcrt. apply iterate_returns.
Qed.

(** Flow B under the interference of C: the iteration returns 15.5 ms. *)
Lemma holistic_wcrt_returned_on_S2 :
  HolisticApproach.calculate_wcrt no_transmission_delay same_topic 6 flow_B
    [flow_B; flow_C] = HolisticApproach.Returned (31 # 2)
  /\ exists p, Qabs ((31 # 2) - p) <= 1 # 1000 \/ di flow_B < 31 # 2.
Proof.
  split; [reflexivity|].
  destruct (holistic_wcrt_when_returned no_transmission_delay same_topic 6 flow_B
              [flow_B; flow_C] (31 # 2) eq_refl) as (p & _ & H).
  exists p. exact H.
Defined.

(** ** Further properties of the routing graph *)

Lemma mem_In (x : string) (xs : list string) : mem x xs = true <-> In x xs.
Proof.
  unfold mem. rewrite existsb_exists. split.
  - intros (y & Hy & E). apply String.eqb_eq in E. subst. exact Hy.
  - intro H. exists x. split; [exact H | apply String.eqb_refl].
Qed.

Lemma add_node_In (ns : list string) (n x : string) :
  In x (nx.add_node ns n) <-> In x ns \/ x = n.
Proof.
  unfold nx.add_node. destruct (mem n ns) eqn:E.
  - apply mem_In in E. split; [auto | intros [H| ->]; assumption].
  - rewrite in_app_iff. simpl. split; intros [H|H]; auto.
    + destruct H as [H|[]]. auto.
Qed.

Lemma add_node_NoDup (ns : list string) (n : string) :
  NoDup ns -> NoDup (nx.add_node ns n).
Proof.
  intro H. unfold nx.add_node. destruct (mem n ns) eqn:E; trivial.
  apply NoDup_app; trivial.
  - constructor; [intros []|constructor].
  - intros x Hx [<-|[]]. apply mem_In in Hx. congruence.
Qed.

Lemma build_nodes (links : list Link) (G : nx.graph) :
  NoDup (nx.nodes G) ->
  NoDup (nx.nodes (fold_left RoutingEngine.build_step links G))
  /\ forall n, In n (nx.nodes (fold_left RoutingEngine.build_step links G)) <->
               In n (nx.nodes G) \/ exists l, In l links /\ (src l = n \/ dst l = n).
Proof.
  revert G. induction links as [|l rest IH]; intros G HG; simpl.
  - split; trivial. intro n. split; [auto|]. intros [H|(l & [] & _)]. exact H.
  - destruct (IH (RoutingEngine.build_step G l)) as [Hnd Hin].
    { apply add_node_NoDup, add_node_NoDup, HG. }
    split; trivial. intro n. rewrite Hin.
    unfold RoutingEngine.build_step, nx.add_edge. simpl. rewrite !add_node_In.
    split.
    + intros [[[H|H]|H]|(l' & Hl' & H)]; auto.
      * right. exists l. auto.
      * right. exists l. auto.
      * right. exists l'. auto.
    + intros [H|(l' & [<-|Hl'] & H)]; auto.
      * destruct H as [H|H]; auto.
      * right. exists l'. auto.
Qed.

(** X7. The nodes of the routing graph are exactly the switches that some
    link of the snapshot starts or ends at, each once; and every link, in
    whichever direction it was discovered, makes its two switches adjacent in
    both directions. *)
Theorem routing_graph_nodes_and_edges (links : list Link) :
  let G := RoutingEngine._build_graph links in
  NoDup (nx.nodes G)
  /\ (forall n, nx.has_node G n = true <->
                exists l, In l links /\ (src l = n \/ dst l = n))
  /\ (forall l, In l links ->
        nx.has_edge G (src l) (dst l) = true
        /\ nx.has_edge G (dst l) (src l) = true).
Proof.
  intro G.
  destruct (build_nodes links nx.Graph (NoDup_nil _)) as [Hnd Hin].
  split; [exact Hnd|]. split.
  - intro n. unfold nx.has_node. rewrite mem_In. unfold G, RoutingEngine._build_graph.
    rewrite Hin. simpl. split; [intros [[]|H]; exact H | auto].
  - intros l Hl.
    destruct (build_graph_of links [] nx.Graph graph_of_nil) as (Hd & _ & Hlinks).
    destruct (Hlinks l Hl) as (e & He & J).
    assert (J' : nx.joins false e (dst l) (src l) = true).
    { apply joins_undirected. destruct (joins_ends _ _ _ _ J) as [[A B]|[A B]]; auto. }
    fold (RoutingEngine._build_graph links) in Hd, He. fold G in Hd, He.
    unfold nx.has_edge, nx.get_edge. rewrite Hd. split.
    + destruct (find _ (nx.edges G)) eqn:F; trivial.
      rewrite (find_none _ _ F e He) in J. discriminate.
    + destruct (find _ (nx.edges G)) eqn:F; trivial.
      rewrite (find_none _ _ F e He) in J'. discriminate.
Qed.

Lemma utilization_nonneg (link : Link) :
  0 <= bw_used link -> 0 <= RoutingEngine.utilization link.
Proof.
  intro H. unfold RoutingEngine.utilization.
  destruct (Qle_bool 1 _); [q_decide|].
  destruct (Qgt_bool (bw_capacity link) 0) eqn:C; [|q_decide].
  apply Qgt_bool_true in C. apply div_nonneg; assumption.
Qed.

(** X8. For a link whose delays add up to a non-negative cost and whose
    [bw_used] is not negative, the utilisation penalty never lowers the
    weight: the weight is at least the cost.  An unloaded link with a positive
    capacity weighs exactly its cost, and a link without capacity weighs 100
    times its cost. *)
Theorem routing_weight_bounds (link : Link) :
  0 <= RoutingEngine.link_cost link ->
  0 <= bw_used link ->
  RoutingEngine.link_cost link <= RoutingEngine.final_cost link
  /\ (0 < bw_capacity link -> bw_used link == 0 ->
      RoutingEngine.final_cost link == RoutingEngine.link_cost link)
  /\ (bw_capacity link <= 0 ->
      RoutingEngine.final_cost link == 100 * RoutingEngine.link_cost link).
Proof.
  intros Hcost Hused.
  pose proof (utilization_nonneg link Hused) as Hu0.
  pose proof (utilization_below_one link) as Hu1.
  unfold RoutingEngine.final_cost. split; [|split].
  - apply Qle_shift_div_l; [lra|].
    assert (0 <= RoutingEngine.link_cost link * RoutingEngine.utilization link)
      by (apply Qmult_le_0_compat; assumption).
    lra.
  - intros Hcap Hzero.
    assert (E : RoutingEngine.utilization link == 0).
    { unfold RoutingEngine.utilization.
      replace (Qgt_bool (bw_capacity link) 0) with true
        by (symmetry; apply Qgt_bool_true; exact Hcap).
      assert (R : bw_used link / bw_capacity link == 0).
      { rewrite Hzero. unfold Qdiv. lra. }
      destruct (Qle_bool 1 _) eqn:L; [|exact R].
      apply Qle_bool_iff in L. lra. }
    rewrite E. field.
  - intro Hcap.
    assert (E : RoutingEngine.utilization link == 99 # 100).
    { unfold RoutingEngine.utilization.
      replace (Qgt_bool (bw_capacity link) 0) with false
        by (symmetry; apply Qgt_bool_false; exact Hcap).
      reflexivity. }
    rewrite E. field.
Qed.

(** An unloaded link of the diamond. *)
Lemma routing_weight_bounds_on_diamond :
  0 <= RoutingEngine.link_cost (link5 "1" "2" 1)
  /\ RoutingEngine.link_cost (link5 "1" "2" 1)
     <= RoutingEngine.final_cost (link5 "1" "2" 1).
Proof.
  split; [q_decide|].
  apply (routing_weight_bounds (link5 "1" "2" 1)); q_decide.
Defined.

(** ** Further properties of path computation *)

Lemma links_of_path_from_edges (G : nx.graph) (p : list string) (l : Link) :
  In l (nx.links_of_path G p) ->
  exists e, In e (nx.edges G) /\ nx.link_obj e = l.
Proof.
  induction p as [|u rest IH]; simpl; [intros []|].
  destruct rest as [|v rest']; [intros []|].
  unfold nx.get_edge at 1.
  destruct (find _ (nx.edges G)) as [e|] eqn:F; [|exact IH].
  intros [<-|H]; [|apply IH, H].
  apply find_some in F. exists e. split; [apply F | reflexivity].
Qed.

Lemma append_new_incl (xs acc : list Link) (l : Link) :
  In l (fold_left RoutingEngine.append_new xs acc) -> In l acc \/ In l xs.
Proof.
  revert acc. induction xs as [|x rest IH]; intro acc; simpl; [auto|].
  intro H. apply IH in H. destruct H as [H|H]; [|auto].
  unfold RoutingEngine.append_new in H.
  destruct (existsb _ acc); [auto|].
  apply in_app_or in H. destruct H as [H|[<-|[]]]; auto.
Qed.

Lemma union_of_paths_from (G : nx.graph) (s : string) (ds : list string)
    (acc : list Link) (l : Link) :
  In l (fold_left (fun path_links d =>
          match nx.dijkstra_path G s d with
          | Some p_nodes =>
              fold_left RoutingEngine.append_new
                        (RoutingEngine._nodes_to_links G p_nodes) path_links
          | None => path_links
          end) ds acc) ->
  In l acc \/ exists p, In l (nx.links_of_path G p).
Proof.
  revert acc. induction ds as [|d rest IH]; intro acc; simpl; [auto|].
  intro H. apply IH in H. destruct H as [H|H]; [|auto].
  destruct (nx.dijkstra_path G s d) as [p|]; [|auto].
  apply append_new_incl in H. destruct H as [H|H]; [auto|].
  right. exists p. exact H.
Qed.

(** X9. Whatever the Steiner routine returns, [calculate_path] answers with
    links of the snapshot only: every link of a computed path or tree is one
    of the links the graph was built from. *)
Theorem calculate_path_uses_snapshot_links
    (steiner_tree : nx.graph -> list string -> option (list (string * string)))
    (links : list Link) (source : string) (dsts : list string) (l : Link) :
  In l (RoutingEngine.calculate_path steiner_tree links source dsts) ->
  In l links.
Proof.
  destruct (build_graph_of links [] nx.Graph graph_of_nil) as (_ & Hedges & _).
  fold (RoutingEngine._build_graph links) in Hedges.
  assert (Hpath : forall p, In l (nx.links_of_path (RoutingEngine._build_graph links) p)
                            -> In l links).
  { intros p H. destruct (links_of_path_from_edges _ _ _ H) as (e & He & <-).
    apply (Hedges e He). }
  unfold RoutingEngine.calculate_path.
  destruct (negb (nx.has_node _ source)); [intros []|].
  destruct (filter _ dsts) as [|d1 [|d2 rest]]; [intros []| |].
  - destruct (nx.dijkstra_path _ source d1) as [p|]; [apply Hpath | intros []].
  - destruct (steiner_tree _ _) as [tree_edges|].
    + unfold RoutingEngine.tree_links. rewrite in_flat_map.
      intros ([u v] & _ & H). simpl in H. unfold nx.get_edge in H.
      destruct (find _ _) as [e|] eqn:F; [|destruct H].
      destruct H as [<-|[]]. apply find_some in F. apply (Hedges e (proj1 F)).
    + intro H. apply union_of_paths_from in H.
      destruct H as [[]|(p & H)]. apply (Hpath p H).
Qed.

(** The path 1-2-4 on the diamond. *)
Lemma calculate_path_uses_diamond_links :
  In (link5 "2" "4" 1) (RoutingEngine.calculate_path steiner_raises diamond "1" ["4"])
  /\ In (link5 "2" "4" 1) diamond.
Proof.
  assert (H : In (link5 "2" "4" 1)
                (RoutingEngine.calculate_path steiner_raises diamond "1" ["4"]))
    by (right; left; reflexivity).
  split; [exact H|].
  exact (calculate_path_uses_snapshot_links steiner_raises diamond "1" ["4"] _ H).
Defined.

Lemma ordpairs_snoc {A : Type} (R : A -> A -> Prop) (xs : list A) (x : A) :
  ForallOrdPairs R xs -> (forall a, In a xs -> R a x) ->
  ForallOrdPairs R (xs ++ [x]).
Proof.
  induction 1 as [|a rest Ha Hrest IH]; intro Hx; simpl.
  - constructor; [constructor | constructor].
  - constructor.
    + apply Forall_app. split; [exact Ha|].
      constructor; [apply Hx; left; reflexivity | constructor].
    + apply IH. intros b Hb. apply Hx. right. exact Hb.
Qed.

Lemma append_new_distinct (xs acc : list Link) :
  ForallOrdPairs (fun a b => Link_eqb b a = false) acc ->
  ForallOrdPairs (fun a b => Link_eqb b a = false)
                 (fold_left RoutingEngine.append_new xs acc).
Proof.
  revert acc. induction xs as [|x rest IH]; intros acc H; simpl; [exact H|].
  apply IH. unfold RoutingEngine.append_new.
  destruct (existsb (Link_eqb x) acc) eqn:E; [exact H|].
  apply ordpairs_snoc; [exact H|].
  intros a Ha. destruct (Link_eqb x a) eqn:E'; trivial.
  assert (existsb (Link_eqb x) acc = true)
    by (apply existsb_exists; exists a; auto).
  congruence.
Qed.

(** X10. When the Steiner routine raises, the union of the unicast paths that
    replaces the tree holds no link twice: no link of the answer equals a
    link before it. *)
Theorem union_of_paths_has_no_repeat (G : nx.graph) (source : string)
    (valid_dsts : list string) :
  ForallOrdPairs (fun a b => Link_eqb b a = false)
                 (RoutingEngine.union_of_paths G source valid_dsts).
Proof.
  unfold RoutingEngine.union_of_paths.
  assert (H : forall ds acc,
    ForallOrdPairs (fun a b => Link_eqb b a = false) acc ->
    ForallOrdPairs (fun a b => Link_eqb b a = false)
      (fold_left (fun path_links d =>
         match nx.dijkstra_path G source d with
         | Some p_nodes =>
             fold_left RoutingEngine.append_new
                       (RoutingEngine._nodes_to_links G p_nodes) path_links
         | None => path_links
         end) ds acc)).
  { induction ds as [|d rest IH]; intros acc Hacc; simpl; [exact Hacc|].
    apply IH. destruct (nx.dijkstra_path G source d); [|exact Hacc].
    apply append_new_distinct, Hacc. }
  apply H. constructor.
Qed.

(** X11. [select_optimal_rp] only ever elects a node of the routing graph,
    and only when some subscriber is a node of the graph: with an empty
    topology or with no subscriber in the graph it answers [None]. *)
Theorem select_optimal_rp_is_a_node (links : list Link)
    (subscribers : list string) :
  let G := RoutingEngine._build_graph links in
  (forall n, RoutingEngine.select_optimal_rp links subscribers = Some n ->
             nx.has_node G n = true
             /\ exists s, In s subscribers /\ nx.has_node G s = true)
  /\ ((forall s, In s subscribers -> nx.has_node G s = false) ->
      RoutingEngine.select_optimal_rp links subscribers = None)
  /\ (links = [] -> RoutingEngine.select_optimal_rp links subscribers = None).
Proof.
  intro G. split; [|split].
  - intros n. unfold RoutingEngine.select_optimal_rp. fold G.
    destruct (nx.nodes G) as [|x xs] eqn:En; [discriminate|].
    destruct (filter (nx.has_node G) subscribers) as [|s ss] eqn:Es; [discriminate|].
    intro H. split.
    + pose proof (rp_loop_elected G (s :: ss) (x :: xs) [] (None, None)) as Hel.
      simpl app in Hel.
      destruct Hel as [[E _]|(n' & e & p1 & p2 & E & Enodes & _)].
      * left. split; trivial. intros m [].
      * rewrite E in H. discriminate.
      * rewrite E in H. simpl in H. inversion H; subst.
        unfold nx.has_node. apply mem_In. rewrite En, Enodes.
        apply in_or_app. right. left. reflexivity.
    + exists s. apply filter_In. rewrite Es. left. reflexivity.
  - intro Hnone. unfold RoutingEngine.select_optimal_rp. fold G.
    rewrite (filter_all_false _ _ Hnone). destruct (nx.nodes G); reflexivity.
  - intros ->. reflexivity.
Qed.

(** ** The forwarding map and the data-plane calls *)

Lemma add_port_In (p : Z) (ports : list Z) (x : Z) :
  In x (if existsb (Z.eqb p) ports then ports else ports ++ [p])
  <-> In x ports \/ x = p.
Proof.
  destruct (existsb (Z.eqb p) ports) eqn:Ex.
  - apply existsb_exists in Ex. destruct Ex as (y & Hy & E).
    apply Z.eqb_eq in E. subst y. split; [auto | intros [H| ->]; assumption].
  - rewrite in_app_iff. simpl. split.
    + intros [H|[H|[]]]; auto.
    + intros [H| ->]; auto.
Qed.

Lemma fwd_add_has (d p : Z) (m : list (Z * list Z)) (d' p' : Z) :
  fwd_has (RyuMRTApp.fwd_add d p m) d' p' <-> fwd_has m d' p' \/ (d' = d /\ p' = p).
Proof.
  unfold fwd_has. induction m as [|[k ports] rest IH]; simpl.
  - split.
    + intros (ps & [E|[]] & Hp). inversion E; subst.
      destruct Hp as [<-|[]]. right. split; reflexivity.
    + intros [(ps & [] & _)|[-> ->]]. exists [p].
      split; left; reflexivity.
  - destruct (k =? d)%Z eqn:E.
    + apply Z.eqb_eq in E. subst k. split.
      * intros (ps & [E|Hin] & Hp).
        -- inversion E; subst. apply add_port_In in Hp.
           destruct Hp as [Hp| ->].
           ++ left. exists ports. split; [left; reflexivity | exact Hp].
           ++ right. split; reflexivity.
        -- left. exists ps. split; [right; exact Hin | exact Hp].
      * intros [(ps & [E|Hin] & Hp)|[-> ->]].
        -- inversion E; subst.
           exists (if existsb (Z.eqb p) ps then ps else ps ++ [p]).
           split; [left; reflexivity | apply add_port_In; left; exact Hp].
        -- exists ps. split; [right; exact Hin | exact Hp].
        -- exists (if existsb (Z.eqb p) ports then ports else ports ++ [p]).
           split; [left; reflexivity | apply add_port_In; right; reflexivity].
    + split.
      * intros (ps & [E'|Hin] & Hp).
        -- inversion E'; subst. left. exists ps.
           split; [left; reflexivity | exact Hp].
        -- destruct (proj1 IH (ex_intro _ ps (conj Hin Hp))) as [(ps' & H1 & H2)|H].
           ++ left. exists ps'. split; [right; exact H1 | exact H2].
           ++ right. exact H.
      * intros [(ps & [E'|Hin] & Hp)|H].
        -- exists ps. split; [left; exact E' | exact Hp].
        -- destruct (proj2 IH (or_introl (ex_intro _ ps (conj Hin Hp))))
             as (ps' & H1 & H2).
           exists ps'. split; [right; exact H1 | exact H2].
        -- destruct (proj2 IH (or_intror H)) as (ps' & H1 & H2).
           exists ps'. split; [right; exact H1 | exact H2].
Qed.

Lemma fwd_add_keys (d p : Z) (m : list (Z * list Z)) (k : Z) :
  In k (map fst (RyuMRTApp.fwd_add d p m)) <-> In k (map fst m) \/ k = d.
Proof.
  induction m as [|[k' ports] rest IH]; simpl.
  - split; [intros [<-|[]]; auto | intros [[]| ->]; auto].
  - destruct (k' =? d)%Z eqn:E; simpl.
    + apply Z.eqb_eq in E. subst. split; [auto | intros [H| ->]; auto].
    + rewrite IH. split; [intros [H|[H|H]]; auto | intros [[H|H]|H]; auto].
Qed.

Lemma fwd_add_wf (d p : Z) (m : list (Z * list Z)) :
  NoDup (map fst m) -> Forall (fun e => NoDup (snd e)) m ->
  NoDup (map fst (RyuMRTApp.fwd_add d p m))
  /\ Forall (fun e => NoDup (snd e)) (RyuMRTApp.fwd_add d p m).
Proof.
  induction m as [|[k ports] rest IH]; simpl; intros Hk Hp.
  - split; repeat constructor; auto.
  - inversion Hk as [|? ? Hnotin Hnd]; subst.
    inversion Hp as [|? ? Hports Hrest]; subst. simpl in Hports.
    destruct (k =? d)%Z eqn:E; simpl.
    + split; [constructor; assumption|]. constructor; [|assumption]. simpl.
      destruct (existsb (Z.eqb p) ports) eqn:Ex; trivial.
      apply NoDup_app; trivial.
      * constructor; [intros []|constructor].
      * intros x Hx [E'|[]]. subst x.
        assert (existsb (Z.eqb p) ports = true)
          by (apply existsb_exists; exists p; split; [exact Hx | apply Z.eqb_refl]).
        congruence.
    + destruct (IH Hnd Hrest) as [IH1 IH2]. split.
      * constructor; [|exact IH1]. rewrite fwd_add_keys. intros [H| ->].
        -- apply Hnotin, H.
        -- rewrite Z.eqb_refl in E. discriminate.
      * constructor; assumption.
Qed.

Lemma build_fwd_map_spec (py_int : string -> option Z) (ls : list Link) :
  forall m0 m,
    RyuMRTApp.build_fwd_map py_int ls m0 = Some m ->
    (NoDup (map fst m0) -> Forall (fun e => NoDup (snd e)) m0 ->
     NoDup (map fst m) /\ Forall (fun e => NoDup (snd e)) m)
    /\ (forall d p, fwd_has m d p <->
          fwd_has m0 d p
          \/ exists link, In link ls /\ py_int (src link) = Some d
                          /\ port_out link = p)
    /\ (forall d, In d (map fst m) <->
          In d (map fst m0)
          \/ exists link, In link ls /\ py_int (src link) = Some d).
Proof.
  induction ls as [|l rest IH]; intros m0 m; simpl.
  - intro H; inversion H; subst. split; [auto|]. split; intros; split; auto.
    + intros [H0|(link & [] & _)]. exact H0.
    + intros [H0|(link & [] & _)]. exact H0.
  - destruct (py_int (src l)) as [dpid|] eqn:E; [|discriminate].
    intro H. destruct (IH _ _ H) as (Hwf & Hhas & Hkeys). split; [|split].
    + intros Hk Hp. destruct (fwd_add_wf dpid (port_out l) m0 Hk Hp). auto.
    + intros d p. rewrite Hhas, fwd_add_has. split.
      * intros [[H0|[Hd Hp]]|(link & Hl & Hi & Hp)].
        -- left. exact H0.
        -- right. exists l. subst. auto.
        -- right. exists link. auto.
      * intros [H0|(link & [Hl|Hl] & Hi & Hp)].
        -- left. left. exact H0.
        -- left. right. subst link. split; congruence.
        -- right. exists link. auto.
    + intro d. rewrite Hkeys, fwd_add_keys. split.
      * intros [[H0|Hd]|(link & Hl & Hi)].
        -- left. exact H0.
        -- right. exists l. subst. auto.
        -- right. exists link. auto.
      * intros [H0|(link & [Hl|Hl] & Hi)].
        -- left. left. exact H0.
        -- left. right. subst link. congruence.
        -- right. exists link. auto.
Qed.

(** X12. The forwarding map built from a route lists every switch once and
    every port of a switch once, and holds port [p] for switch [d] exactly
    when some link of the route leaves switch [d] through port [p]. *)
Theorem forwarding_map_of_a_route (py_int : string -> option Z)
    (path_links : list Link) (fwd_map : list (Z * list Z)) :
  RyuMRTApp.build_fwd_map py_int path_links [] = Some fwd_map ->
  NoDup (map fst fwd_map)
  /\ (forall dpid ports, In (dpid, ports) fwd_map -> NoDup ports)
  /\ (forall dpid port,
        fwd_has fwd_map dpid port <->
        exists link, In link path_links /\ py_int (src link) = Some dpid
                     /\ port_out link = port).
Proof.
  intro H. destruct (build_fwd_map_spec py_int path_links [] fwd_map H)
    as (Hwf & Hhas & _).
  destruct (Hwf (NoDup_nil _) (Forall_nil _)) as [Hk Hp].
  split; [exact Hk|]. split.
  - intros dpid ports Hin. rewrite Forall_forall in Hp. apply (Hp _ Hin).
  - intros dpid port. rewrite Hhas. split; [|auto].
    intros [(ps & [] & _)|H0]. exact H0.
Qed.

(** The route 1-2-4: switch 1 forwards on port 1, and so does switch 2. *)
Lemma forwarding_map_of_route_124 :
  RyuMRTApp.build_fwd_map int_decimal route_124 []
  = Some [(1, [1]); (2, [1])]%Z
  /\ NoDup (map fst [(1, [1]); (2, [1])]%Z).
Proof.
  split; [reflexivity|].
  exact (proj1 (forwarding_map_of_a_route int_decimal route_124 _ eq_refl)).
Defined.



(** The loop of the installation: with a bandwidth that converts, every
    connected switch gets its three calls; with one that does not, the loop
    raises at the first connected switch, before any call. *)
Lemma program_shape (py_float : string -> option Q) (connected : list Z)
    (f : RTAttributes) (g : Z) (m : list (Z * list Z)) :
  forall calls,
    RyuMRTApp.program py_float connected f g m calls
    = match RyuMRTApp.bw_val py_float f with
      | Some bw => (RyuMRTApp.Done tt, calls ++ calls_for connected f g bw m)
      | None => if reaches connected m then (RyuMRTApp.Raised, calls)
                else (RyuMRTApp.Done tt, calls)
      end.
Proof.
  unfold calls_for, reaches.
  induction m as [|[d ports] rest IH]; intro calls;
    cbn [RyuMRTApp.program flat_map existsb fst snd].
  - rewrite app_nil_r. destruct (RyuMRTApp.bw_val py_float f); reflexivity.
  - destruct (existsb (Z.eqb d) connected); cbn [orb app].
    + destruct (RyuMRTApp.bw_val py_float f) as [bw|] eqn:B; [|reflexivity].
      rewrite IH, <- app_assoc. reflexivity.
    + rewrite IH. reflexivity.
Qed.

Lemma install_shape (py_hash : string -> Z) (py_int : string -> option Z)
    (py_float : string -> option Q)
    (a : RyuMRTApp.app) (f : RTAttributes) (path_links : list Link)
    (m : list (Z * list Z)) :
  RyuMRTApp.build_fwd_map py_int path_links [] = Some m ->
  let g := if (multicast_group_id f =? 0)%Z
           then (Z.abs (py_hash (ft_i f)) mod 2000 + 1)%Z
           else multicast_group_id f in
  let f' := RyuMRTApp.with_group_id f g in
  g <> 0%Z
  /\ RyuMRTApp._install_multicast_tree py_hash py_int py_float a f path_links
     = match RyuMRTApp.bw_val py_float f with
       | Some bw =>
           (RyuMRTApp.Done tt,
            (f', RyuMRTApp.mkApp (RyuMRTApp.db a) (RyuMRTApp.datapaths a)
                   (RyuMRTApp.sent a
                    ++ calls_for (RyuMRTApp.datapaths a) f' g bw m)))
       | None =>
           (if reaches (RyuMRTApp.datapaths a) m then RyuMRTApp.Raised
            else RyuMRTApp.Done tt,
            (f', RyuMRTApp.mkApp (RyuMRTApp.db a) (RyuMRTApp.datapaths a)
                   (RyuMRTApp.sent a)))
       end.
Proof.
  intros Hm g f'. split.
  - unfold g. destruct (multicast_group_id f =? 0)%Z eqn:E.
    + pose proof (Z.mod_pos_bound (Z.abs (py_hash (ft_i f))) 2000). lia.
    + apply Z.eqb_neq. exact E.
  - unfold RyuMRTApp._install_multicast_tree. rewrite Hm. fold g. fold f'.
    rewrite program_shape.
    change (RyuMRTApp.bw_val py_float f') with (RyuMRTApp.bw_val py_float f).
    destruct (RyuMRTApp.bw_val py_float f); [reflexivity|].
    destruct (reaches _ m); reflexivity.
Qed.


(** On the diamond: a route that starts at a host address raises in step 1,
    a bandwidth of ["1Gbps"] raises in the loop, and ["500Kbps"] installs
    meters at the rate 500. *)
Example installation_outcomes_on_diamond :
  fst (RyuMRTApp._install_multicast_tree hash_zero int_decimal float_decimal
         diamond_app flow_C [link5 "10.0.0.1" "1" 1]) = RyuMRTApp.Raised
  /\ RyuMRTApp._install_multicast_tree hash_zero int_decimal float_decimal
       diamond_app (flow_C_text "1Gbps") route_124
     = (RyuMRTApp.Raised,
        (RyuMRTApp.with_group_id (flow_C_text "1Gbps") 1, diamond_app))
  /\ fst (RyuMRTApp._install_multicast_tree hash_zero int_decimal float_decimal
            diamond_app (flow_C_text "500Kbps") route_124) = RyuMRTApp.Done tt
  /\ In (RyuMRTApp.install_meter 1 1 500)
        (RyuMRTApp.sent
           (snd (snd (RyuMRTApp._install_multicast_tree hash_zero int_decimal
                        float_decimal diamond_app (flow_C_text "500Kbps")
                        route_124)))).
Proof.
  split; [reflexivity|]. split; [reflexivity|]. split; [reflexivity|].
  vm_compute. left. reflexivity.
Qed.

(** X14. An installation that goes through leaves the flow with a group id
    that is not 0: the id it had, or, when it had none, a number from 1 to
    2000 derived from the topic.  Installing the same flow again keeps that id
    and sends the same calls once more. *)
Theorem install_keeps_the_group_id
    (py_hash : string -> Z) (py_int : string -> option Z)
    (py_float : string -> option Q)
    (a a' : RyuMRTApp.app) (f f' : RTAttributes) (path_links : list Link) :
  RyuMRTApp._install_multicast_tree py_hash py_int py_float a f path_links
  = (RyuMRTApp.Done tt, (f', a')) ->
  multicast_group_id f' <> 0%Z
  /\ (multicast_group_id f = 0%Z ->
      (1 <= multicast_group_id f' <= 2000)%Z)
  /\ (multicast_group_id f <> 0%Z -> multicast_group_id f' = multicast_group_id f)
  /\ exists calls,
       RyuMRTApp.sent a' = RyuMRTApp.sent a ++ calls
       /\ RyuMRTApp._install_multicast_tree py_hash py_int py_float a' f' path_links
          = (RyuMRTApp.Done tt,
             (f', RyuMRTApp.mkApp (RyuMRTApp.db a') (RyuMRTApp.datapaths a')
                    (RyuMRTApp.sent a' ++ calls))).
Proof.
  intro H.
  destruct (RyuMRTApp.build_fwd_map py_int path_links []) as [m|] eqn:Hm;
    [|unfold RyuMRTApp._install_multicast_tree in H; rewrite Hm in H;
      discriminate].
  destruct (install_shape py_hash py_int py_float a f path_links m Hm) as [Hg E].
  set (g := if (multicast_group_id f =? 0)%Z
            then (Z.abs (py_hash (ft_i f)) mod 2000 + 1)%Z
            else multicast_group_id f) in *.
  assert (Hagain : forall x,
    (if (multicast_group_id (RyuMRTApp.with_group_id f g) =? 0)%Z
     then x else multicast_group_id (RyuMRTApp.with_group_id f g)) = g).
  { intro x. cbn [multicast_group_id RyuMRTApp.with_group_id].
    apply Z.eqb_neq in Hg. rewrite Hg. reflexivity. }
  assert (Hbounds : multicast_group_id f = 0%Z -> (1 <= g <= 2000)%Z).
  { intro Z0. unfold g. rewrite Z0. simpl.
    pose proof (Z.mod_pos_bound (Z.abs (py_hash (ft_i f))) 2000). lia. }
  assert (Hkept : multicast_group_id f <> 0%Z -> g = multicast_group_id f).
  { intro N. unfold g. apply Z.eqb_neq in N. rewrite N. reflexivity. }
  rewrite E in H.
  destruct (RyuMRTApp.bw_val py_float f) as [bw|] eqn:B.
  - inversion H; subst f' a'; clear H.
    cbn [multicast_group_id RyuMRTApp.with_group_id RyuMRTApp.sent RyuMRTApp.db
         RyuMRTApp.datapaths].
    split; [exact Hg|]. split; [exact Hbounds|]. split; [exact Hkept|].
    eexists. split; [reflexivity|].
    unfold RyuMRTApp._install_multicast_tree. rewrite Hm, Hagain.
    rewrite program_shape.
    change (RyuMRTApp.bw_val py_float
              (RyuMRTApp.with_group_id (RyuMRTApp.with_group_id f g) g))
      with (RyuMRTApp.bw_val py_float f).
    rewrite B. reflexivity.
  - destruct (reaches (RyuMRTApp.datapaths a) m) eqn:R; [discriminate|].
    inversion H; subst f' a'; clear H.
    cbn [multicast_group_id RyuMRTApp.with_group_id RyuMRTApp.sent RyuMRTApp.db
         RyuMRTApp.datapaths].
    split; [exact Hg|]. split; [exact Hbounds|]. split; [exact Hkept|].
    exists []. split; [symmetry; apply app_nil_r|].
    unfold RyuMRTApp._install_multicast_tree. rewrite Hm, Hagain.
    rewrite program_shape.
    change (RyuMRTApp.bw_val py_float
              (RyuMRTApp.with_group_id (RyuMRTApp.with_group_id f g) g))
      with (RyuMRTApp.bw_val py_float f).
    rewrite B. cbn [RyuMRTApp.datapaths]. rewrite R, app_nil_r. reflexivity.
Qed.

(** Installing flow C on the route 1-2-4 of the diamond. *)
Lemma install_keeps_the_group_id_of_C :
  exists f' a',
    RyuMRTApp._install_multicast_tree hash_zero int_decimal float_decimal
      diamond_app flow_C route_124 = (RyuMRTApp.Done tt, (f', a'))
    /\ multicast_group_id f' <> 0%Z.
Proof.
  eexists _, _. split; [reflexivity|].
  exact (proj1 (install_keeps_the_group_id hash_zero int_decimal float_decimal
                  diamond_app _ flow_C _ route_124 eq_refl)).
Defined.

(** X15. An installation that goes through changes neither the registry nor
    the set of datapaths, and only appends calls: every call goes to a
    connected datapath that is the source switch of a link of the route,
    carries the flow's group id as group and meter id, and is a group, a
    rule of priority [100 + pi], or a meter whose rate is the number that
    [bwi] converts to: the number itself when [bwi] is one, and for a text
    what [float] reads once "Mbps" and "Kbps" are taken out of it, so that
    the unit the text names plays no part. *)
Theorem install_programs_connected_switches
    (py_hash : string -> Z) (py_int : string -> option Z)
    (py_float : string -> option Q)
    (a a' : RyuMRTApp.app) (f f' : RTAttributes) (path_links : list Link) :
  RyuMRTApp._install_multicast_tree py_hash py_int py_float a f path_links
  = (RyuMRTApp.Done tt, (f', a')) ->
  RyuMRTApp.db a' = RyuMRTApp.db a
  /\ RyuMRTApp.datapaths a' = RyuMRTApp.datapaths a
  /\ exists calls,
       RyuMRTApp.sent a' = RyuMRTApp.sent a ++ calls
       /\ forall c, In c calls ->
            In (call_dpid c) (RyuMRTApp.datapaths a)
            /\ (exists link, In link path_links
                             /\ py_int (src link) = Some (call_dpid c))
            /\ ((exists bw,
                   c = RyuMRTApp.install_meter (call_dpid c)
                         (multicast_group_id f') bw
                   /\ match bwi f with
                      | bw_number mbps => bw = mbps
                      | bw_text raw =>
                          py_float (py_remove "Kbps" (py_remove "Mbps" raw))
                          = Some bw
                      end)
                \/ (exists ports,
                      c = RyuMRTApp.install_multicast_group (call_dpid c)
                            (multicast_group_id f') ports)
                \/ (exists ipv4_dst,
                      c = RyuMRTApp.add_flow (call_dpid c) (100 + pi f) ipv4_dst
                            (multicast_group_id f') (multicast_group_id f'))).
Proof.
  intro H.
  destruct (RyuMRTApp.build_fwd_map py_int path_links []) as [m|] eqn:Hm;
    [|unfold RyuMRTApp._install_multicast_tree in H; rewrite Hm in H;
      discriminate].
  destruct (install_shape py_hash py_int py_float a f path_links m Hm) as [Hg E].
  rewrite E in H.
  destruct (RyuMRTApp.bw_val py_float f) as [bw|] eqn:B.
  - inversion H; subst f' a'; clear H.
    cbn [RyuMRTApp.db RyuMRTApp.datapaths RyuMRTApp.sent multicast_group_id
         RyuMRTApp.with_group_id].
    split; [reflexivity|]. split; [reflexivity|].
    eexists. split; [reflexivity|].
    intros c Hc. unfold calls_for in Hc. apply in_flat_map in Hc.
    destruct Hc as ([d ports] & Hin & Hc). cbn [fst snd] in Hc.
    destruct (existsb (Z.eqb d) (RyuMRTApp.datapaths a)) eqn:Ex; [|destruct Hc].
    assert (Hd : In d (RyuMRTApp.datapaths a)).
    { apply existsb_exists in Ex. destruct Ex as (x & Hx & Ed).
      apply Z.eqb_eq in Ed. subst. exact Hx. }
    assert (Hl : exists link, In link path_links /\ py_int (src link) = Some d).
    { destruct (build_fwd_map_spec py_int path_links [] m Hm) as (_ & _ & Hkeys).
      destruct (proj1 (Hkeys d)) as [[]|Hl]; [|exact Hl].
      apply in_map_iff. exists (d, ports). auto. }
    unfold RyuMRTApp.program_switch in Hc. simpl in Hc.
    destruct Hc as [<-|[<-|[<-|[]]]]; simpl;
      (split; [exact Hd|]); (split; [exact Hl|]).
    + left. exists bw. split; [reflexivity|].
      unfold RyuMRTApp.bw_val in B. destruct (bwi f); [congruence | exact B].
    + right. left. exists ports. reflexivity.
    + right. right. eexists. reflexivity.
  - destruct (reaches (RyuMRTApp.datapaths a) m); [discriminate|].
    inversion H; subst f' a'; clear H.
    cbn [RyuMRTApp.db RyuMRTApp.datapaths RyuMRTApp.sent].
    split; [reflexivity|]. split; [reflexivity|].
    exists []. split; [symmetry; apply app_nil_r|]. intros c [].
Qed.

(** Installing flow C with the bandwidth ["500Kbps"] on the diamond: the
    registry is left alone, and the meters are set to 500. *)
Lemma install_programs_switches_for_C :
  exists f' a',
    RyuMRTApp._install_multicast_tree hash_zero int_decimal float_decimal
      diamond_app (flow_C_text "500Kbps") route_124 = (RyuMRTApp.Done tt, (f', a'))
    /\ RyuMRTApp.db a' = RyuMRTApp.db diamond_app
    /\ In (RyuMRTApp.install_meter 1 1 500) (RyuMRTApp.sent a').
Proof.
  eexists _, _. split; [reflexivity|].
  split.
  - exact (proj1 (install_programs_connected_switches hash_zero int_decimal
                    float_decimal diamond_app _ (flow_C_text "500Kbps") _
                    route_124 eq_refl)).
  - vm_compute. left. reflexivity.
Defined.

(** ** Outcomes of a registration and of a join *)

Lemma prepare_fields (d : RTAttributes) (source : string) (b : option string) :
  src_ip (RyuMRTApp.prepare d source b) = source
  /\ dst_ips (RyuMRTApp.prepare d source b) = dst_ips d
  /\ multicast_group_id (RyuMRTApp.prepare d source b) = multicast_group_id d.
Proof.
  unfold RyuMRTApp.prepare. destruct b as [b|]; [|auto].
  destruct (b =? "")%string; [auto|].
  destruct (mem b _); auto.
Qed.

Lemma install_done_group_id (py_hash : string -> Z) (py_int : string -> option Z)
    (py_float : string -> option Q)
    (a : RyuMRTApp.app) (f : RTAttributes) (path_links : list Link) :
  fst (RyuMRTApp._install_multicast_tree py_hash py_int py_float a f path_links)
  = RyuMRTApp.Done tt ->
  multicast_group_id
    (fst (snd (RyuMRTApp._install_multicast_tree py_hash py_int py_float a f
                 path_links))) <> 0%Z.
Proof.
  destruct (RyuMRTApp.build_fwd_map py_int path_links []) as [m|] eqn:Hm.
  - destruct (install_shape py_hash py_int py_float a f path_links m Hm) as [Hg E].
    rewrite E. intros _. destruct (RyuMRTApp.bw_val py_float f); exact Hg.
  - unfold RyuMRTApp._install_multicast_tree. rewrite Hm. discriminate.
Qed.

(** X16. A registration that admission control rejects computes no route and
    sends nothing: the calls sent and the connected datapaths are those from
    before, and the flow left under the topic has the route and the group id
    of the descriptor. *)
Theorem rejected_registration_sends_nothing
    (py_hash : string -> Z) (py_int : string -> option Z)
    (py_float : string -> option Q)
    (steiner_tree : nx.graph -> list string -> option (list (string * string)))
    (a : RyuMRTApp.app) (topic : string) (d : RTAttributes) (source : string)
    (broker_ip : option string) :
  fst (RyuMRTApp.register_rt_flow py_hash py_int py_float steiner_tree a topic d
         source broker_ip) = RyuMRTApp.Done false ->
  let a' := snd (RyuMRTApp.register_rt_flow py_hash py_int py_float steiner_tree a
                   topic d source broker_ip) in
  RyuMRTApp.sent a' = RyuMRTApp.sent a
  /\ RyuMRTApp.datapaths a' = RyuMRTApp.datapaths a
  /\ exists f, of_db.get_flow topic (RyuMRTApp.db a') = Some f
               /\ route_links f = route_links d
               /\ multicast_group_id f = multicast_group_id d.
Proof.
  unfold RyuMRTApp.register_rt_flow.
  destruct (negb (AdmissionControl.check_admissibility _ _)).
  - intros _. cbn [snd]. split; [reflexivity|]. split; [reflexivity|].
    exists (RyuMRTApp.prepare d source broker_ip).
    split; [apply get_flow_store|].
    split; [apply prepare_route | apply prepare_fields].
  - intro H. exfalso.
    destruct (qi _ =? 0)%Z;
      match type of H with
      | fst (RyuMRTApp.after_install ?t ?v ?i) = _ =>
          destruct (after_install_outcome t v i) as [E|E];
          rewrite E in H; discriminate
      end.
Qed.

(** The late descriptor on the diamond. *)
Lemma rejected_registration_of_late_flow :
  fst (RyuMRTApp.register_rt_flow hash_zero int_decimal float_decimal steiner_raises
         diamond_app "late" descriptor_late "1" None) = RyuMRTApp.Done false
  /\ RyuMRTApp.sent
       (snd (RyuMRTApp.register_rt_flow hash_zero int_decimal float_decimal
               steiner_raises diamond_app "late" descriptor_late "1" None))
     = RyuMRTApp.sent diamond_app.
Proof.
  split; [reflexivity|].
  exact (proj1 (rejected_registration_sends_nothing hash_zero int_decimal
                  float_decimal steiner_raises diamond_app "late" descriptor_late
                  "1" None eq_refl)).
Defined.

(** What a handler that ended its installation normally has stored. *)
Lemma after_install_stored {A : Type} (py_hash : string -> Z)
    (py_int : string -> option Z) (py_float : string -> option Q)
    (topic : string) (value : A) (a : RyuMRTApp.app) (f : RTAttributes)
    (path_links : list Link) :
  let out := RyuMRTApp.after_install topic value
               (RyuMRTApp._install_multicast_tree py_hash py_int py_float a f
                  path_links) in
  exists f',
    of_db.get_flow topic (RyuMRTApp.db (snd out)) = Some f'
    /\ src_ip f' = src_ip f /\ dst_ips f' = dst_ips f
    /\ route_links f' = route_links f /\ num_hops f' = num_hops f
    /\ (fst out = RyuMRTApp.Done value -> multicast_group_id f' <> 0%Z).
Proof.
  intro out. unfold out. rewrite after_install_state.
  destruct (install_keeps_registry py_hash py_int py_float a f path_links)
    as (_ & _ & Hd & Hr & Hs & Hn).
  eexists. split; [apply get_flow_store|].
  split; [exact Hs|]. split; [exact Hd|]. split; [exact Hr|]. split; [exact Hn|].
  intro H. apply after_install_done in H.
  apply install_done_group_id, H.
Qed.

(** X17. A registration that returns True leaves under the topic a flow with
    the given source, the destinations of the descriptor, the route that
    [calculate_path] gives from the source to those destinations over the
    current links, [num_hops] equal to the length of that route, and a group
    id that is not 0; and it was admitted by the check on its inputs. *)
Theorem successful_registration_commits_the_route
    (py_hash : string -> Z) (py_int : string -> option Z)
    (py_float : string -> option Q)
    (steiner_tree : nx.graph -> list string -> option (list (string * string)))
    (a : RyuMRTApp.app) (topic : string) (d : RTAttributes) (source : string)
    (broker_ip : option string) :
  fst (RyuMRTApp.register_rt_flow py_hash py_int py_float steiner_tree a topic d
         source broker_ip) = RyuMRTApp.Done true ->
  let a' := snd (RyuMRTApp.register_rt_flow py_hash py_int py_float steiner_tree a
                   topic d source broker_ip) in
  let inputs := RyuMRTApp.admission_inputs a topic d source broker_ip in
  AdmissionControl.check_admissibility (fst inputs) (snd inputs) = true
  /\ exists f,
       of_db.get_flow topic (RyuMRTApp.db a') = Some f
       /\ src_ip f = source
       /\ dst_ips f = dst_ips d
       /\ route_links f
          = RoutingEngine.calculate_path steiner_tree
              (of_db.link_values (RyuMRTApp.db a)) source (dst_ips d)
       /\ num_hops f = Z.of_nat (List.length (route_links f))
       /\ multicast_group_id f <> 0%Z.
Proof.
  unfold RyuMRTApp.register_rt_flow, RyuMRTApp.admission_inputs.
  cbn [fst snd].
  change (RyuMRTApp.db (RyuMRTApp.store topic
            (RyuMRTApp.prepare d source broker_ip) a))
    with (of_db.add_flow topic (RyuMRTApp.prepare d source broker_ip)
            (RyuMRTApp.db a)).
  destruct (AdmissionControl.check_admissibility _ _) eqn:Hadm;
    cbn [negb fst snd]; [|discriminate].
  destruct (prepare_fields d source broker_ip) as (Hs & Hd & _).
  change (of_db.link_values
            (of_db.add_flow topic (RyuMRTApp.prepare d source broker_ip)
               (RyuMRTApp.db a)))
    with (of_db.link_values (RyuMRTApp.db a)).
  rewrite Hs, Hd.
  set (links := of_db.link_values (RyuMRTApp.db a)).
  set (route := RoutingEngine.calculate_path steiner_tree links source (dst_ips d)).
  destruct (qi _ =? 0)%Z.
  - intro H. split; [reflexivity|].
    match type of H with
    | fst (RyuMRTApp.after_install ?t ?v
             (RyuMRTApp._install_multicast_tree ?h ?i ?fl ?x ?f ?ls)) = _ =>
        destruct (after_install_stored h i fl t v x f ls)
          as (f' & Hget & Hsrc & Hdst & Hroute & Hhops & Hgid)
    end.
    exists f'. split; [exact Hget|].
    rewrite Hsrc, Hdst, Hroute, Hhops. cbn. rewrite Hs, Hd.
    repeat split; trivial. apply Hgid, H.
  - destruct (broker_ips _) as [|b bs];
      [destruct (RoutingEngine.select_optimal_rp _ _) as [rp|];
         [destruct (rp =? "")%string|]|];
      (intro H; split; [reflexivity|];
       match type of H with
       | fst (RyuMRTApp.after_install ?t ?v
                (RyuMRTApp._install_multicast_tree ?h ?i ?fl ?x ?f ?ls)) = _ =>
           destruct (after_install_stored h i fl t v x f ls)
             as (f' & Hget & Hsrc & Hdst & Hroute & Hhops & Hgid)
       end;
       exists f'; split; [exact Hget|];
       rewrite Hsrc, Hdst, Hroute, Hhops; cbn; rewrite ?Hs, ?Hd;
       repeat split; trivial; apply Hgid, H).
Qed.

(** Registering C on the unloaded diamond. *)
Lemma successful_registration_of_C :
  fst (RyuMRTApp.register_rt_flow hash_zero int_decimal float_decimal steiner_raises
         diamond_app "C" descriptor_C "1" None) = RyuMRTApp.Done true
  /\ exists f,
       of_db.get_flow "C"
         (RyuMRTApp.db (snd (RyuMRTApp.register_rt_flow hash_zero int_decimal
                               float_decimal steiner_raises diamond_app "C"
                               descriptor_C "1" None)))
       = Some f
       /\ src_ip f = "1".
Proof.
  split; [reflexivity|].
  destruct (proj2 (successful_registration_commits_the_route hash_zero int_decimal
                     float_decimal steiner_raises diamond_app "C" descriptor_C "1"
                     None eq_refl))
    as (f & Hget & Hsrc & _).
  exists f. split; [exact Hget | exact Hsrc].
Defined.

(** X18. A join for a topic under which no flow is registered only records
    the subscriber: the handler returns normally, the flows of the registry
    and the links are those from before, and nothing is sent. *)
Theorem join_without_a_flow_only_records_the_subscriber
    (py_hash : string -> Z) (py_int : string -> option Z)
    (py_float : string -> option Q)
    (steiner_tree : nx.graph -> list string -> option (list (string * string)))
    (a : RyuMRTApp.app) (topic sub_ip : string) :
  of_db.get_flow topic (RyuMRTApp.db a) = None ->
  let r := RyuMRTApp.handle_new_subscriber py_hash py_int py_float steiner_tree a
             topic sub_ip in
  fst r = RyuMRTApp.Done tt
  /\ of_db.flows (RyuMRTApp.db (snd r)) = of_db.flows (RyuMRTApp.db a)
  /\ of_db.links (RyuMRTApp.db (snd r)) = of_db.links (RyuMRTApp.db a)
  /\ RyuMRTApp.sent (snd r) = RyuMRTApp.sent a
  /\ exists subs,
       of_db.dict_get String.eqb topic (of_db.subscribers (RyuMRTApp.db (snd r)))
       = Some subs /\ In sub_ip subs.
Proof.
  intros Hnone r.
  assert (R : r = (RyuMRTApp.Done tt,
                   RyuMRTApp.with_db a
                     (of_db.add_subscriber topic sub_ip (RyuMRTApp.db a)))).
  { subst r. unfold RyuMRTApp.handle_new_subscriber.
    cbn [RyuMRTApp.db RyuMRTApp.with_db].
    rewrite get_flow_add_subscriber, Hnone. reflexivity. }
  rewrite R. cbn [fst snd RyuMRTApp.db RyuMRTApp.with_db RyuMRTApp.sent].
  unfold of_db.add_subscriber.
  cbn [of_db.flows of_db.links of_db.subscribers].
  repeat split; trivial.
  rewrite dict_get_set. eexists. split; [reflexivity | apply add_once_In].
Qed.

(** A join for a topic the diamond registry has never seen. *)
Lemma join_without_a_flow_on_diamond :
  of_db.get_flow "X" (RyuMRTApp.db diamond_app) = None
  /\ fst (RyuMRTApp.handle_new_subscriber hash_zero int_decimal float_decimal
            steiner_raises diamond_app "X" "4") = RyuMRTApp.Done tt.
Proof.
  split; [reflexivity|].
  exact (proj1 (join_without_a_flow_only_records_the_subscriber hash_zero
                  int_decimal float_decimal steiner_raises diamond_app "X" "4"
                  eq_refl)).
Defined.

(** ** The route a join recomputes *)


















(** ** Source Active messages *)

Lemma key_eqb_eq (a b : option string) :
  MSDP_Signaling.key_eqb a b = true <-> a = b.
Proof.
  destruct a as [x|], b as [y|]; simpl; try (split; [discriminate|discriminate]).
  - rewrite String.eqb_eq. split; [intros ->; reflexivity | intro H; inversion H; auto].
  - split; reflexivity.
Qed.

Lemma known_source_of (topic : option string) (t : MSDP_Signaling.table) :
  MSDP_Signaling.known topic t = true <-> MSDP_Signaling.source_of topic t <> None.
Proof.
  induction t as [|[k v] rest IH]; simpl.
  - split; [discriminate | intro H; contradiction].
  - destruct (MSDP_Signaling.key_eqb k topic); simpl.
    + split; [discriminate | reflexivity].
    + exact IH.
Qed.

Lemma source_of_snoc (topic k v : option string) (t : MSDP_Signaling.table) :
  MSDP_Signaling.source_of topic (t ++ [(k, v)])
  = match MSDP_Signaling.source_of topic t with
    | Some x => Some x
    | None => if MSDP_Signaling.key_eqb k topic then Some v else None
    end.
Proof.
  induction t as [|[k' v'] rest IH]; simpl; trivial.
  destruct (MSDP_Signaling.key_eqb k' topic); trivial.
Qed.

Lemma process_all_sources (msgs : list (MSDP_Signaling.message * string)) :
  forall (t : MSDP_Signaling.table) (topic : option string),
    MSDP_Signaling.source_of topic (process_all msgs t)
    = match MSDP_Signaling.source_of topic t with
      | Some s => Some s
      | None => option_map (fun mp => MSDP_Signaling.msg_src_ip (fst mp))
                           (first_sa topic msgs)
      end.
Proof.
  induction msgs as [|[m peer] rest IH]; intros t topic.
  - simpl. destruct (MSDP_Signaling.source_of topic t); reflexivity.
  - unfold process_all. cbn [fold_left fst snd]. fold (process_all rest).
    rewrite IH. unfold first_sa. cbn [find fst]. fold (first_sa topic rest).
    unfold MSDP_Signaling.process_sa_message, is_sa.
    destruct (MSDP_Signaling.msg_type m) as [ty|]; [|reflexivity].
    destruct (ty =? "SA")%string; [|reflexivity].
    destruct (MSDP_Signaling.known (MSDP_Signaling.msg_topic m) t) eqn:K.
    + destruct (MSDP_Signaling.source_of topic t) eqn:S; [reflexivity|].
      destruct (MSDP_Signaling.key_eqb (MSDP_Signaling.msg_topic m) topic) eqn:E;
        [|reflexivity].
      apply key_eqb_eq in E. rewrite E in K.
      apply known_source_of in K. contradiction.
    + rewrite source_of_snoc.
      destruct (MSDP_Signaling.source_of topic t); [reflexivity|].
      destruct (MSDP_Signaling.key_eqb (MSDP_Signaling.msg_topic m) topic);
        reflexivity.
Qed.

(** X19. The first Source Active message for a topic decides its source:
    after any sequence of messages, a topic that was known keeps the source it
    had, a topic that was not known has the source named by the first Source
    Active message for it, and stays unknown when there is none; messages of
    another type change nothing. *)
Theorem first_source_active_message_wins
    (msgs : list (MSDP_Signaling.message * string))
    (active_sources : MSDP_Signaling.table) (topic : option string) :
  MSDP_Signaling.source_of topic (process_all msgs active_sources)
  = match MSDP_Signaling.source_of topic active_sources with
    | Some s => Some s
    | None => option_map (fun mp => MSDP_Signaling.msg_src_ip (fst mp))
                         (first_sa topic msgs)
    end.
Proof. apply process_all_sources. Qed.

(** X20. A peer that handles a message built by [send_sa_message] for a topic
    it does not know records the advertised source for that topic, and a peer
    that knows the topic keeps its table. *)
Theorem sent_source_is_learnt_by_the_peer (my_ip : string) (peers : list string)
    (topic source peer peer_ip : string) (msg : MSDP_Signaling.message)
    (active_sources : MSDP_Signaling.table) :
  In (peer, msg) (MSDP_Signaling.send_sa_message my_ip peers topic source) ->
  In peer peers
  /\ (MSDP_Signaling.known (Some topic) active_sources = false ->
      MSDP_Signaling.source_of (Some topic)
        (MSDP_Signaling._handle_peer (Some msg) peer_ip active_sources)
      = Some (Some source))
  /\ (MSDP_Signaling.known (Some topic) active_sources = true ->
      MSDP_Signaling._handle_peer (Some msg) peer_ip active_sources
      = active_sources).
Proof.
  unfold MSDP_Signaling.send_sa_message. rewrite in_map_iff.
  intros (p & E & Hp). inversion E; subst. split; [exact Hp|].
  unfold MSDP_Signaling._handle_peer, MSDP_Signaling.process_sa_message. simpl.
  split; intro K; rewrite K; trivial.
  rewrite source_of_snoc.
  destruct (MSDP_Signaling.source_of (Some topic) active_sources) eqn:S.
  - assert (MSDP_Signaling.known (Some topic) active_sources = true)
      by (apply known_source_of; congruence).
    congruence.
  - simpl. rewrite String.eqb_refl. reflexivity.
Qed.

(** One peer, an empty table. *)
Lemma sent_source_is_learnt_by_one_peer :
  In ("10.0.0.2", MSDP_Signaling.mkMessage (Some "SA") (Some "t") (Some "10.0.0.1")
                    (Some "10.0.0.9"))
     (MSDP_Signaling.send_sa_message "10.0.0.9" ["10.0.0.2"] "t" "10.0.0.1")
  /\ In "10.0.0.2" ["10.0.0.2"].
Proof.
  assert (H : In ("10.0.0.2",
                  MSDP_Signaling.mkMessage (Some "SA") (Some "t") (Some "10.0.0.1")
                    (Some "10.0.0.9"))
                 (MSDP_Signaling.send_sa_message "10.0.0.9" ["10.0.0.2"] "t"
                    "10.0.0.1")) by (left; reflexivity).
  split; [exact H|].
  exact (proj1 (sent_source_is_learnt_by_the_peer "10.0.0.9" ["10.0.0.2"] "t"
                  "10.0.0.1" "10.0.0.2" "10.0.0.9" _ [] H)).
Defined.

(** ** The network monitor *)

Lemma record_sample_window (h : list Q) (x : Q) :
  (List.length h <= 20)%nat ->
  NetworkMonitor.record_sample h x
  = skipn (List.length (h ++ [x]) - 20) (h ++ [x])
  /\ (List.length (NetworkMonitor.record_sample h x) <= 20)%nat.
Proof.
  intro H. unfold NetworkMonitor.record_sample. cbv zeta.
  assert (L : List.length (h ++ [x]) = S (List.length h))
    by (rewrite length_app; simpl; lia).
  destruct (20 <? List.length (h ++ [x]))%nat eqn:E.
  - apply Nat.ltb_lt in E.
    assert (E1 : (List.length (h ++ [x]) - 20 = 1)%nat) by lia.
    rewrite E1. split; [reflexivity|].
    destruct (h ++ [x]); simpl in *; lia.
  - apply Nat.ltb_ge in E.
    assert (E0 : (List.length (h ++ [x]) - 20 = 0)%nat) by lia.
    rewrite E0. split; [reflexivity | exact E].
Qed.

Lemma samples_window (xs : list Q) :
  forall h : list Q,
    (List.length h <= 20)%nat ->
    fold_left NetworkMonitor.record_sample xs h
    = skipn (List.length (h ++ xs) - 20) (h ++ xs).
Proof.
  induction xs as [|x rest IH]; intros h H.
  - simpl. rewrite app_nil_r.
    replace (List.length h - 20)%nat with 0%nat by lia. reflexivity.
  - cbn [fold_left].
    destruct (record_sample_window h x H) as [E L].
    rewrite (IH _ L). rewrite E.
    set (b := (List.length (h ++ [x]) - 20)%nat).
    assert (Hb : (b <= List.length (h ++ [x]))%nat) by (unfold b; lia).
    assert (A : skipn b (h ++ [x]) ++ rest = skipn b ((h ++ [x]) ++ rest)).
    { rewrite (skipn_app b (h ++ [x]) rest).
      replace (b - List.length (h ++ [x]))%nat with 0%nat by lia.
      reflexivity. }
    rewrite A. rewrite <- app_assoc. cbn [app].
    rewrite skipn_skipn. f_equal.
    rewrite length_skipn.
    assert (Lx : List.length (h ++ [x]) = S (List.length h))
      by (rewrite length_app; simpl; lia).
    assert (Lr : List.length (h ++ x :: rest)
                 = (S (List.length h) + List.length rest)%nat)
      by (rewrite length_app; simpl; lia).
    unfold b. rewrite Lr, Lx. lia.
Qed.

(** X21. The history of a link is a sliding window: after any number of
    measurements, starting from no history, it holds the last 20 of them in
    the order they were taken, and all of them while there are at most 20. *)
Theorem history_keeps_the_last_20_samples (samples : list Q) :
  fold_left NetworkMonitor.record_sample samples []
  = skipn (List.length samples - 20) samples
  /\ List.length (fold_left NetworkMonitor.record_sample samples [])
     = Nat.min 20 (List.length samples).
Proof.
  assert (E : fold_left NetworkMonitor.record_sample samples []
              = skipn (List.length samples - 20) samples).
  { rewrite samples_window by (simpl; lia). reflexivity. }
  split; [exact E|]. rewrite E, length_skipn. lia.
Qed.

Lemma measure_links_invariant (stdev : list Q -> Q) (latency : Link -> Q)
    (links : list (of_db.link_key * Link)) :
  forall (history : list (of_db.link_key * list Q))
         (before done : list (of_db.link_key * Link)),
    Forall2 (fun old new => same_but_delay old new
                            /\ prop_delay (snd new) = latency (snd old))
            before done ->
    Forall2 (fun old new => same_but_delay old new
                            /\ prop_delay (snd new) = latency (snd old))
            (before ++ links)
            (snd (fold_left (NetworkMonitor.measure_step stdev latency) links
                            (history, done))).
Proof.
  induction links as [|[key link] rest IH]; intros history before done H.
  - simpl. rewrite app_nil_r. exact H.
  - cbn [fold_left]. unfold NetworkMonitor.measure_step at 2.
    replace (before ++ (key, link) :: rest)
      with ((before ++ [(key, link)]) ++ rest)
      by (rewrite <- app_assoc; reflexivity).
    apply IH. apply Forall2_app; [exact H|].
    constructor; [|constructor].
    unfold same_but_delay, NetworkMonitor.update_link. simpl.
    repeat split; reflexivity.
Qed.

(** X22. A measurement round keeps the link table apart from two fields:
    the links come out in the same order under the same keys, each with its
    endpoints, port, switching, processing and queuing delays, capacity and
    used bandwidth unchanged, and with [prop_delay] set to the latency
    measured for it. *)
Theorem measurement_round_only_sets_delay_and_jitter
    (stdev : list Q -> Q) (latency : Link -> Q)
    (history : list (of_db.link_key * list Q))
    (links : list (of_db.link_key * Link)) :
  Forall2 (fun old new => same_but_delay old new
                          /\ prop_delay (snd new) = latency (snd old))
          links
          (snd (NetworkMonitor._measure_links stdev latency history links)).
Proof.
  unfold NetworkMonitor._measure_links.
  apply (measure_links_invariant stdev latency links history [] []).
  constructor.
Qed.

Lemma link_key_eqb_eq (a b : of_db.link_key) :
  of_db.link_key_eqb a b = true <-> a = b.
Proof.
  destruct a as [[s1 d1] p1], b as [[s2 d2] p2]. unfold of_db.link_key_eqb.
  rewrite !andb_true_iff, !String.eqb_eq, Z.eqb_eq.
  split; [intros [[-> ->] ->]; reflexivity | intro H; inversion H; auto].
Qed.

Lemma dict_get_set_other {V : Type} (k k' : of_db.link_key) (v : V)
    (m : list (of_db.link_key * V)) :
  k <> k' ->
  of_db.dict_get of_db.link_key_eqb k' (of_db.dict_set of_db.link_key_eqb k v m)
  = of_db.dict_get of_db.link_key_eqb k' m.
Proof.
  intro N.
  assert (F : of_db.link_key_eqb k k' = false).
  { destruct (of_db.link_key_eqb k k') eqn:E; [|reflexivity].
    apply link_key_eqb_eq in E. contradiction. }
  induction m as [|[k0 v0] rest IH]; simpl.
  - rewrite F. reflexivity.
  - destruct (of_db.link_key_eqb k0 k) eqn:E; simpl.
    + apply link_key_eqb_eq in E. subst k0. rewrite F. reflexivity.
    + rewrite IH. reflexivity.
Qed.

Lemma first_round_invariant (stdev : list Q -> Q) (latency : Link -> Q)
    (links : list (of_db.link_key * Link)) :
  forall (history : list (of_db.link_key * list Q))
         (done : list (of_db.link_key * Link)),
    NoDup (map fst links) ->
    (forall k, In k (map fst links) ->
               of_db.dict_get of_db.link_key_eqb k history = None) ->
    Forall (fun kl => jitter (snd kl) = 0) done ->
    Forall (fun kl => jitter (snd kl) = 0)
           (snd (fold_left (NetworkMonitor.measure_step stdev latency) links
                           (history, done))).
Proof.
  induction links as [|[key link] rest IH]; intros history done ND Hnew Hdone.
  - exact Hdone.
  - cbn [fold_left]. unfold NetworkMonitor.measure_step at 2.
    cbn [map fst] in ND, Hnew. inversion ND as [|? ? Hnotin ND']; subst.
    rewrite (Hnew key (or_introl eq_refl)).
    apply IH; [exact ND'| |].
    + intros k Hk. rewrite dict_get_set_other.
      * apply Hnew. right. exact Hk.
      * intro E. subst k. contradiction.
    + apply Forall_app. split; [exact Hdone|].
      constructor; [|constructor]. reflexivity.
Qed.

(** X23. The first round has no jitter: when the monitor holds no history
    and the link table has one entry per key, every link comes out of
    [_measure_links] with a jitter of 0, whatever the measured latencies
    are, since one sample has no deviation to compute. *)
Theorem first_measurement_round_has_no_jitter
    (stdev : list Q -> Q) (latency : Link -> Q)
    (links : list (of_db.link_key * Link)) :
  NoDup (map fst links) ->
  Forall (fun kl => jitter (snd kl) = 0)
         (snd (NetworkMonitor._measure_links stdev latency [] links)).
Proof.
  intro ND. unfold NetworkMonitor._measure_links.
  apply first_round_invariant; [exact ND | reflexivity | constructor].
Qed.

(** The first round over the link table of the diamond registry. *)
Lemma first_measurement_round_on_diamond :
  NoDup (map fst (of_db.links diamond_registry))
  /\ Forall (fun kl => jitter (snd kl) = 0)
            (snd (NetworkMonitor._measure_links (fun _ => 1) prop_delay []
                    (of_db.links diamond_registry))).
Proof.
  assert (ND : NoDup (map fst (of_db.links diamond_registry))).
  { cbv. repeat constructor; simpl; intuition discriminate. }
  split; [exact ND|].
  exact (first_measurement_round_has_no_jitter (fun _ => 1) prop_delay
           (of_db.links diamond_registry) ND).
Defined.

Lemma load_factor_bounds (link : Link) :
  0 <= bw_used link -> bw_used link <= bw_capacity link ->
  0 <= NetworkMonitor.load_factor link /\ NetworkMonitor.load_factor link <= 2.
Proof.
  intros H0 H1. unfold NetworkMonitor.load_factor.
  destruct (Qgt_bool (bw_capacity link) 0) eqn:C; [|split; q_decide].
  apply Qgt_bool_true in C.
  pose proof (div_nonneg _ _ C H0) as A.
  pose proof (div_mono _ _ _ C H1) as B.
  assert (E : bw_capacity link / bw_capacity link == 1) by (field; lra).
  rewrite E in B. split; lra.
Qed.

Lemma cost_le_final_cost (link : Link) :
  0 <= RoutingEngine.link_cost link -> 0 <= bw_used link ->
  RoutingEngine.link_cost link <= RoutingEngine.final_cost link.
Proof.
  intros Hcost Hused.
  pose proof (utilization_nonneg link Hused) as Hu0.
  pose proof (utilization_below_one link) as Hu1.
  unfold RoutingEngine.final_cost.
  apply Qle_shift_div_l; [lra|].
  assert (0 <= RoutingEngine.link_cost link * RoutingEngine.utilization link)
    by (apply Qmult_le_0_compat; assumption).
  lra.
Qed.

(** X24. In simulation mode the measured latency of a link whose used
    bandwidth lies between 0 and its capacity is between 4.5 and 7.5 ms, for
    any noise in the range drawn, [-0.5, 0.5]; on a link without capacity the
    load term is dropped instead of dividing by zero.  If, besides, the
    switching and the processing delay of the link are not negative, then
    once the monitor has written that latency into the link the routing
    weight of the link is at least 4.5. *)
Theorem simulated_latency_bounds (noise jitter_ : Q) (link : Link) :
  - (1 # 2) <= noise -> noise <= 1 # 2 ->
  0 <= bw_used link -> bw_used link <= bw_capacity link ->
  (9 # 2 <= NetworkMonitor.simulated_latency noise link
   /\ NetworkMonitor.simulated_latency noise link <= 15 # 2)
  /\ (bw_capacity link <= 0 ->
      NetworkMonitor.simulated_latency noise link == 5 + noise)
  /\ (0 <= switch_delay link -> 0 <= proc_delay link ->
      9 # 2 <= RoutingEngine.final_cost
                 (NetworkMonitor.update_link link
                    (NetworkMonitor.simulated_latency noise link) jitter_)).
Proof.
  intros Hn0 Hn1 H0 H1.
  destruct (load_factor_bounds link H0 H1) as [L0 L2].
  assert (B : 9 # 2 <= NetworkMonitor.simulated_latency noise link
              /\ NetworkMonitor.simulated_latency noise link <= 15 # 2)
    by (unfold NetworkMonitor.simulated_latency; split; lra).
  split; [exact B|]. split.
  - intro Hcap. unfold NetworkMonitor.simulated_latency, NetworkMonitor.load_factor.
    replace (Qgt_bool (bw_capacity link) 0) with false
      by (symmetry; apply Qgt_bool_false; exact Hcap).
    lra.
  - intros Hs Hp.
    set (l' := NetworkMonitor.update_link link
                 (NetworkMonitor.simulated_latency noise link) jitter_).
    assert (C : 9 # 2 <= RoutingEngine.link_cost l').
    { unfold RoutingEngine.link_cost, l', NetworkMonitor.update_link. simpl.
      destruct B. lra. }
    apply Qle_trans with (RoutingEngine.link_cost l'); [exact C|].
    apply cost_le_final_cost; [lra|].
    unfold l', NetworkMonitor.update_link. simpl. exact H0.
Qed.

(** The nearly saturated link, with the largest noise: the latency is within
    the bounds, and the link then weighs at least 4.5. *)
Lemma simulated_latency_bounds_on_a_loaded_link :
  (- (1 # 2) <= 1 # 2 /\ 0 <= bw_used busy_link
   /\ bw_used busy_link <= bw_capacity busy_link)
  /\ (9 # 2 <= NetworkMonitor.simulated_latency (1 # 2) busy_link
      /\ NetworkMonitor.simulated_latency (1 # 2) busy_link <= 15 # 2)
  /\ (9 # 2 <= RoutingEngine.final_cost
                 (NetworkMonitor.update_link busy_link
                    (NetworkMonitor.simulated_latency (1 # 2) busy_link) 0)
      /\ 0 <= switch_delay busy_link).
Proof.
  assert (A : - (1 # 2) <= 1 # 2) by q_decide.
  assert (B : (1 # 2) <= 1 # 2) by q_decide.
  assert (C : 0 <= bw_used busy_link) by q_decide.
  assert (D : bw_used busy_link <= bw_capacity busy_link) by q_decide.
  assert (E : 0 <= switch_delay busy_link) by q_decide.
  assert (F : 0 <= proc_delay busy_link) by q_decide.
  destruct (simulated_latency_bounds (1 # 2) 0 busy_link A B C D) as (L & _ & W).
  split; [repeat split; assumption|]. split; [exact L|].
  split; [exact (W E F) | exact E].
Defined.
